(** * Lanhu layer tree: the tree builder, the spatial queries and the export
      shaping of [src/lib/lanhu.ts] and [src/entrypoints/popup/App.tsx]

    The development has four parts.
    - A small model of the JavaScript data the code works on: JSON values,
      numbers as IEEE 754 binary64 floats, objects used as string-keyed
      records with [Object.prototype] behind them.
    - The functions of the two source files, embedded one to one.
    - The same functions on records without a prototype, which the proofs
      go through.
    - The properties of these functions. *)

From Stdlib Require Import List String Ascii Bool Arith ZArith Lia.
From Stdlib Require Import Floats Permutation Sorted Relations.
Import ListNotations.

Set Warnings "-inexact-float,-register-all".

Open Scope string_scope.
Open Scope list_scope.

(* ===================================================================== *)
(** * 1. JavaScript data *)
(* ===================================================================== *)

(** ** Objects used as records

    A [Record<string, A>] is an object created by [{}]: the list of its own
    properties in the order of their creation, and [Object.prototype]
    behind them. [lookup] finds an own property ([None]: there is none),
    [assign] creates or overwrites one: an existing key keeps its place, a
    new key goes last. [Object.entries] and [Object.keys] enumerate the own
    keys that are array indices first, in ascending numeric order, and then
    the other keys in the order of their creation. *)

Definition JsRecord (A : Type) : Type := list (string * A).

Fixpoint lookup {A : Type} (k : string) (o : JsRecord A) : option A :=
  match o with
  | [] => None
  | (k', v) :: rest => if String.eqb k k' then Some v else lookup k rest
  end.

Fixpoint assign {A : Type} (k : string) (v : A) (o : JsRecord A) : JsRecord A :=
  match o with
  | [] => [(k, v)]
  | (k', v') :: rest =>
      if String.eqb k k' then (k', v) :: rest else (k', v') :: assign k v rest
  end.

Definition keys {A : Type} (o : JsRecord A) : list string := map fst o.

(** The value of a string of decimal digits. *)
Definition digitValue (c : ascii) : option N :=
  let n := N_of_ascii c in
  if (48 <=? n)%N && (n <=? 57)%N then Some (n - 48)%N else None.

Fixpoint digitsValue (s : string) (acc : N) : option N :=
  match s with
  | EmptyString => Some acc
  | String c rest =>
      match digitValue c with
      | Some d => digitsValue rest (10 * acc + d)%N
      | None => None
      end
  end.

(** A key is an array index when it is the canonical decimal form of an
    integer from 0 to 2^32 - 2. *)
Definition arrayIndex (k : string) : option N :=
  match k with
  | EmptyString => None
  | String "0" EmptyString => Some 0%N
  | String "0" _ => None
  | _ =>
      match digitsValue k 0 with
      | Some n => if (n <? 4294967295)%N then Some n else None
      | None => None
      end
  end.

Definition isArrayIndex (k : string) : bool :=
  match arrayIndex k with
  | Some _ => true
  | None => false
  end.

Definition indexValue (k : string) : N :=
  match arrayIndex k with
  | Some n => n
  | None => 0%N
  end.

Fixpoint insertByIndex {A : Type} (kv : string * A) (l : list (string * A))
  : list (string * A) :=
  match l with
  | [] => [kv]
  | kv' :: rest =>
      if (indexValue (fst kv) <=? indexValue (fst kv'))%N then kv :: l
      else kv' :: insertByIndex kv rest
  end.

Definition sortByIndex {A : Type} (l : list (string * A)) : list (string * A) :=
  fold_right insertByIndex [] l.

Definition Object_entries {A : Type} (o : JsRecord A) : list (string * A) :=
  sortByIndex (filter (fun kv => isArrayIndex (fst kv)) o)
  ++ filter (fun kv => negb (isArrayIndex (fst kv))) o.

Definition Object_keys {A : Type} (o : JsRecord A) : list string :=
  map fst (Object_entries o).

(** ** [Object.prototype]

    The names of the members of [Object.prototype]. A property read [o[k]]
    that finds no own property [k] goes on to the prototype; there it finds
    a function when [k] is one of the first eleven names, and the prototype
    itself when [k] is [__proto__]. All of these are objects: they are
    truthy and neither [null] nor [undefined]. *)
Definition protoNames : list string :=
  [ "constructor"; "hasOwnProperty"; "isPrototypeOf"; "propertyIsEnumerable";
    "toLocaleString"; "toString"; "valueOf";
    "__defineGetter__"; "__defineSetter__"; "__lookupGetter__"; "__lookupSetter__";
    "__proto__" ].

Definition protoName (k : string) : bool := existsb (String.eqb k) protoNames.

(** What the property read [o[k]] finds. *)
Inductive Read (A : Type) : Type :=
| Own (v : A)       (* the own property [k] *)
| Inherited         (* the member [k] of [Object.prototype] *)
| Missing.          (* [undefined] *)

Arguments Own {A} v.
Arguments Inherited {A}.
Arguments Missing {A}.

(** [o[k]] *)
Definition read {A : Type} (k : string) (o : JsRecord A) : Read A :=
  match lookup k o with
  | Some v => Own v
  | None => if protoName k then Inherited else Missing
  end.

(** The own properties after the assignment [o[k] = v]. The key
    [__proto__] names the accessor of [Object.prototype]: the assignment
    creates no property (it changes the prototype of [o] when [v] is an
    object or [null]). Object literals, [{ ...o }] and [Object.fromEntries]
    define their properties without going through the accessor: they are
    [assign], also at [__proto__]. *)
Definition write {A : Type} (k : string) (v : A) (o : JsRecord A) : JsRecord A :=
  if String.eqb k "__proto__" then o else assign k v o.

(** ** The outcome of a call

    A call returns a result or throws a [TypeError]; a loop that is run on
    fuel may stop because the fuel is used up. [ProtoAccess] is the outcome
    of a run that takes a member of [Object.prototype] for data of its own
    (what it read as a node, as a parent id or as a list of children is
    that member) or that changes the prototype of a record it goes on to
    read: the code goes on from there, the functions below do not follow
    it. *)
Inductive Outcome (A : Type) : Type :=
| Returns (a : A)
| Throws
| ProtoAccess
| OutOfFuel.

Arguments Returns {A} a.
Arguments Throws {A}.
Arguments ProtoAccess {A}.
Arguments OutOfFuel {A}.

Definition bind {A B : Type} (o : Outcome A) (f : A -> Outcome B) : Outcome B :=
  match o with
  | Returns a => f a
  | Throws => Throws
  | ProtoAccess => ProtoAccess
  | OutOfFuel => OutOfFuel
  end.

(** ** JSON values

    What [JSON.parse] produces, plus [undefined]. Numbers are binary64
    floats, as in JavaScript. *)

Inductive value : Type :=
| VUndefined
| VNull
| VBool (b : bool)
| VNumber (n : float)
| VString (s : string)
| VArray (items : list value)
| VObject (fields : JsRecord value).

(** [v == null]: [v] is [null] or [undefined]. *)
Definition nullish (v : value) : bool :=
  match v with
  | VUndefined | VNull => true
  | _ => false
  end.

(** [a ?? b] *)
Definition coalesce (a b : value) : value := if nullish a then b else a.

Infix "??" := coalesce (at level 45, left associativity).

(** [v !== undefined] *)
Definition isDefined (v : value) : bool :=
  match v with
  | VUndefined => false
  | _ => true
  end.

(** [Number.isFinite] *)
Definition Number_isFinite (n : float) : bool := is_finite n.

(** JavaScript's ToBoolean. *)
Definition truthy (v : value) : bool :=
  match v with
  | VUndefined | VNull => false
  | VBool b => b
  | VNumber n => negb (is_nan n || is_zero n)
  | VString s => negb (String.eqb s "")
  | VArray _ | VObject _ => true
  end.

(** The property read [v.k] on a value that is not [null] or [undefined]:
    an own property of an object, [undefined] otherwise (the keys read
    here are [left], [top], [width], [height] and the keys of
    [pickExportNode]: none is a property of an array, a string, a number or
    a boolean, and none names a member of [Object.prototype]). *)
Definition get (v : value) (k : string) : value :=
  match v with
  | VObject fields =>
      match lookup k fields with
      | Some x => x
      | None => VUndefined
      end
  | _ => VUndefined
  end.

(** Truthiness of a string, as in [if (!rootId)] and [if (!node.id)]. *)
Definition nonEmpty (s : string) : bool := negb (String.eqb s "").

(* ===================================================================== *)
(** * 2. [src/lib/lanhu.ts] *)
(* ===================================================================== *)

(** [LanhuRect] *)
Record LanhuRect : Type := mkRect {
  left : float;
  top : float;
  width : float;
  height : float
}.

(** [LanhuLayerNode]: an object with an optional string [id], an optional
    array [layers] and an open bag of further properties ([name], [type],
    [frame], [realFrame], [combinedFrame], [transform], ...), kept as JSON
    values. [layers = None] stands for a [layers] property that is absent or
    not an array. An element of [layers] is [Some node] when it is an object
    and [None] when it is [null] or a primitive, which is what the guard
    [!node || typeof node !== 'object'] tells apart. *)
Inductive LanhuLayerNode : Type :=
| Layer (id : option string)
        (layers : option (list (option LanhuLayerNode)))
        (props : JsRecord value).

Definition node_id (node : LanhuLayerNode) : option string :=
  match node with Layer id _ _ => id end.

Definition node_layers (node : LanhuLayerNode) : option (list (option LanhuLayerNode)) :=
  match node with Layer _ layers _ => layers end.

(** [node.k] for a property [k] other than [id] and [layers]; no key read
    this way names a member of [Object.prototype]. *)
Definition prop (node : LanhuLayerNode) (k : string) : value :=
  match node with
  | Layer _ _ props =>
      match lookup k props with
      | Some x => x
      | None => VUndefined
      end
  end.

(** [node.id] as a value. *)
Definition id_value (node : LanhuLayerNode) : value :=
  match node_id node with
  | Some s => VString s
  | None => VUndefined
  end.

(** [LanhuSketchJson]: [artboard = None] stands for an [artboard] that is
    absent or not an object. *)
Record LanhuSketchJson : Type := mkSketch {
  artboard : option LanhuLayerNode
}.

(** [LanhuTree]. In [parentById], [None] is the [null] of a root. *)
Record LanhuTree : Type := mkTree {
  nodesById : JsRecord LanhuLayerNode;
  childrenById : JsRecord (list string);
  parentById : JsRecord (option string);
  rootIds : list string
}.

Definition emptyTree : LanhuTree := mkTree [] [] [] [].

(** [isFiniteNumber] *)
Definition isFiniteNumber (v : value) : bool :=
  match v with
  | VNumber n => Number_isFinite n
  | _ => false
  end.

Definition number_of (v : value) : float :=
  match v with
  | VNumber n => n
  | _ => nan
  end.

(** [getNodeRect] *)
Definition getNodeRect (node : LanhuLayerNode) : option LanhuRect :=
  let frame :=
    prop node "frame" ?? prop node "realFrame" ?? prop node "combinedFrame" ?? VNull in
  if truthy frame
     && isFiniteNumber (get frame "left")
     && isFiniteNumber (get frame "top")
     && isFiniteNumber (get frame "width")
     && isFiniteNumber (get frame "height")
  then Some (mkRect (number_of (get frame "left")) (number_of (get frame "top"))
                    (number_of (get frame "width")) (number_of (get frame "height")))
  else None.

(** [pickExportNode] *)
Definition pickExportNode (node : LanhuLayerNode) : value :=
  VObject
    [ ("id", id_value node);
      ("name", prop node "name" ?? VNull);
      ("type", prop node "type" ?? VNull);
      ("frame", prop node "frame" ?? VNull);
      ("realFrame", prop node "realFrame" ?? VNull);
      ("combinedFrame", prop node "combinedFrame" ?? VNull);
      ("transform", prop node "transform" ?? VNull);
      ("opacity", prop node "opacity" ?? VNull);
      ("visible", prop node "visible" ?? VNull);
      ("rotation", prop node "rotation" ?? VNull);
      ("clipped", prop node "clipped" ?? VNull);
      ("isMask", prop node "isMask" ?? VNull);
      ("origin", prop node "origin" ?? VNull);
      ("radius", prop node "radius" ?? VNull);
      ("style", prop node "style" ?? VNull);
      ("paths", prop node "paths" ?? VNull);
      ("text", prop node "text" ?? VNull);
      ("image", prop node "image" ?? VNull);
      ("sharedStyle", prop node "sharedStyle" ?? VNull) ].

(** [compactJson]. The array branch is [value.map(compactJson).filter(v => v
    !== undefined)]. The object branch is the loop over [Object.entries]
    that writes [next[k] = cv] for every defined [cv] ([write]: the key
    [__proto__] gets no property); the compacted value
    [cv] of each property is computed on the fields themselves, before they
    are enumerated, which does not change the order of the enumeration. *)
Fixpoint compactJson (v : value) : value :=
  match v with
  | VUndefined | VNull => VUndefined
  | VArray items =>
      let next := filter isDefined (map compactJson items) in
      match next with
      | [] => VUndefined
      | _ :: _ => VArray next
      end
  | VObject fields =>
      let compactedFields := map (fun kv => (fst kv, compactJson (snd kv))) fields in
      let next :=
        fold_left
          (fun (next : JsRecord value) (kcv : string * value) =>
             if isDefined (snd kcv) then write (fst kcv) (snd kcv) next else next)
          (Object_entries compactedFields) [] in
      match next with
      | [] => VUndefined
      | _ :: _ => VObject next
      end
  | VBool _ | VNumber _ | VString _ => v
  end.

(** ** [parseLanhuTree] *)

(** One entry [{ parentId, nodes }] of the work stack. The head of the list
    is the top of the stack. *)
Definition StackEntry : Type := (string * list (option LanhuLayerNode))%type.

(** The four variables the loop of [parseLanhuTree] updates. *)
Record BuildState : Type := mkBuild {
  b_nodesById : JsRecord LanhuLayerNode;
  b_childrenById : JsRecord (list string);
  b_parentById : JsRecord (option string);
  b_stack : list StackEntry
}.

(** [(childrenById[parentId] ??= []).push(id)]. Where [childrenById] has no
    own list for a [parentId] that names a member of [Object.prototype],
    the read finds that member: it is not nullish, so nothing is assigned,
    and it has no method [push], so the call throws. *)
Definition pushChild (parentId id : string) (children : JsRecord (list string))
  : Outcome (JsRecord (list string)) :=
  match read parentId children with
  | Own l => Returns (assign parentId (l ++ [id]) children)
  | Missing => Returns (assign parentId [id] children)
  | Inherited => Throws
  end.

(** [if (Array.isArray(node.layers) && node.layers.length) stack.push({
    parentId: id, nodes: node.layers })] *)
Definition pushLayers (id : string) (layers : option (list (option LanhuLayerNode)))
    (stack : list StackEntry) : list StackEntry :=
  match layers with
  | Some (x :: rest) => (id, x :: rest) :: stack
  | Some [] | None => stack
  end.

(** The body of [for (const node of nodes)]. With the id [__proto__] the
    two assignments [nodesById[id] = node] and [parentById[id] = parentId]
    create no property: the first makes [node] the prototype of
    [nodesById]. The run is not followed from there; when the [push] of
    the same step throws, the call throws whatever the two assignments
    did. *)
Definition visit (parentId : string) (st : BuildState) (elem : option LanhuLayerNode)
  : Outcome BuildState :=
  match elem with
  | None => Returns st                          (* not an object: continue *)
  | Some node =>
      match node_id node with
      | None => Returns st                      (* no id: continue *)
      | Some id =>
          if nonEmpty id then
            match pushChild parentId id (b_childrenById st) with
            | Returns children =>
                if String.eqb id "__proto__" then ProtoAccess
                else
                  Returns (mkBuild (assign id node (b_nodesById st))
                                   children
                                   (assign id (Some parentId) (b_parentById st))
                                   (pushLayers id (node_layers node) (b_stack st)))
            | Throws => Throws
            | ProtoAccess => ProtoAccess
            | OutOfFuel => OutOfFuel
            end
          else Returns st                       (* empty id: continue *)
      end
  end.

(** [for (const node of nodes) ...] *)
Definition visitAll (parentId : string) (nodes : list (option LanhuLayerNode))
    (st : BuildState) : Outcome BuildState :=
  fold_left (fun acc elem => bind acc (fun st => visit parentId st elem))
            nodes (Returns st).

Definition popped (st : BuildState) (rest : list StackEntry) : BuildState :=
  mkBuild (b_nodesById st) (b_childrenById st) (b_parentById st) rest.

(** [while (stack.length) { const { parentId, nodes } = stack.pop(); for
    ... }]. One unit of fuel pays for one iteration of the [while]. *)
Fixpoint buildLoop (fuel : nat) (st : BuildState) : Outcome BuildState :=
  match b_stack st with
  | [] => Returns st
  | (parentId, nodes) :: rest =>
      match fuel with
      | O => OutOfFuel
      | S fuel' => bind (visitAll parentId nodes (popped st rest)) (buildLoop fuel')
      end
  end.

(** A node is registered when it has a non-empty id. *)
Definition registrable (node : LanhuLayerNode) : bool :=
  match node_id node with
  | Some id => nonEmpty id
  | None => false
  end.

(** The number of stack entries pushed for a registered node and the nodes
    below it: one for each registered node with a non-empty [layers]. *)
Fixpoint pushCount (node : LanhuLayerNode) : nat :=
  match node with
  | Layer _ (Some (x :: rest)) _ =>
      S (list_sum
           (map (fun elem =>
                   match elem with
                   | Some child => if registrable child then pushCount child else 0
                   | None => 0
                   end) (x :: rest)))
  | Layer _ _ _ => 0
  end.

(** [parseLanhuTree]. The fuel of the loop is the number of stack entries
    the document causes, which is the number of iterations the loop makes.
    With the root id [__proto__] the assignments [parentById[rootId] =
    null] and [nodesById[rootId] = artboard] change the prototypes of the
    two records and create no property. *)
Definition parseLanhuTree (sketchJson : LanhuSketchJson) : Outcome LanhuTree :=
  match artboard sketchJson with
  | None => Returns emptyTree
  | Some artboard =>
      match node_id artboard with
      | None => Returns emptyTree
      | Some rootId =>
          if nonEmpty rootId then
            if String.eqb rootId "__proto__" then ProtoAccess
            else
              let st0 := mkBuild (assign rootId artboard [])
                                 []
                                 (assign rootId None [])
                                 (pushLayers rootId (node_layers artboard) []) in
              bind (buildLoop (pushCount artboard) st0)
                   (fun st =>
                      Returns (mkTree (b_nodesById st) (b_childrenById st)
                                      (b_parentById st) [rootId]))
          else Returns emptyTree
      end
  end.

(** ** [getAncestorIds]

    [while (true)] with one unit of fuel for each iteration. Where
    [parentById] has no own property [currentId] and [currentId] names a
    member of [Object.prototype], [parentId] is that member: it is truthy
    and is pushed onto [result], which from then on is no list of ids. *)
Fixpoint ancestorsLoop (fuel : nat) (tree : LanhuTree) (currentId : string)
    (result : list string) : Outcome (list string) :=
  match fuel with
  | O => OutOfFuel
  | S fuel' =>
      match read currentId (parentById tree) with
      | Own (Some parentId) =>
          if nonEmpty parentId
          then ancestorsLoop fuel' tree parentId (result ++ [parentId])
          else Returns result
      | Own None | Missing => Returns result
      | Inherited => ProtoAccess
      end
  end.

Definition getAncestorIds (tree : LanhuTree) (id : string) : Outcome (list string) :=
  ancestorsLoop (S (List.length (parentById tree))) tree id [].

(** ** [getDescendantIds] *)

(** The body of [for (const childId of childIds)]: [result.push(childId);
    queue.push(childId)], on the pair of the queue and the result. *)
Definition enqueueChild (qr : list string * list string) (childId : string)
  : list string * list string :=
  (fst qr ++ [childId], snd qr ++ [childId]).

(** [while (queue.length) { const id = queue.shift(); ... }]. The head of
    the list is the front of the queue. One unit of fuel pays for one
    iteration. [tree.childrenById[id] ?? []] is the own list of [id], the
    empty list when the read finds nothing, and the member of
    [Object.prototype] that [id] names otherwise: that member is not
    iterable, and the [for ... of] throws. *)
Fixpoint descendantsLoop (fuel : nat) (tree : LanhuTree) (queue result : list string)
  : Outcome (list string) :=
  match queue with
  | [] => Returns result
  | id :: rest =>
      match fuel with
      | O => OutOfFuel
      | S fuel' =>
          match read id (childrenById tree) with
          | Own childIds =>
              let (queue', result') := fold_left enqueueChild childIds (rest, result) in
              descendantsLoop fuel' tree queue' result'
          | Missing => descendantsLoop fuel' tree rest result
          | Inherited => Throws
          end
      end
  end.

(** [getDescendantIds] *)
Definition getDescendantIds (fuel : nat) (tree : LanhuTree) (rootId : string)
    (includeSelf : bool) : Outcome (list string) :=
  descendantsLoop fuel tree [rootId] (if includeSelf then [rootId] else []).

(* ===================================================================== *)
(** * 3. [src/entrypoints/popup/App.tsx] *)
(* ===================================================================== *)

Open Scope float_scope.

(** [Array.prototype.sort(compare)]. JavaScript asks of the sort that it is
    stable and that, for a consistent comparator, the result is ordered by
    it; the two together determine the result, which this insertion
    computes: an element moves behind another one only when [compare] is
    positive on the pair. *)
Fixpoint sortedInsert {A : Type} (compare : A -> A -> float) (x : A) (l : list A)
  : list A :=
  match l with
  | [] => [x]
  | y :: rest =>
      if 0 <? compare x y then y :: sortedInsert compare x rest else x :: l
  end.

Definition Array_sort {A : Type} (compare : A -> A -> float) (l : list A) : list A :=
  fold_right (sortedInsert compare) [] l.

(** An entry [{ id, rect, area }] of the geometry index. *)
Record RectItem : Type := mkItem {
  item_id : string;
  item_rect : LanhuRect;
  item_area : float
}.

(** [rectIndexAll], for a loaded tree. *)
Definition rectIndexAll (tree : LanhuTree) : list RectItem :=
  let items :=
    fold_left
      (fun (items : list RectItem) (entry : string * LanhuLayerNode) =>
         let (id, node) := entry in
         match getNodeRect node with
         | None => items
         | Some rect =>
             let area := width rect * height rect in
             if negb (Number_isFinite area) || (area <=? 0) then items
             else items ++ [mkItem id rect area]
         end)
      (Object_entries (nodesById tree)) [] in
  Array_sort (fun a b => item_area a - item_area b) items.

(** [hiddenById[id]] as a condition. Where [hiddenById] has no own property
    [id] and [id] names a member of [Object.prototype], the read finds that
    member, which is truthy. *)
Definition isHidden (hiddenById : JsRecord bool) (id : string) : bool :=
  match read id hiddenById with
  | Own b => b
  | Inherited => true
  | Missing => false
  end.

(** [rectIndexVisible] *)
Definition rectIndexVisible (rectIndexAll : list RectItem) (hiddenById : JsRecord bool)
  : list RectItem :=
  match Object_keys hiddenById with
  | [] => rectIndexAll
  | _ :: _ => filter (fun x => negb (isHidden hiddenById (item_id x))) rectIndexAll
  end.

(** [isRectInside] *)
Definition isRectInside (inner outer : LanhuRect) : bool :=
  let eps := 0.01 in
  let innerRight := left inner + width inner in
  let innerBottom := top inner + height inner in
  let outerRight := left outer + width outer in
  let outerBottom := top outer + height outer in
  (left outer - eps <=? left inner)
  && (top outer - eps <=? top inner)
  && (innerRight <=? outerRight + eps)
  && (innerBottom <=? outerBottom + eps).

(** The condition of [pickCandidatesAtPoint]. *)
Definition containsPoint (r : LanhuRect) (x y : float) : bool :=
  (left r <=? x) && (x <=? left r + width r)
  && (top r <=? y) && (y <=? top r + height r).

(** [pickCandidatesAtPoint] *)
Definition pickCandidatesAtPoint (rectIndex : list RectItem) (x y : float) : list string :=
  fold_left
    (fun (candidates : list string) (item : RectItem) =>
       if containsPoint (item_rect item) x y then candidates ++ [item_id item]
       else candidates)
    rectIndex [].

Close Scope float_scope.

(** [Array.prototype.join] on strings. *)
Fixpoint Array_join (sep : string) (l : list string) : string :=
  match l with
  | [] => ""
  | [s] => s
  | s :: rest => s ++ sep ++ Array_join sep rest
  end.

(** [Array.prototype.indexOf]: the first index, [-1] when there is none. *)
Fixpoint Array_indexOf (l : list string) (s : string) : Z :=
  match l with
  | [] => (-1)%Z
  | x :: rest =>
      if String.eqb x s then 0%Z
      else let i := Array_indexOf rest s in
           if (i <? 0)%Z then (-1)%Z else (i + 1)%Z
  end.

(** [a[i]] for an index in range. *)
Definition at_index (l : list string) (i : Z) (default : string) : string :=
  nth (Z.to_nat i) l default.

(** The state [onClickSvg] reads and writes: [lastPickRef.current?.sig] and
    the [selectedId] that [onSelect] sets. *)
Record PickState : Type := mkPick {
  lastSig : option string;
  selectedId : option string
}.

(** [onClickSvg], from the candidates of the clicked point on. *)
Definition pickNext (candidateIds : list string) (st : PickState) : PickState :=
  match candidateIds with
  | [] => st                                               (* return *)
  | first :: _ =>
      let sig := Array_join "|" candidateIds in
      let sameSig :=
        match lastSig st with
        | Some s => String.eqb s sig
        | None => false
        end in
      let nextId :=
        match selectedId st with
        | Some sel =>
            if sameSig && nonEmpty sel then
              let idx := Array_indexOf candidateIds sel in
              if (0 <=? idx)%Z && (idx <? Z.of_nat (List.length candidateIds) - 1)%Z
              then at_index candidateIds (idx + 1) first
              else if (0 <=? idx)%Z then at_index candidateIds idx first
              else first
            else first
        | None => first
        end in
      mkPick (Some sig) (Some nextId)
  end.

(** [onClickSvg] at the point [(x, y)] of the view box. *)
Definition onClickSvg (rectIndex : list RectItem) (x y : float) (st : PickState)
  : PickState :=
  pickNext (pickCandidatesAtPoint rectIndex x y) st.

(** ** Containment export *)

(** [Set<string>]: insertion ordered, without repetition. *)
Definition Set_has (s : list string) (x : string) : bool := existsb (String.eqb x) s.

Definition Set_add (x : string) (s : list string) : list string :=
  if Set_has s x then s else s ++ [x].

(** One step of the [while] of [getTreePreorderIds] on a stack of frames
    [{ id, idx }] (the head is the top) and the [result] so far. Where
    [tree.childrenById[top.id] ?? []] is a member of [Object.prototype],
    the loop takes it for the list of the children. *)
Definition preorderStep (tree : LanhuTree) (included : list string)
    (top : string * Z) (rest : list (string * Z)) (result : list string)
  : Outcome (list (string * Z) * list string) :=
  let (id, idx) := top in
  let entered := (idx =? -1)%Z in
  let idx := if entered then 0%Z else idx in
  let result := if entered && Set_has included id then result ++ [id] else result in
  let next (children : list string) :=
    if (Z.of_nat (List.length children) <=? idx)%Z then (rest, result)
    else ((at_index children idx "", (-1)%Z) :: (id, (idx + 1)%Z) :: rest, result) in
  match read id (childrenById tree) with
  | Own children => Returns (next children)
  | Missing => Returns (next [])
  | Inherited => ProtoAccess
  end.

Fixpoint preorderLoop (fuel : nat) (tree : LanhuTree) (included : list string)
    (stack : list (string * Z)) (result : list string) : Outcome (list string) :=
  match stack with
  | [] => Returns result
  | top :: rest =>
      match fuel with
      | O => OutOfFuel
      | S fuel' =>
          bind (preorderStep tree included top rest result)
               (fun sr => preorderLoop fuel' tree included (fst sr) (snd sr))
      end
  end.

(** [getTreePreorderIds]; the first loop pushes the roots from the last to
    the first, which leaves the first root on top. *)
Definition getTreePreorderIds (fuel : nat) (tree : LanhuTree) (included : list string)
  : Outcome (list string) :=
  preorderLoop fuel tree included (map (fun rootId => (rootId, (-1)%Z)) (rootIds tree)) [].

(** What a call of an export handler does. *)
Inductive ExportOutcome : Type :=
| NoExport                      (* return before anything is done *)
| ExportText (out : value)      (* setExportText(JSON.stringify(out, null, 2)) *)
| ExportThrows                  (* a [TypeError] *)
| ExportProtoAccess             (* a member of [Object.prototype] taken for data *)
| ExportOutOfFuel.              (* the traversal did not finish within the fuel *)

Definition exportOf (o : Outcome value) : ExportOutcome :=
  match o with
  | Returns out => ExportText out
  | Throws => ExportThrows
  | ProtoAccess => ExportProtoAccess
  | OutOfFuel => ExportOutOfFuel
  end.

(** The set [included] of [exportVisuallyContained]. *)
Definition containedIds (rectIndexAll : list RectItem) (containerRect : LanhuRect)
    (selectedId : string) : list string :=
  Set_add selectedId
    (fold_left
       (fun (included : list string) (item : RectItem) =>
          if isRectInside (item_rect item) containerRect
          then Set_add (item_id item) included
          else included)
       rectIndexAll []).

(** [ids.map((id) => pickExportNode(tree.nodesById[id]))]. Where the read
    finds nothing, [pickExportNode] reads a property of [undefined] and
    throws. *)
Fixpoint exportNodes (tree : LanhuTree) (ids : list string) : Outcome (list value) :=
  match ids with
  | [] => Returns []
  | id :: rest =>
      match read id (nodesById tree) with
      | Own node =>
          bind (exportNodes tree rest) (fun nodes => Returns (pickExportNode node :: nodes))
      | Missing => Throws
      | Inherited => ProtoAccess
      end
  end.

(** [tree.parentById[id] ?? null] as a value. *)
Definition parentValue (tree : LanhuTree) (id : string) : Outcome value :=
  match read id (parentById tree) with
  | Own (Some parentId) => Returns (VString parentId)
  | Own None | Missing => Returns VNull
  | Inherited => ProtoAccess
  end.

(** [for (const id of ids) parentById[id] = tree.parentById[id] ?? null],
    on the [parentById] of the payload. *)
Fixpoint exportParents (tree : LanhuTree) (ids : list string) (parentById : JsRecord value)
  : Outcome (JsRecord value) :=
  match ids with
  | [] => Returns parentById
  | id :: rest =>
      bind (parentValue tree id)
           (fun parent => exportParents tree rest (write id parent parentById))
  end.

Definition count_value (n : nat) : value :=
  VNumber (PrimFloat.of_uint63 (Uint63.of_Z (Z.of_nat n))).

(** What the two export handlers do with the list [ids] once they have it:
    the nodes, the [parentById] of the payload, the payload and the text. *)
Definition exportIds (tree : LanhuTree) (selectedId : string) (compactExport : bool)
    (ids : list string) : ExportOutcome :=
  exportOf
    (bind (exportNodes tree ids) (fun nodes =>
     bind (exportParents tree ids []) (fun parentById =>
       let payload :=
         VObject [ ("selectedId", VString selectedId);
                   ("count", count_value (List.length nodes));
                   ("parentById", VObject parentById);
                   ("nodes", VArray nodes) ] in
       Returns (if compactExport then compactJson payload ?? payload else payload)))).

(** The second half of [exportVisuallyContained], from [included] on. *)
Definition exportIncluded (fuel : nat) (tree : LanhuTree) (selectedId : string)
    (compactExport : bool) (included : list string) : ExportOutcome :=
  match getTreePreorderIds fuel tree included with
  | Returns ids => exportIds tree selectedId compactExport ids
  | Throws => ExportThrows
  | ProtoAccess => ExportProtoAccess
  | OutOfFuel => ExportOutOfFuel
  end.

(** [exportVisuallyContained]. [rectIndexAll] is the memoised index of
    [tree], [null] exactly when [tree] is. Where [tree.nodesById] has no
    own property [selectedId], [getNodeRect] reads a property of
    [undefined] and throws, unless [selectedId] names a member of
    [Object.prototype]: that member has no [frame], [realFrame] or
    [combinedFrame], and [getNodeRect] returns [null]. *)
Definition exportVisuallyContained (fuel : nat) (tree : option LanhuTree)
    (selectedId : option string) (compactExport : bool) : ExportOutcome :=
  match tree, selectedId with
  | Some tree, Some selectedId =>
      if nonEmpty selectedId then
        match read selectedId (nodesById tree) with
        | Missing => ExportThrows
        | Inherited => NoExport
        | Own container =>
            match getNodeRect container with
            | None => NoExport
            | Some containerRect =>
                exportIncluded fuel tree selectedId compactExport
                  (containedIds (rectIndexAll tree) containerRect selectedId)
            end
        end
      else NoExport
  | _, _ => NoExport
  end.

(** [exportSelectedDescendants] *)
Definition exportSelectedDescendants (fuel : nat) (tree : option LanhuTree)
    (selectedId : option string) (compactExport : bool) : ExportOutcome :=
  match tree, selectedId with
  | Some tree, Some selectedId =>
      if nonEmpty selectedId then
        match getDescendantIds fuel tree selectedId true with
        | Returns ids => exportIds tree selectedId compactExport ids
        | Throws => ExportThrows
        | ProtoAccess => ExportProtoAccess
        | OutOfFuel => ExportOutOfFuel
        end
      else NoExport
  | _, _ => NoExport
  end.

(** ** Hiding and showing layers *)

(** [{ ...o }]: a new object with the own properties of [o], created in
    the order in which [o] enumerates them. *)
Definition spread {A : Type} (o : JsRecord A) : JsRecord A := Object_entries o.

(** [delete o[k]] *)
Definition delete {A : Type} (k : string) (o : JsRecord A) : JsRecord A :=
  filter (fun kv => negb (String.eqb k (fst kv))) o.

(** The updater of [hideSelectedInWireframe]: [prev => prev[selectedId] ?
    prev : { ...prev, [selectedId]: true }]. *)
Definition hideId (selectedId : string) (prev : JsRecord bool) : JsRecord bool :=
  if isHidden prev selectedId then prev else assign selectedId true (spread prev).

(** The updater of [unhideSelectedInWireframe]: [prev] itself when
    [!prev[selectedId]], else a copy from which [selectedId] is deleted. *)
Definition unhideId (selectedId : string) (prev : JsRecord bool) : JsRecord bool :=
  if negb (isHidden prev selectedId) then prev else delete selectedId (spread prev).

(** [hideSelectedInWireframe], on [hiddenById]. *)
Definition hideSelectedInWireframe (selectedId : option string) (hiddenById : JsRecord bool)
  : JsRecord bool :=
  match selectedId with
  | Some selectedId =>
      if nonEmpty selectedId then hideId selectedId hiddenById else hiddenById
  | None => hiddenById
  end.

(** [unhideSelectedInWireframe], on [hiddenById]. *)
Definition unhideSelectedInWireframe (selectedId : option string)
    (hiddenById : JsRecord bool) : JsRecord bool :=
  match selectedId with
  | Some selectedId =>
      if nonEmpty selectedId then unhideId selectedId hiddenById else hiddenById
  | None => hiddenById
  end.

(** [unhideAllInWireframe], on [hiddenById]. *)
Definition unhideAllInWireframe (hiddenById : JsRecord bool) : JsRecord bool := [].

(** ** Loading a document *)

(** [view] *)
Inductive View : Type := TreeView | WireframeView.

(** The state of [App] that [applySketchJson] sets. *)
Record AppState : Type := mkApp {
  app_raw : option LanhuSketchJson;
  app_tree : option LanhuTree;
  app_selectedId : option string;
  app_expanded : JsRecord bool;
  app_view : View;
  app_hiddenById : JsRecord bool
}.

(** What a call of [applySketchJson] does. *)
Inductive ApplyOutcome : Type :=
| Applied (st : AppState)       (* the six setters were called *)
| ThrowsNotObject               (* the throw of line 179 *)
| ThrowsNoNodes                 (* the throw of line 183 *)
| ThrowsInParse                 (* the [TypeError] of [parseLanhuTree] *)
| ApplyProtoAccess              (* [parseLanhuTree] wrote to [__proto__] *)
| ApplyOutOfFuel.               (* [parseLanhuTree] did not finish *)

(** [nextTree.rootIds[0] ?? null] *)
Definition firstRoot (tree : LanhuTree) : option string :=
  match rootIds tree with
  | rootId :: _ => Some rootId
  | [] => None
  end.

(** [Object.fromEntries(entries)] *)
Definition Object_fromEntries {A : Type} (entries : list (string * A)) : JsRecord A :=
  fold_left (fun (o : JsRecord A) (kv : string * A) => assign (fst kv) (snd kv) o)
            entries [].

(** [applySketchJson]. [data = None] stands for a [data] that is falsy or
    not an object. *)
Definition applySketchJson (data : option LanhuSketchJson) : ApplyOutcome :=
  match data with
  | None => ThrowsNotObject
  | Some sketchJson =>
      match parseLanhuTree sketchJson with
      | Returns nextTree =>
          match Object_keys (nodesById nextTree) with
          | [] => ThrowsNoNodes
          | _ :: _ =>
              Applied (mkApp (Some sketchJson)
                             (Some nextTree)
                             (firstRoot nextTree)
                             (Object_fromEntries
                                (map (fun id => (id, true)) (rootIds nextTree)))
                             WireframeView
                             [])
          end
      | Throws => ThrowsInParse
      | ProtoAccess => ApplyProtoAccess
      | OutOfFuel => ApplyOutOfFuel
      end
  end.

(* ===================================================================== *)
(** * 4. The functions on records without a prototype *)
(* ===================================================================== *)

(** The functions of the two files that read a record, once more, with
    every property read an own-property read ([lookup]): what the code
    computes as long as no read reaches [Object.prototype] and no write
    goes to [__proto__]. They carry the suffix [Own] and have no outcome
    but a result and, for the loops, the end of the fuel. The proofs go
    through them: a run of a function of sections 2 and 3 that returns is
    a run of its counterpart here, and the counterpart is reasoned about
    without the prototype. *)

(** [(childrenById[parentId] ??= []).push(id)] *)
Definition pushChildOwn (parentId id : string) (children : JsRecord (list string))
  : JsRecord (list string) :=
  match lookup parentId children with
  | Some l => assign parentId (l ++ [id]) children
  | None => assign parentId [id] children
  end.

(** The body of [for (const node of nodes)]. *)
Definition visitOwn (parentId : string) (st : BuildState) (elem : option LanhuLayerNode)
  : BuildState :=
  match elem with
  | None => st                                  (* not an object: continue *)
  | Some node =>
      match node_id node with
      | None => st                              (* no id: continue *)
      | Some id =>
          if nonEmpty id then
            mkBuild (assign id node (b_nodesById st))
                    (pushChildOwn parentId id (b_childrenById st))
                    (assign id (Some parentId) (b_parentById st))
                    (pushLayers id (node_layers node) (b_stack st))
          else st                               (* empty id: continue *)
      end
  end.

(** The loop of [parseLanhuTree]; [None] means that the fuel ran out before
    the stack was empty. *)
Fixpoint buildLoopOwn (fuel : nat) (st : BuildState) : option BuildState :=
  match b_stack st with
  | [] => Some st
  | (parentId, nodes) :: rest =>
      match fuel with
      | O => None
      | S fuel' => buildLoopOwn fuel' (fold_left (visitOwn parentId) nodes (popped st rest))
      end
  end.

(** [parseLanhuTree] *)
Definition parseLanhuTreeOwn (sketchJson : LanhuSketchJson) : option LanhuTree :=
  match artboard sketchJson with
  | None => Some emptyTree
  | Some artboard =>
      match node_id artboard with
      | None => Some emptyTree
      | Some rootId =>
          if nonEmpty rootId then
            let st0 := mkBuild (assign rootId artboard [])
                               []
                               (assign rootId None [])
                               (pushLayers rootId (node_layers artboard) []) in
            match buildLoopOwn (pushCount artboard) st0 with
            | Some st =>
                Some (mkTree (b_nodesById st) (b_childrenById st) (b_parentById st)
                             [rootId])
            | None => None
            end
          else Some emptyTree
      end
  end.

(** The loop of [getAncestorIds]; [None] means that the fuel ran out. *)
Fixpoint ancestorsLoopOwn (fuel : nat) (tree : LanhuTree) (currentId : string)
    (result : list string) : option (list string) :=
  match fuel with
  | O => None
  | S fuel' =>
      match lookup currentId (parentById tree) with
      | Some (Some parentId) =>
          if nonEmpty parentId
          then ancestorsLoopOwn fuel' tree parentId (result ++ [parentId])
          else Some result
      | Some None | None => Some result
      end
  end.

Definition getAncestorIdsOwn (tree : LanhuTree) (id : string) : option (list string) :=
  ancestorsLoopOwn (S (List.length (parentById tree))) tree id [].

(** [tree.childrenById[id] ?? []] *)
Definition childrenOfOwn (tree : LanhuTree) (id : string) : list string :=
  match lookup id (childrenById tree) with
  | Some childIds => childIds
  | None => []
  end.

(** The loop of [getDescendantIds]; [None] means that the fuel ran out
    before the queue was empty. *)
Fixpoint descendantsLoopOwn (fuel : nat) (tree : LanhuTree) (queue result : list string)
  : option (list string) :=
  match queue with
  | [] => Some result
  | id :: rest =>
      match fuel with
      | O => None
      | S fuel' =>
          let (queue', result') :=
            fold_left enqueueChild (childrenOfOwn tree id) (rest, result) in
          descendantsLoopOwn fuel' tree queue' result'
      end
  end.

Definition getDescendantIdsOwn (fuel : nat) (tree : LanhuTree) (rootId : string)
    (includeSelf : bool) : option (list string) :=
  descendantsLoopOwn fuel tree [rootId] (if includeSelf then [rootId] else []).

(** One step of the [while] of [getTreePreorderIds]. *)
Definition preorderStepOwn (tree : LanhuTree) (included : list string)
    (top : string * Z) (rest : list (string * Z)) (result : list string)
  : list (string * Z) * list string :=
  let (id, idx) := top in
  let entered := (idx =? -1)%Z in
  let idx := if entered then 0%Z else idx in
  let result := if entered && Set_has included id then result ++ [id] else result in
  let children :=
    match lookup id (childrenById tree) with
    | Some c => c
    | None => []
    end in
  if (Z.of_nat (List.length children) <=? idx)%Z then (rest, result)
  else ((at_index children idx "", (-1)%Z) :: (id, (idx + 1)%Z) :: rest, result).

Fixpoint preorderLoopOwn (fuel : nat) (tree : LanhuTree) (included : list string)
    (stack : list (string * Z)) (result : list string) : option (list string) :=
  match stack with
  | [] => Some result
  | top :: rest =>
      match fuel with
      | O => None
      | S fuel' =>
          let (stack', result') := preorderStepOwn tree included top rest result in
          preorderLoopOwn fuel' tree included stack' result'
      end
  end.

Definition getTreePreorderIdsOwn (fuel : nat) (tree : LanhuTree) (included : list string)
  : option (list string) :=
  preorderLoopOwn fuel tree included (map (fun rootId => (rootId, (-1)%Z)) (rootIds tree)) [].

(** [ids.map((id) => pickExportNode(tree.nodesById[id]))]; [None] when some
    id has no node. *)
Fixpoint exportNodesOwn (tree : LanhuTree) (ids : list string) : option (list value) :=
  match ids with
  | [] => Some []
  | id :: rest =>
      match lookup id (nodesById tree), exportNodesOwn tree rest with
      | Some node, Some nodes => Some (pickExportNode node :: nodes)
      | _, _ => None
      end
  end.

(** [tree.parentById[id] ?? null] as a value. *)
Definition parentValueOwn (tree : LanhuTree) (id : string) : value :=
  match lookup id (parentById tree) with
  | Some (Some parentId) => VString parentId
  | Some None | None => VNull
  end.

(** The second half of [exportVisuallyContained], from [included] on. *)
Definition exportIncludedOwn (fuel : nat) (tree : LanhuTree) (selectedId : string)
    (compactExport : bool) (included : list string) : ExportOutcome :=
  match getTreePreorderIdsOwn fuel tree included with
  | None => ExportOutOfFuel
  | Some ids =>
      match exportNodesOwn tree ids with
      | None => ExportThrows
      | Some nodes =>
          let parentById :=
            fold_left (fun (acc : JsRecord value) id => assign id (parentValueOwn tree id) acc)
                      ids [] in
          let payload :=
            VObject [ ("selectedId", VString selectedId);
                      ("count", count_value (List.length nodes));
                      ("parentById", VObject parentById);
                      ("nodes", VArray nodes) ] in
          ExportText (if compactExport then compactJson payload ?? payload else payload)
      end
  end.

(** [exportVisuallyContained] *)
Definition exportVisuallyContainedOwn (fuel : nat) (tree : option LanhuTree)
    (selectedId : option string) (compactExport : bool) : ExportOutcome :=
  match tree, selectedId with
  | Some tree, Some selectedId =>
      if nonEmpty selectedId then
        match lookup selectedId (nodesById tree) with
        | None => ExportThrows                        (* getNodeRect(undefined) *)
        | Some container =>
            match getNodeRect container with
            | None => NoExport
            | Some containerRect =>
                exportIncludedOwn fuel tree selectedId compactExport
                  (containedIds (rectIndexAll tree) containerRect selectedId)
            end
        end
      else NoExport
  | _, _ => NoExport
  end.

(** What the two export handlers do with the list [ids]. *)
Definition exportIdsOwn (tree : LanhuTree) (selectedId : string) (compactExport : bool)
    (ids : list string) : ExportOutcome :=
  match exportNodesOwn tree ids with
  | None => ExportThrows
  | Some nodes =>
      let parentById :=
        fold_left (fun (acc : JsRecord value) id => assign id (parentValueOwn tree id) acc)
                  ids [] in
      let payload :=
        VObject [ ("selectedId", VString selectedId);
                  ("count", count_value (List.length nodes));
                  ("parentById", VObject parentById);
                  ("nodes", VArray nodes) ] in
      ExportText (if compactExport then compactJson payload ?? payload else payload)
  end.

(** [exportSelectedDescendants] *)
Definition exportSelectedDescendantsOwn (fuel : nat) (tree : option LanhuTree)
    (selectedId : option string) (compactExport : bool) : ExportOutcome :=
  match tree, selectedId with
  | Some tree, Some selectedId =>
      if nonEmpty selectedId then
        match getDescendantIdsOwn fuel tree selectedId true with
        | None => ExportOutOfFuel
        | Some ids => exportIdsOwn tree selectedId compactExport ids
        end
      else NoExport
  | _, _ => NoExport
  end.

(* ===================================================================== *)
(** * 5. Predicates the statements use *)
(* ===================================================================== *)

Definition isScalar (v : value) : bool :=
  match v with
  | VBool _ | VNumber _ | VString _ => true
  | _ => false
  end.

Definition isEmpty {A : Type} (l : list A) : bool :=
  match l with
  | [] => true
  | _ :: _ => false
  end.

(** A value without [null] or [undefined] and without an empty array or
    object, at any depth. *)
Fixpoint compacted (v : value) : bool :=
  match v with
  | VUndefined | VNull => false
  | VBool _ | VNumber _ | VString _ => true
  | VArray items => negb (isEmpty items) && forallb compacted items
  | VObject fields =>
      negb (isEmpty fields) && forallb (fun kv => compacted (snd kv)) fields
  end.

(** [compactJson] on the value of every field. *)
Definition compactFields (fields : JsRecord value) : JsRecord value :=
  map (fun kv => (fst kv, compactJson (snd kv))) fields.

(** The bindings an object keeps under [compactJson]: those whose
    compacted value is defined and whose key is not [__proto__], in the
    order of [Object.entries]. *)
Definition keepsField (kcv : string * value) : bool :=
  isDefined (snd kcv) && negb (String.eqb (fst kcv) "__proto__").

Definition keptFields (fields : JsRecord value) : JsRecord value :=
  filter keepsField (compactFields (Object_entries fields)).

(** The body of the loop of the object branch of [compactJson]. *)
Definition compactStep (next : JsRecord value) (kcv : string * value) : JsRecord value :=
  if isDefined (snd kcv) then write (fst kcv) (snd kcv) next else next.

(** The keys of the record [pickExportNode] builds. *)
Definition exportKeys : list string :=
  [ "id"; "name"; "type"; "frame"; "realFrame"; "combinedFrame"; "transform";
    "opacity"; "visible"; "rotation"; "clipped"; "isMask"; "origin"; "radius";
    "style"; "paths"; "text"; "image"; "sharedStyle" ].

(** The rectangle a candidate value stands for: all four fields finite
    numbers, or nothing. *)
Definition rectOfValue (frame : value) : option LanhuRect :=
  match get frame "left", get frame "top", get frame "width", get frame "height" with
  | VNumber l, VNumber t, VNumber w, VNumber h =>
      if Number_isFinite l && Number_isFinite t && Number_isFinite w && Number_isFinite h
      then Some (mkRect l t w h) else None
  | _, _, _, _ => None
  end.

(** The first of [frame], [realFrame], [combinedFrame] that is present
    (neither [undefined] nor [null]). *)
Definition firstPresentFrame (node : LanhuLayerNode) : option value :=
  if negb (nullish (prop node "frame")) then Some (prop node "frame")
  else if negb (nullish (prop node "realFrame")) then Some (prop node "realFrame")
  else if negb (nullish (prop node "combinedFrame")) then Some (prop node "combinedFrame")
  else None.

(** ** What the traversal registers

    [idsBelow node] lists, in document order, the ids of the nodes reached
    from [node] through nodes that are themselves registered: a queued
    element that is not an object, or has no id, or has the empty id,
    contributes nothing, whatever lies below it. *)
Fixpoint idsBelow (node : LanhuLayerNode) : list string :=
  match node with
  | Layer _ (Some elems) _ =>
      flat_map
        (fun elem =>
           match elem with
           | Some child =>
               match node_id child with
               | Some id => if nonEmpty id then id :: idsBelow child else []
               | None => []
               end
           | None => []
           end) elems
  | Layer _ None _ => []
  end.

Definition idsOfElem (elem : option LanhuLayerNode) : list string :=
  match elem with
  | Some child =>
      match node_id child with
      | Some id => if nonEmpty id then id :: idsBelow child else []
      | None => []
      end
  | None => []
  end.

Definition idsOfElems (elems : list (option LanhuLayerNode)) : list string :=
  flat_map idsOfElem elems.

(** The ids of the nodes of a document that the traversal registers. *)
Definition registeredIds (sketchJson : LanhuSketchJson) : list string :=
  idsOfElem (artboard sketchJson).

(** The ids that wait on the work stack. *)
Definition stackIds (stack : list StackEntry) : list string :=
  flat_map (fun entry => idsOfElems (snd entry)) stack.

(** The stack entries a queued element will cause. *)
Definition workOfElem (elem : option LanhuLayerNode) : nat :=
  match elem with
  | Some child => if registrable child then pushCount child else 0
  | None => 0
  end.

Definition workOfElems (elems : list (option LanhuLayerNode)) : nat :=
  list_sum (map workOfElem elems).

(** The iterations of the [while] that a stack still needs. *)
Definition stackWork (stack : list StackEntry) : nat :=
  list_sum (map (fun entry => S (workOfElems (snd entry))) stack).

(** ** The parent relation of a tree *)

(** [parentById[child]] is the id [parent]. *)
Definition isParent (tree : LanhuTree) (child parent : string) : Prop :=
  lookup child (parentById tree) = Some (Some parent).

(** [ancestor] is reached from [id] by one or more parent steps. *)
Definition isAncestor (tree : LanhuTree) (id ancestor : string) : Prop :=
  clos_trans string (isParent tree) id ancestor.

(** The forest invariant: no id is its own ancestor. *)
Definition acyclic (tree : LanhuTree) : Prop :=
  forall id, ~ isAncestor tree id id.

(** Referential integrity: every id that occurs in [childrenById],
    [parentById] or [rootIds], as a key or as a value, is a key of
    [nodesById]. *)
Definition referentialIntegrity (tree : LanhuTree) : Prop :=
  (forall p l, lookup p (childrenById tree) = Some l ->
               In p (keys (nodesById tree)) /\
               forall c, In c l -> In c (keys (nodesById tree))) /\
  (forall c, In c (keys (parentById tree)) -> In c (keys (nodesById tree))) /\
  (forall c p, isParent tree c p -> In p (keys (nodesById tree))) /\
  (forall r, In r (rootIds tree) -> In r (keys (nodesById tree))).

(** The position of the first occurrence of [x] in [l]. *)
Fixpoint position (l : list string) (x : string) : nat :=
  match l with
  | [] => 0
  | y :: rest => if String.eqb x y then 0 else S (position rest x)
  end.

(** The parent the walk of [getAncestorIds] steps to: none at [null],
    [undefined] and the empty string. *)
Definition parentOf (tree : LanhuTree) (id : string) : option string :=
  match lookup id (parentById tree) with
  | Some (Some parentId) => if nonEmpty parentId then Some parentId else None
  | Some None | None => None
  end.

(** [chain] is the list of the ancestors of [id], the nearest first: each
    entry is the parent of the one before it and the last has no parent. *)
Inductive ancestorChain (tree : LanhuTree) : string -> list string -> Prop :=
| chain_top : forall id, parentOf tree id = None -> ancestorChain tree id []
| chain_step : forall id parent chain,
    parentOf tree id = Some parent ->
    ancestorChain tree parent chain ->
    ancestorChain tree id (parent :: chain).

(** ** Invariants of the loop of [parseLanhuTree]

    [registered] is the list of the ids the whole run registers, [pending]
    the ids that are still to come: those of the elements of the current
    frame that remain to be visited and those that wait on the stack. *)
Record BuildInv (registered : list string) (st : BuildState) (pending : list string)
  : Prop := mkBuildInv {
  inv_keys : keys (b_parentById st) = keys (b_nodesById st);
  inv_nodup : NoDup (keys (b_nodesById st));
  inv_truthy : forall k, In k (keys (b_nodesById st)) -> nonEmpty k = true;
  inv_node_id : forall k n, lookup k (b_nodesById st) = Some n -> node_id n = Some k;
  inv_children : forall p l,
      lookup p (b_childrenById st) = Some l ->
      In p (keys (b_nodesById st)) /\ forall c, In c l -> In c (keys (b_nodesById st));
  inv_parents : forall c p,
      lookup c (b_parentById st) = Some (Some p) -> In p (keys (b_nodesById st));
  inv_stack : forall p ns, In (p, ns) (b_stack st) -> In p (keys (b_nodesById st));
  inv_ids : forall id, In id (keys (b_nodesById st)) \/ In id pending <-> In id registered
}.

(** What holds in addition when no id is registered twice: every parent was
    registered before its child. *)
Record DistinctInv (registered : list string) (st : BuildState) (pending : list string)
  : Prop := mkDistinctInv {
  inv_perm : Permutation (keys (b_nodesById st) ++ pending) registered;
  inv_rank : forall c p,
      lookup c (b_parentById st) = Some (Some p) ->
      position (keys (b_parentById st)) p < position (keys (b_parentById st)) c
}.

(** A queued element that the loop skips: not an object, or without a
    non-empty id. *)
Definition skipped (elem : option LanhuLayerNode) : bool :=
  match elem with
  | Some node => negb (registrable node)
  | None => true
  end.

(** The empty id occurs nowhere in a tree. *)
Definition noEmptyId (tree : LanhuTree) : Prop :=
  (forall k, In k (keys (nodesById tree)) -> k <> "") /\
  (forall k l, lookup k (childrenById tree) = Some l ->
               k <> "" /\ forall c, In c l -> c <> "") /\
  (forall k, In k (keys (parentById tree)) -> k <> "") /\
  (forall c p, isParent tree c p -> p <> "") /\
  (forall r, In r (rootIds tree) -> r <> "").

(** ** The order of the areas

    The areas of the geometry index are positive finite binary64 numbers.
    For the number [m * 2^e] with mantissa [m] and exponent [e >= -1074],
    [ord m e] is that number in units of [2^-1074], an integer. *)
Definition ord (m : positive) (e : Z) : Z := (Zpos m * 2 ^ (e + 1074))%Z.

Definition positiveSF (x : spec_float) : bool :=
  match x with
  | S754_finite false _ _ | S754_infinity false => true
  | _ => false
  end.

(** [x] is finite and above zero. *)
Definition posFinite (x : float) : Prop :=
  exists m e, Prim2SF x = S754_finite false m e.

Definition ordF (x : float) : Z :=
  match Prim2SF x with
  | S754_finite false m e => ord m e
  | _ => 0%Z
  end.

(** [a] comes before [b] in ascending order of area. *)
Definition areaLe (a b : RectItem) : Prop :=
  (item_area a <=? item_area b)%float = true.

(** The entries of the geometry index, in the order of [Object.entries]:
    one for every node whose rectangle resolves with a finite area above
    zero. *)
Definition resolvedItems (entries : list (string * LanhuLayerNode)) : list RectItem :=
  flat_map
    (fun entry =>
       match getNodeRect (snd entry) with
       | Some rect =>
           let area := (width rect * height rect)%float in
           if Number_isFinite area && (0 <? area)%float
           then [mkItem (fst entry) rect area] else []
       | None => []
       end)
    entries.

(** The entries of an index that contain the point [(x, y)]. *)
Definition hits (rectIndex : list RectItem) (x y : float) : list RectItem :=
  filter (fun item => containsPoint (item_rect item) x y) rectIndex.

(** ** Loop bodies, sample documents and other auxiliary definitions *)

(** The example of the specification: [{a: null, b: {c: undefined}, d: [1,
    null, 2]}]. *)
Definition compactExample : value :=
  VObject [ ("a", VNull);
            ("b", VObject [("c", VUndefined)]);
            ("d", VArray [VNumber 1; VNull; VNumber 2]) ].

(** The field [k] of a node as [pickExportNode] reads it. *)
Definition nodeField (node : LanhuLayerNode) (k : string) : value :=
  if String.eqb k "id" then id_value node else prop node k.

Definition fieldsOf (v : value) : JsRecord value :=
  match v with
  | VObject fields => fields
  | _ => []
  end.

(** A node without any property: [{}]. *)
Definition bareNode : LanhuLayerNode := Layer None None [].

Definition rectFields (l t w h : float) : value :=
  VObject [ ("left", VNumber l); ("top", VNumber t);
            ("width", VNumber w); ("height", VNumber h) ].

(** The state a finished run leaves, read back from the tree. *)
Definition finalState (tree : LanhuTree) : BuildState :=
  mkBuild (nodesById tree) (childrenById tree) (parentById tree) [].

(** An artboard and a layer that carry the same id. *)
Definition sameIdSketch : LanhuSketchJson :=
  mkSketch (Some (Layer (Some "A") (Some [Some (Layer (Some "A") None [])]) [])).

(** A document with five registered layers, a [null] entry and a layer
    without id. *)
Definition sampleSketch : LanhuSketchJson :=
  mkSketch
    (Some (Layer (Some "A")
       (Some [ Some (Layer (Some "B") None [("frame", rectFields 0 0 10 10)]);
               None;
               Some (Layer None (Some [Some (Layer (Some "X") None [])]) []);
               Some (Layer (Some "C")
                       (Some [Some (Layer (Some "D") None
                                      [("frame", rectFields 1 1 2 2)])])
                       [("realFrame", rectFields 0 0 100 100)]);
               Some (Layer (Some "E") None []) ])
       [("frame", rectFields 0 0 200 200)])).

(** The tree of [sameIdSketch]. *)
Definition sameIdTree : LanhuTree :=
  match parseLanhuTree sameIdSketch with
  | Returns tree => tree
  | _ => emptyTree
  end.

(** The state of the loop in the middle of a frame. *)
Definition sampleState : BuildState :=
  mkBuild [("A", Layer (Some "A") None [])] [] [("A", None)] [].

(** A layer without id that has a child with an id. *)
Definition anonymousLayer : option LanhuLayerNode :=
  Some (Layer None (Some [Some (Layer (Some "X") None [])]) []).

(** The tree of the sample document. *)
Definition sampleTree : LanhuTree :=
  match parseLanhuTree sampleSketch with
  | Returns tree => tree
  | _ => emptyTree
  end.

(** The body of the loop of [rectIndexAll]. *)
Definition indexStep (items : list RectItem) (entry : string * LanhuLayerNode)
  : list RectItem :=
  let (id, node) := entry in
  match getNodeRect node with
  | None => items
  | Some rect =>
      let area := (width rect * height rect)%float in
      if negb (Number_isFinite area) || (area <=? 0)%float then items
      else items ++ [mkItem id rect area]
  end.

(** The two nested rectangles of the specification: an outer one at
    [(0,0)] of size [100 x 100], an inner one at [(10,10)] of size [20 x
    20]. *)
Definition nestedSketch : LanhuSketchJson :=
  mkSketch
    (Some (Layer (Some "outerId")
             (Some [Some (Layer (Some "innerId") None
                            [("frame", rectFields 10 10 20 20)])])
             [("frame", rectFields 0 0 100 100)])).

Definition nestedTree : LanhuTree :=
  match parseLanhuTree nestedSketch with
  | Returns tree => tree
  | _ => emptyTree
  end.

(** The loop of [exportVisuallyContained] over the index. *)
Definition includeStep (containerRect : LanhuRect) (included : list string)
    (item : RectItem) : list string :=
  if isRectInside (item_rect item) containerRect
  then Set_add (item_id item) included
  else included.

(** ** What the builder records for a document *)

(** The elements of [node.layers] when it is an array. *)
Definition layersOf (node : LanhuLayerNode) : list (option LanhuLayerNode) :=
  match node_layers node with
  | Some elems => elems
  | None => []
  end.

(** The registered node an element of [layers] stands for, with its id. *)
Definition childOfElem (elem : option LanhuLayerNode) : list (string * LanhuLayerNode) :=
  match elem with
  | Some child =>
      match node_id child with
      | Some id => if nonEmpty id then [(id, child)] else []
      | None => []
      end
  | None => []
  end.

Definition childrenOfElems (elems : list (option LanhuLayerNode))
  : list (string * LanhuLayerNode) :=
  flat_map childOfElem elems.

(** The registered children of a node, in the order of [layers]. *)
Definition childNodes (node : LanhuLayerNode) : list (string * LanhuLayerNode) :=
  childrenOfElems (layersOf node).

Definition childIds (node : LanhuLayerNode) : list string := map fst (childNodes node).

(** The registered nodes below a node, with their ids, in document order
    (a node comes before the nodes below it, and these before its next
    sibling). *)
Fixpoint nodesBelow (node : LanhuLayerNode) : list (string * LanhuLayerNode) :=
  match node with
  | Layer _ (Some elems) _ =>
      flat_map
        (fun elem =>
           match elem with
           | Some child =>
               match node_id child with
               | Some id => if nonEmpty id then (id, child) :: nodesBelow child else []
               | None => []
               end
           | None => []
           end) elems
  | Layer _ None _ => []
  end.

Definition nodesOfElem (elem : option LanhuLayerNode) : list (string * LanhuLayerNode) :=
  match elem with
  | Some child =>
      match node_id child with
      | Some id => if nonEmpty id then (id, child) :: nodesBelow child else []
      | None => []
      end
  | None => []
  end.

Definition nodesOfElems (elems : list (option LanhuLayerNode))
  : list (string * LanhuLayerNode) :=
  flat_map nodesOfElem elems.

(** The registered nodes of a document, with their ids, in document
    order. *)
Definition registeredNodes (sketchJson : LanhuSketchJson) : list (string * LanhuLayerNode) :=
  nodesOfElem (artboard sketchJson).

(** The elements of the frame of [k] that wait to be visited. *)
Definition todoOf (frames : list StackEntry) (k : string) : list (option LanhuLayerNode) :=
  match lookup k frames with
  | Some elems => elems
  | None => []
  end.

(** The registered nodes that wait in the frames. *)
Definition pendingNodes (frames : list StackEntry) : list (string * LanhuLayerNode) :=
  flat_map (fun entry => nodesOfElems (snd entry)) frames.

(** What [childrenById] holds for a list of children: no entry when there
    is no child. *)
Definition nonEmptyList {A : Type} (l : list A) : option (list A) :=
  match l with
  | [] => None
  | _ :: _ => Some l
  end.

(** The invariant of the loop of [parseLanhuTree] on a document whose
    registered ids are pairwise different. [frames] is the frame that is
    being visited, with the elements that remain, followed by the work
    stack. *)
Record StructInv (rootId : string) (registered : list (string * LanhuLayerNode))
    (frames : list StackEntry) (st : BuildState) : Prop := mkStructInv {
  s_frames : NoDup (map fst frames);
  s_nodes : Permutation (b_nodesById st ++ pendingNodes frames) registered;
  s_children : forall k n,
      lookup k (b_nodesById st) = Some n ->
      exists visited,
        layersOf n = visited ++ todoOf frames k /\
        lookup k (b_childrenById st) = nonEmptyList (map fst (childrenOfElems visited));
  s_parents : forall p l c,
      lookup p (b_childrenById st) = Some l -> In c l ->
      lookup c (b_parentById st) = Some (Some p);
  s_children_of_parent : forall c p,
      lookup c (b_parentById st) = Some (Some p) ->
      exists l, lookup p (b_childrenById st) = Some l /\ In c l;
  s_root : lookup rootId (b_parentById st) = Some None
}.

(** ** The order of an enumeration *)

(** [k1] does not come behind [k2] when an object that has both is
    enumerated: array indices come first, in ascending order, and the
    other keys keep the order of their creation. *)
Definition enumLe (k1 k2 : string) : bool :=
  match arrayIndex k1, arrayIndex k2 with
  | Some n1, Some n2 => (n1 <=? n2)%N
  | Some _, None => true
  | None, Some _ => false
  | None, None => true
  end.

(** The keys of a record stand in the order of its enumeration. *)
Definition enumOrdered {A : Type} (o : JsRecord A) : Prop :=
  StronglySorted (fun k1 k2 => enumLe k1 k2 = true) (keys o).

(** A binding whose value [compactJson] keeps as it is. *)
Definition kept (kv : string * value) : Prop :=
  keepsField kv = true /\ compactJson (snd kv) = snd kv.

(** ** Further samples *)

(** The layer ["C"] of the sample document and its rectangle. *)
Definition sampleC : LanhuLayerNode :=
  Layer (Some "C")
        (Some [Some (Layer (Some "D") None [("frame", rectFields 1 1 2 2)])])
        [("realFrame", rectFields 0 0 100 100)].

Definition sampleCRect : LanhuRect := mkRect 0 0 100 100.

(** The visible index of the sample document when nothing is hidden. *)
Definition sampleIndex : list RectItem := rectIndexVisible (rectIndexAll sampleTree) [].

(** The ids in the child lists of [childrenById], list after list. *)
Definition allChildren (children : JsRecord (list string)) : list string :=
  List.concat (map snd children).

(** ** Ids that name members of [Object.prototype] *)

(** None of the ids names a member of [Object.prototype]. *)
Definition plainIds (ids : list string) : bool :=
  forallb (fun id => negb (protoName id)) ids.

(** No registered id of the document names a member of
    [Object.prototype]. *)
Definition safeIds (sketchJson : LanhuSketchJson) : bool :=
  plainIds (registeredIds sketchJson).

(** The read of a parent id that [parentById] stores never reaches
    [Object.prototype]: the parent is a key of [parentById] or names no
    member of the prototype. *)
Definition plainParents (tree : LanhuTree) : Prop :=
  forall child parent,
    isParent tree child parent -> read parent (parentById tree) <> Inherited.

(** The read of an id that stands in a child list never reaches
    [Object.prototype]. *)
Definition plainChildren (tree : LanhuTree) : Prop :=
  forall parent l child,
    lookup parent (childrenById tree) = Some l -> In child l ->
    read child (childrenById tree) <> Inherited.

(** The parent of [id] as the payload of an export has it: the parent id,
    or [null] for a root and for an id without entry. *)
Definition parentJson (tree : LanhuTree) (id : string) : value :=
  match lookup id (parentById tree) with
  | Some (Some parentId) => VString parentId
  | Some None | None => VNull
  end.

(** An artboard whose id names a member of [Object.prototype], with one
    layer. *)
Definition protoParentSketch : LanhuSketchJson :=
  mkSketch (Some (Layer (Some "constructor") (Some [Some (Layer (Some "B") None [])]) [])).

(** An artboard with two layers without layers of their own; the id of the
    first names a member of [Object.prototype]. *)
Definition protoLeafSketch : LanhuSketchJson :=
  mkSketch
    (Some (Layer (Some "R")
             (Some [ Some (Layer (Some "constructor") None []);
                     Some (Layer (Some "B") None []) ])
             [])).

Definition protoLeafTree : LanhuTree :=
  match parseLanhuTree protoLeafSketch with
  | Returns tree => tree
  | _ => emptyTree
  end.

(** An artboard with a layer whose id is [__proto__]. *)
Definition protoKeySketch : LanhuSketchJson :=
  mkSketch (Some (Layer (Some "R") (Some [Some (Layer (Some "__proto__") None [])]) [])).

(** An object with an own key [__proto__], as [JSON.parse] gives it for
    [{"a": 1, "__proto__": 2}]. *)
Definition protoFieldExample : value :=
  VObject [("a", VNumber 1); ("__proto__", VNumber 2)].

(* ===================================================================== *)
(** * 6. Records *)
(* ===================================================================== *)

Section RecordFacts.
Context {A : Type}.
Implicit Types (o : JsRecord A) (k : string) (v : A).

Lemma lookup_assign_eq o k v : lookup k (assign k v o) = Some v.
Proof.
  induction o as [|[k' v'] o IH]; simpl.
  - now rewrite String.eqb_refl.
  - destruct (String.eqb k k') eqn:E; simpl; rewrite E; auto.
Qed.

Lemma lookup_assign_neq o k k' v :
  k' <> k -> lookup k' (assign k v o) = lookup k' o.
Proof.
  intros Hne. induction o as [|[k0 v0] o IH]; simpl.
  - apply String.eqb_neq in Hne. now rewrite Hne.
  - destruct (String.eqb k k0) eqn:E; simpl.
    + apply String.eqb_eq in E. subst k0.
      apply String.eqb_neq in Hne. now rewrite Hne.
    + now rewrite IH.
Qed.

Lemma lookup_Some_In o k v : lookup k o = Some v -> In (k, v) o.
Proof.
  induction o as [|[k' v'] o IH]; simpl; [discriminate|].
  destruct (String.eqb k k') eqn:E.
  - apply String.eqb_eq in E. intros [= ->]. subst. now left.
  - intros H. right. auto.
Qed.

Lemma lookup_Some_key o k v : lookup k o = Some v -> In k (keys o).
Proof.
  intros H. apply lookup_Some_In in H. apply (in_map fst) in H. exact H.
Qed.

Lemma lookup_None_iff o k : lookup k o = None <-> ~ In k (keys o).
Proof.
  induction o as [|[k' v'] o IH]; simpl.
  - tauto.
  - destruct (String.eqb k k') eqn:E.
    + apply String.eqb_eq in E. subst. split; [discriminate | intros H; exfalso; auto].
    + apply String.eqb_neq in E. rewrite IH. split.
      * intros H [H1|H1]; [congruence | auto].
      * intros H H1. auto.
Qed.

Lemma assign_fresh o k v : ~ In k (keys o) -> assign k v o = o ++ [(k, v)].
Proof.
  induction o as [|[k' v'] o IH]; simpl; intros H; [reflexivity|].
  destruct (String.eqb k k') eqn:E.
  - apply String.eqb_eq in E. subst. exfalso. auto.
  - rewrite IH; auto.
Qed.

Lemma keys_assign_fresh o k v : ~ In k (keys o) -> keys (assign k v o) = keys o ++ [k].
Proof.
  intros H. rewrite assign_fresh by assumption. unfold keys. now rewrite map_app.
Qed.

Lemma keys_assign_present o k v : In k (keys o) -> keys (assign k v o) = keys o.
Proof.
  induction o as [|[k' v'] o IH]; simpl; intros H; [contradiction|].
  destruct (String.eqb k k') eqn:E; simpl; [reflexivity|].
  apply String.eqb_neq in E. destruct H as [H|H]; [congruence|].
  now rewrite IH.
Qed.

Lemma in_keys_assign o k k' v : In k' (keys (assign k v o)) <-> k' = k \/ In k' (keys o).
Proof.
  destruct (in_dec string_dec k (keys o)) as [Hin|Hout].
  - rewrite keys_assign_present by assumption. split; [auto|].
    intros [->|H]; auto.
  - rewrite keys_assign_fresh by assumption. rewrite in_app_iff. simpl.
    split; intros H; intuition auto.
Qed.

Lemma NoDup_keys_assign o k v : NoDup (keys o) -> NoDup (keys (assign k v o)).
Proof.
  intros H. destruct (in_dec string_dec k (keys o)) as [Hin|Hout].
  - now rewrite keys_assign_present.
  - rewrite keys_assign_fresh by assumption.
    apply NoDup_app; [exact H | repeat constructor; simpl; tauto |].
    intros x Hx [Hk|[]]. subst. contradiction.
Qed.

Lemma In_assign o k v k' v' :
  In (k', v') (assign k v o) -> (k' = k /\ v' = v) \/ In (k', v') o.
Proof.
  induction o as [|[k0 v0] o IH]; simpl.
  - intros [[= <- <-]|[]]. now left.
  - destruct (String.eqb k k0) eqn:E; simpl.
    + apply String.eqb_eq in E. subst k0.
      intros [[= <- <-]|H]; [now left | right; now right].
    + intros [H|H]; [right; now left|].
      destruct (IH H) as [H1|H1]; [now left | right; now right].
Qed.

Lemma Forall_assign (P : string * A -> Prop) o k v :
  Forall P o -> P (k, v) -> Forall P (assign k v o).
Proof.
  intros Ho Hv. apply Forall_forall. intros [k' v'] Hin.
  apply In_assign in Hin. destruct Hin as [[-> ->]|Hin]; [assumption|].
  rewrite Forall_forall in Ho. auto.
Qed.
End RecordFacts.

(** ** The enumeration order of [Object.entries] *)

Lemma insertByIndex_perm {A : Type} (kv : string * A) l :
  Permutation (insertByIndex kv l) (kv :: l).
Proof.
  induction l as [|kv' l IH]; simpl; [apply Permutation_refl|].
  destruct (indexValue (fst kv) <=? indexValue (fst kv'))%N; [apply Permutation_refl|].
  rewrite IH. apply perm_swap.
Qed.

Lemma sortByIndex_perm {A : Type} (l : list (string * A)) :
  Permutation (sortByIndex l) l.
Proof.
  induction l as [|kv l IH]; simpl; [constructor|].
  rewrite insertByIndex_perm. now constructor.
Qed.

Lemma filter_partition_perm {A : Type} (f : A -> bool) (l : list A) :
  Permutation (filter f l ++ filter (fun x => negb (f x)) l) l.
Proof.
  induction l as [|x l IH]; simpl; [constructor|].
  destruct (f x); simpl.
  - now constructor.
  - rewrite <- Permutation_middle. now constructor.
Qed.

Lemma Object_entries_perm {A : Type} (o : JsRecord A) :
  Permutation (Object_entries o) o.
Proof.
  unfold Object_entries. rewrite sortByIndex_perm.
  apply (filter_partition_perm (fun kv => isArrayIndex (fst kv))).
Qed.

Lemma Object_entries_In {A : Type} (o : JsRecord A) kv :
  In kv (Object_entries o) <-> In kv o.
Proof.
  split; apply Permutation_in;
    [apply Object_entries_perm | apply Permutation_sym, Object_entries_perm].
Qed.

Lemma Object_entries_keys_perm {A : Type} (o : JsRecord A) :
  Permutation (keys (Object_entries o)) (keys o).
Proof. unfold keys. apply Permutation_map, Object_entries_perm. Qed.

Lemma insertByIndex_map {A B : Type} (f : A -> B) (kv : string * A) l :
  insertByIndex (fst kv, f (snd kv)) (map (fun kv => (fst kv, f (snd kv))) l)
  = map (fun kv => (fst kv, f (snd kv))) (insertByIndex kv l).
Proof.
  induction l as [|kv' l IH]; simpl; [reflexivity|].
  destruct (indexValue (fst kv) <=? indexValue (fst kv'))%N; simpl; [reflexivity|].
  now rewrite IH.
Qed.

Lemma sortByIndex_map {A B : Type} (f : A -> B) (l : list (string * A)) :
  sortByIndex (map (fun kv => (fst kv, f (snd kv))) l)
  = map (fun kv => (fst kv, f (snd kv))) (sortByIndex l).
Proof.
  induction l as [|kv l IH]; simpl; [reflexivity|].
  rewrite IH. apply insertByIndex_map.
Qed.

Lemma filter_key_map {A B : Type} (f : A -> B) (g : string -> bool)
    (l : list (string * A)) :
  filter (fun kv => g (fst kv)) (map (fun kv => (fst kv, f (snd kv))) l)
  = map (fun kv => (fst kv, f (snd kv))) (filter (fun kv => g (fst kv)) l).
Proof.
  induction l as [|kv l IH]; simpl; [reflexivity|].
  destruct (g (fst kv)); simpl; now rewrite IH.
Qed.

Lemma Object_entries_map {A B : Type} (f : A -> B) (o : JsRecord A) :
  Object_entries (map (fun kv => (fst kv, f (snd kv))) o)
  = map (fun kv => (fst kv, f (snd kv))) (Object_entries o).
Proof.
  unfold Object_entries. rewrite map_app.
  rewrite (filter_key_map f isArrayIndex).
  rewrite (filter_key_map f (fun k => negb (isArrayIndex k))).
  now rewrite sortByIndex_map.
Qed.

(* ===================================================================== *)
(** * 7. Export shaping: [compactJson], [pickExportNode] *)
(* ===================================================================== *)

(** Induction on a JSON value, with the hypothesis for every item of an
    array and every field of an object. *)
Section ValueInduction.
Variable P : value -> Prop.
Hypothesis Hundefined : P VUndefined.
Hypothesis Hnull : P VNull.
Hypothesis Hbool : forall b, P (VBool b).
Hypothesis Hnumber : forall n, P (VNumber n).
Hypothesis Hstring : forall s, P (VString s).
Hypothesis Harray : forall items, Forall P items -> P (VArray items).
Hypothesis Hobject :
  forall fields, Forall (fun kv => P (snd kv)) fields -> P (VObject fields).

Fixpoint value_nested_ind (v : value) : P v :=
  match v with
  | VUndefined => Hundefined
  | VNull => Hnull
  | VBool b => Hbool b
  | VNumber n => Hnumber n
  | VString s => Hstring s
  | VArray items =>
      Harray items
        ((fix each (l : list value) : Forall P l :=
            match l with
            | [] => Forall_nil P
            | x :: rest => Forall_cons x (value_nested_ind x) (each rest)
            end) items)
  | VObject fields =>
      Hobject fields
        ((fix each (l : JsRecord value) : Forall (fun kv => P (snd kv)) l :=
            match l with
            | [] => Forall_nil _
            | kv :: rest => Forall_cons kv (value_nested_ind (snd kv)) (each rest)
            end) fields)
  end.
End ValueInduction.

Lemma compactJson_object fields :
  compactJson (VObject fields) =
  match fold_left compactStep (Object_entries (compactFields fields)) [] with
  | [] => VUndefined
  | kv :: rest => VObject (kv :: rest)
  end.
Proof.
  simpl.
  change (fun (next : JsRecord value) (kcv : string * value) =>
            if isDefined (snd kcv) then write (fst kcv) (snd kcv) next else next)
    with compactStep.
  change (map (fun kv : string * value => (fst kv, compactJson (snd kv))) fields)
    with (compactFields fields).
  destruct (fold_left compactStep (Object_entries (compactFields fields)) []);
    reflexivity.
Qed.

Lemma compactJson_array items :
  compactJson (VArray items) =
  match filter isDefined (map compactJson items) with
  | [] => VUndefined
  | x :: rest => VArray (x :: rest)
  end.
Proof. simpl. destruct (filter isDefined (map compactJson items)); reflexivity. Qed.

Lemma Object_entries_compactFields fields :
  Object_entries (compactFields fields) = compactFields (Object_entries fields).
Proof. apply Object_entries_map. Qed.

Lemma keys_compactFields fields : keys (compactFields fields) = keys fields.
Proof.
  unfold keys, compactFields. rewrite map_map. reflexivity.
Qed.

Lemma fold_compactStep_fresh entries :
  forall next,
    NoDup (keys entries) ->
    (forall k, In k (keys next) -> ~ In k (keys entries)) ->
    fold_left compactStep entries next = next ++ filter keepsField entries.
Proof.
  induction entries as [|[k cv] entries IH]; intros next Hnd Hdisj.
  - simpl. now rewrite app_nil_r.
  - simpl in Hnd. inversion Hnd as [|? ? Hk Hnd']; subst.
    simpl. unfold compactStep at 2, keepsField at 1, write. simpl.
    destruct (isDefined cv) eqn:E; simpl.
    + destruct (String.eqb k "__proto__") eqn:Ek; simpl.
      * rewrite IH; auto.
        intros k' Hin Hin'. apply (Hdisj k' Hin). now right.
      * rewrite assign_fresh.
        2:{ intros Hin. apply (Hdisj k Hin). now left. }
        rewrite IH; auto.
        -- now rewrite <- app_assoc.
        -- intros k' Hin. unfold keys in Hin. rewrite map_app, in_app_iff in Hin.
           destruct Hin as [Hin|[<-|[]]]; [|assumption].
           intros Hin'. apply (Hdisj k' Hin). now right.
    + rewrite IH; auto.
      intros k' Hin Hin'. apply (Hdisj k' Hin). now right.
Qed.

Lemma fold_compactStep_compacted entries :
  Forall (fun kcv => snd kcv = VUndefined \/ compacted (snd kcv) = true) entries ->
  forall next,
    Forall (fun kv => compacted (snd kv) = true) next ->
    Forall (fun kv => compacted (snd kv) = true) (fold_left compactStep entries next).
Proof.
  induction 1 as [|[k cv] entries Hv _ IH]; intros next Hnext; simpl; [assumption|].
  apply IH. unfold compactStep, write. simpl in *.
  destruct (isDefined cv) eqn:E; [|assumption].
  destruct (String.eqb k "__proto__"); [assumption|].
  apply Forall_assign; [assumption|]. simpl.
  destruct Hv as [Hv|Hv]; [|assumption]. rewrite Hv in E. discriminate.
Qed.

Lemma compactJson_compacted v :
  compactJson v = VUndefined \/ compacted (compactJson v) = true.
Proof.
  induction v as [| |b|n|s|items IH|fields IH] using value_nested_ind;
    try (simpl; auto; fail).
  - rewrite compactJson_array.
    destruct (filter isDefined (map compactJson items)) as [|x rest] eqn:E; [now left|].
    right. rewrite <- E.
    assert (Hall : forall y, In y (filter isDefined (map compactJson items)) ->
                             compacted y = true).
    { intros y Hy. apply filter_In in Hy. destruct Hy as [Hy Hdef].
      apply in_map_iff in Hy. destruct Hy as [x0 [<- Hx0]].
      rewrite Forall_forall in IH. destruct (IH x0 Hx0) as [H|H]; [|assumption].
      rewrite H in Hdef. discriminate. }
    rewrite E in *. simpl. rewrite (Hall x (or_introl eq_refl)). simpl.
    apply forallb_forall. intros y Hy. apply Hall. now right.
  - rewrite compactJson_object.
    assert (Hentries : Forall (fun kcv => snd kcv = VUndefined
                                          \/ compacted (snd kcv) = true)
                              (Object_entries (compactFields fields))).
    { apply Forall_forall. intros kcv Hin.
      apply (proj1 (Object_entries_In _ _)) in Hin.
      unfold compactFields in Hin. apply in_map_iff in Hin.
      destruct Hin as (kv & <- & Hkv). simpl.
      rewrite Forall_forall in IH. now apply IH. }
    pose proof (fold_compactStep_compacted _ Hentries [] (Forall_nil _)) as Hall.
    destruct (fold_left compactStep (Object_entries (compactFields fields)) [])
      as [|kv rest] eqn:E; [now left|].
    right. rewrite Forall_forall in Hall. simpl.
    rewrite (Hall kv (or_introl eq_refl)). simpl.
    apply forallb_forall. intros y Hy. apply Hall. now right.
Qed.




(** C8, as stated, fails: on a node without [id] the exported [id] is
    [undefined], not [null]. *)
Lemma pickExportNode_id_not_defaulted :
  ~ (forall node k,
        In k exportKeys ->
        nodeField node k = VUndefined ->
        get (pickExportNode node) k = VNull).
Proof.
  intros H. specialize (H bareNode "id" (or_introl eq_refl) eq_refl).
  discriminate H.
Qed.

(* ===================================================================== *)
(** * 8. Rectangle resolution: [getNodeRect] *)
(* ===================================================================== *)

Lemma accept_rectOfValue frame :
  (if truthy frame
      && isFiniteNumber (get frame "left")
      && isFiniteNumber (get frame "top")
      && isFiniteNumber (get frame "width")
      && isFiniteNumber (get frame "height")
   then Some (mkRect (number_of (get frame "left")) (number_of (get frame "top"))
                     (number_of (get frame "width")) (number_of (get frame "height")))
   else None) = rectOfValue frame.
Proof.
  unfold rectOfValue.
  destruct frame as [| |b|n|s|items|fields];
    try (simpl; rewrite ?andb_false_r; reflexivity).
  change (truthy (VObject fields)) with true. cbv beta iota. rewrite andb_true_l.
  destruct (get (VObject fields) "left") as [| | |l| | |];
    try (simpl; reflexivity).
  destruct (get (VObject fields) "top") as [| | |t| | |];
    try (simpl; rewrite ?andb_false_r; reflexivity).
  destruct (get (VObject fields) "width") as [| | |w| | |];
    try (simpl; rewrite ?andb_false_r; reflexivity).
  destruct (get (VObject fields) "height") as [| | |h| | |];
    simpl; rewrite ?andb_false_r; reflexivity.
Qed.

Lemma coalesce_firstPresent node :
  prop node "frame" ?? prop node "realFrame" ?? prop node "combinedFrame" ?? VNull =
  match firstPresentFrame node with
  | Some frame => frame
  | None => VNull
  end.
Proof.
  unfold firstPresentFrame, coalesce.
  destruct (nullish (prop node "frame")) eqn:E1; simpl.
  - destruct (nullish (prop node "realFrame")) eqn:E2; simpl.
    + destruct (nullish (prop node "combinedFrame")) eqn:E3; reflexivity.
    + now rewrite E2.
  - now rewrite E1, E1.
Qed.

(** C3. [getNodeRect] takes the first of [frame], [realFrame] and
    [combinedFrame] that is present and answers with the rectangle of that
    candidate alone: its four fields when they are all finite numbers, and
    nothing otherwise, whatever the later candidates hold. With [frame =
    {0,0,10,10}] and [realFrame = {5,5,20,20}] the answer is [{0,0,10,10}];
    with a [frame] that lacks three fields the answer is nothing, although
    [realFrame] is complete. *)
Theorem getNodeRect_first_present_only :
  (forall node,
      getNodeRect node =
      match firstPresentFrame node with
      | Some frame => rectOfValue frame
      | None => None
      end) /\
  (forall node,
      firstPresentFrame node =
      if negb (nullish (prop node "frame")) then Some (prop node "frame")
      else if negb (nullish (prop node "realFrame")) then Some (prop node "realFrame")
      else if negb (nullish (prop node "combinedFrame"))
           then Some (prop node "combinedFrame")
      else None) /\
  (forall frame rect,
      rectOfValue frame = Some rect <->
      exists l t w h,
        get frame "left" = VNumber l /\ get frame "top" = VNumber t /\
        get frame "width" = VNumber w /\ get frame "height" = VNumber h /\
        Number_isFinite l = true /\ Number_isFinite t = true /\
        Number_isFinite w = true /\ Number_isFinite h = true /\
        rect = mkRect l t w h) /\
  getNodeRect (Layer None None [ ("frame", rectFields 0 0 10 10);
                                 ("realFrame", rectFields 5 5 20 20) ])
  = Some (mkRect 0 0 10 10) /\
  getNodeRect (Layer None None [ ("frame", VObject [("left", VNumber 0)]);
                                 ("realFrame", rectFields 5 5 20 20) ])
  = None.
Proof.
  split; [|split; [|split; [|split]]]; try reflexivity.
  - intros node. unfold getNodeRect. cbv zeta.
    rewrite accept_rectOfValue, coalesce_firstPresent.
    destruct (firstPresentFrame node); reflexivity.
  - intros frame rect. unfold rectOfValue. split.
    + destruct (get frame "left") as [| | |l| | |]; try discriminate.
      destruct (get frame "top") as [| | |t| | |]; try discriminate.
      destruct (get frame "width") as [| | |w| | |]; try discriminate.
      destruct (get frame "height") as [| | |h| | |]; try discriminate.
      destruct (Number_isFinite l) eqn:El; try discriminate.
      destruct (Number_isFinite t) eqn:Et; try discriminate.
      destruct (Number_isFinite w) eqn:Ew; try discriminate.
      destruct (Number_isFinite h) eqn:Eh; try discriminate.
      simpl. intros [= <-]. exists l, t, w, h. repeat split; assumption || reflexivity.
    + intros (l & t & w & h & -> & -> & -> & -> & -> & -> & -> & -> & ->).
      reflexivity.
Qed.

(* ===================================================================== *)
(** * 9. The tree builder: [parseLanhuTreeOwn] *)
(* ===================================================================== *)

(** ** The loop ends *)

Lemma stackWork_pushLayers id layers stack :
  stackWork (pushLayers id layers stack) =
  pushCount (Layer (Some id) layers []) + stackWork stack.
Proof.
  destruct layers as [[|x rest]|]; reflexivity.
Qed.

Lemma pushCount_props id layers props props' :
  pushCount (Layer id layers props) = pushCount (Layer id layers props').
Proof. destruct layers as [[|x rest]|]; reflexivity. Qed.

Lemma stackWork_visit parentId st elem :
  stackWork (b_stack (visitOwn parentId st elem)) = workOfElem elem + stackWork (b_stack st).
Proof.
  destruct elem as [[id layers props]|]; simpl; [|reflexivity].
  unfold registrable. simpl.
  destruct id as [id|]; simpl; [|reflexivity].
  destruct (nonEmpty id); simpl; [|reflexivity].
  rewrite stackWork_pushLayers.
  now rewrite (pushCount_props _ _ [] props).
Qed.

Lemma stackWork_fold parentId elems :
  forall st,
    stackWork (b_stack (fold_left (visitOwn parentId) elems st)) =
    workOfElems elems + stackWork (b_stack st).
Proof.
  induction elems as [|elem elems IH]; intros st; simpl; [reflexivity|].
  rewrite IH, stackWork_visit. unfold workOfElems. simpl. lia.
Qed.

Lemma buildLoopOwn_terminates :
  forall fuel st,
    stackWork (b_stack st) <= fuel ->
    exists st', buildLoopOwn fuel st = Some st' /\ b_stack st' = [].
Proof.
  induction fuel as [|fuel IH]; intros st Hwork.
  - destruct st as [n c p [|[parentId nodes] rest]].
    + eexists. split; reflexivity.
    + unfold stackWork in Hwork. simpl in Hwork. lia.
  - destruct st as [n c p [|[parentId nodes] rest]].
    + eexists. split; reflexivity.
    + simpl buildLoopOwn. apply IH.
      rewrite stackWork_fold. unfold stackWork in *. simpl in *. lia.
Qed.

(** ** Invariants of the loop

    An invariant comes as a pair: [J] holds at the head of the [while], [K
    parentId] holds inside the [for] over the entries of the popped frame,
    with the elements that remain to be visited. *)
Section LoopInvariant.
Variable J : BuildState -> Prop.
Variable K : string -> BuildState -> list (option LanhuLayerNode) -> Prop.

Hypothesis pop_frame :
  forall st parentId nodes rest,
    b_stack st = (parentId, nodes) :: rest ->
    J st -> K parentId (popped st rest) nodes.
Hypothesis visitOwn_elem :
  forall parentId st elem remaining,
    K parentId st (elem :: remaining) -> K parentId (visitOwn parentId st elem) remaining.
Hypothesis frame_done :
  forall parentId st, K parentId st [] -> J st.

Lemma fold_visit_invariant parentId elems :
  forall st, K parentId st elems -> K parentId (fold_left (visitOwn parentId) elems st) [].
Proof.
  induction elems as [|elem elems IH]; intros st HK; simpl; [assumption|].
  apply IH. now apply visitOwn_elem.
Qed.

Lemma buildLoopOwn_invariant :
  forall fuel st st', J st -> buildLoopOwn fuel st = Some st' -> J st'.
Proof.
  induction fuel as [|fuel IH]; intros st st' HJ Hrun.
  - destruct st as [n c p [|[parentId nodes] rest]]; simpl in Hrun.
    + now injection Hrun as <-.
    + discriminate.
  - destruct st as [n c p [|[parentId nodes] rest]].
    + simpl in Hrun. now injection Hrun as <-.
    + simpl buildLoopOwn in Hrun. refine (IH _ _ _ Hrun).
      apply (frame_done parentId). apply fold_visit_invariant.
      apply pop_frame; [reflexivity | exact HJ].
Qed.
End LoopInvariant.

Lemma idsOfElems_cons elem elems :
  idsOfElems (elem :: elems) = idsOfElem elem ++ idsOfElems elems.
Proof. reflexivity. Qed.

Lemma idsOfElems_app elems elems' :
  idsOfElems (elems ++ elems') = idsOfElems elems ++ idsOfElems elems'.
Proof. unfold idsOfElems. apply flat_map_app. Qed.

Lemma stackIds_pushLayers id node stack :
  stackIds (pushLayers id (node_layers node) stack) = idsBelow node ++ stackIds stack.
Proof.
  destruct node as [i [[|x rest]|] props]; reflexivity.
Qed.

Lemma visitOwn_skip parentId st elem :
  idsOfElem elem = [] -> visitOwn parentId st elem = st.
Proof.
  destruct elem as [node|]; simpl; [|reflexivity].
  destruct (node_id node) as [id|]; [|reflexivity].
  destruct (nonEmpty id); [discriminate | reflexivity].
Qed.

Lemma visitOwn_registered parentId st node id :
  node_id node = Some id -> nonEmpty id = true ->
  visitOwn parentId st (Some node) =
  mkBuild (assign id node (b_nodesById st))
          (pushChildOwn parentId id (b_childrenById st))
          (assign id (Some parentId) (b_parentById st))
          (pushLayers id (node_layers node) (b_stack st)).
Proof. intros Hid Hne. simpl. now rewrite Hid, Hne. Qed.

Lemma idsOfElem_cases elem :
  idsOfElem elem = [] \/
  exists node id, elem = Some node /\ node_id node = Some id /\ nonEmpty id = true /\
                  idsOfElem elem = id :: idsBelow node.
Proof.
  destruct elem as [node|]; [|now left]. simpl.
  destruct (node_id node) as [id|] eqn:Hid; [|now left].
  destruct (nonEmpty id) eqn:Hne; [|now left].
  right. exists node, id. auto.
Qed.

Lemma keys_assign_same {A B : Type} (o : JsRecord A) (o' : JsRecord B) k v v' :
  keys o = keys o' -> keys (assign k v o) = keys (assign k v' o').
Proof.
  intros H. destruct (in_dec string_dec k (keys o)) as [Hin|Hout].
  - rewrite !keys_assign_present; congruence.
  - rewrite !keys_assign_fresh; congruence.
Qed.

Lemma lookup_pushChild parentId id children p l :
  lookup p (pushChildOwn parentId id children) = Some l ->
  (p = parentId /\ exists l0, l = l0 ++ [id] /\
                              (l0 = [] \/ lookup parentId children = Some l0))
  \/ (p <> parentId /\ lookup p children = Some l).
Proof.
  unfold pushChildOwn. intros H.
  destruct (string_dec p parentId) as [->|Hne].
  - left. split; [reflexivity|].
    destruct (lookup parentId children) as [l0|] eqn:E;
      rewrite lookup_assign_eq in H; injection H as <-.
    + exists l0. auto.
    + exists []. auto.
  - right. split; [assumption|].
    destruct (lookup parentId children); now rewrite lookup_assign_neq in H.
Qed.

Section BuilderInvariant.
Variable registered : list string.

Let J (st : BuildState) : Prop := BuildInv registered st (stackIds (b_stack st)).
Let K (parentId : string) (st : BuildState) (remaining : list (option LanhuLayerNode))
  : Prop :=
  In parentId (keys (b_nodesById st)) /\
  BuildInv registered st (idsOfElems remaining ++ stackIds (b_stack st)).

Lemma build_pop_frame st parentId nodes rest :
  b_stack st = (parentId, nodes) :: rest -> J st -> K parentId (popped st rest) nodes.
Proof.
  intros Hstack [H1 H2 H3 H4 H5 H6 H7 H8]. rewrite Hstack in *. split.
  - apply (H7 parentId nodes). now left.
  - constructor; simpl; try assumption.
    intros p ns Hin. apply (H7 p ns). now right.
Qed.

Lemma build_visit_elem parentId st elem remaining :
  K parentId st (elem :: remaining) -> K parentId (visitOwn parentId st elem) remaining.
Proof.
  intros [Hp [H1 H2 H3 H4 H5 H6 H7 H8]].
  destruct (idsOfElem_cases elem) as [Hskip|(node & id & -> & Hid & Hne & Hids)].
  - rewrite (visitOwn_skip _ _ _ Hskip). split; [assumption|].
    constructor; try assumption.
    intros x. rewrite <- H8. rewrite idsOfElems_cons, Hskip. reflexivity.
  - rewrite (visitOwn_registered _ _ _ _ Hid Hne).
    assert (Hmono : forall k, In k (keys (b_nodesById st)) ->
                              In k (keys (assign id node (b_nodesById st)))).
    { intros k Hk. apply in_keys_assign. now right. }
    assert (Hnew : In id (keys (assign id node (b_nodesById st)))).
    { apply in_keys_assign. now left. }
    split; [simpl; auto|].
    constructor; simpl.
    + now apply keys_assign_same.
    + now apply NoDup_keys_assign.
    + intros k Hk. apply in_keys_assign in Hk. destruct Hk as [->|Hk]; auto.
    + intros k n Hk. destruct (string_dec k id) as [->|Hneq].
      * rewrite lookup_assign_eq in Hk. now injection Hk as <-.
      * rewrite lookup_assign_neq in Hk by assumption. eauto.
    + intros p l Hl. apply lookup_pushChild in Hl.
      destruct Hl as [[-> (l0 & -> & Hl0)]|[Hneq Hl]].
      * split; [auto|]. intros c Hc. apply in_app_iff in Hc.
        destruct Hc as [Hc|[<-|[]]]; [|assumption].
        destruct Hl0 as [->|Hl0]; [contradiction|].
        apply Hmono. now apply (H5 _ _ Hl0).
      * destruct (H5 _ _ Hl) as [Ha Hb]. split; auto.
    + intros c p Hc. destruct (string_dec c id) as [->|Hneq].
      * rewrite lookup_assign_eq in Hc. injection Hc as <-. auto.
      * rewrite lookup_assign_neq in Hc by assumption. eauto.
    + intros p ns Hin.
      assert (Hcases : (p = id) \/ In (p, ns) (b_stack st)).
      { destruct (node_layers node) as [[|x rest]|]; simpl in Hin; auto.
        destruct Hin as [[= <- <-]|Hin]; auto. }
      destruct Hcases as [->|Hold]; eauto.
    + intros x. rewrite <- H8. rewrite in_keys_assign, stackIds_pushLayers.
      rewrite idsOfElems_cons, Hids. rewrite !in_app_iff. simpl.
      rewrite ?in_app_iff. intuition auto.
Qed.

Lemma build_frame_done parentId st : K parentId st [] -> J st.
Proof. intros [_ H]. exact H. Qed.

Lemma buildLoopOwn_BuildInv fuel st st' :
  J st -> buildLoopOwn fuel st = Some st' -> J st'.
Proof.
  apply (buildLoopOwn_invariant J K).
  - exact build_pop_frame.
  - exact build_visit_elem.
  - exact build_frame_done.
Qed.
End BuilderInvariant.

(** ** When no id is registered twice *)

Lemma position_app_in l l' x : In x l -> position (l ++ l') x = position l x.
Proof.
  induction l as [|y l IH]; simpl; [contradiction|].
  intros H. destruct (String.eqb x y) eqn:E; [reflexivity|].
  apply String.eqb_neq in E. destruct H as [H|H]; [congruence|].
  now rewrite IH.
Qed.

Lemma position_lt_length l x : In x l -> position l x < List.length l.
Proof.
  induction l as [|y l IH]; simpl; [contradiction|].
  intros H. destruct (String.eqb x y) eqn:E; [lia|].
  apply String.eqb_neq in E. destruct H as [H|H]; [congruence|].
  apply IH in H. lia.
Qed.

Lemma position_app_fresh l x : ~ In x l -> position (l ++ [x]) x = List.length l.
Proof.
  induction l as [|y l IH]; simpl; intros H.
  - now rewrite String.eqb_refl.
  - destruct (String.eqb x y) eqn:E.
    + apply String.eqb_eq in E. subst. exfalso. auto.
    + rewrite IH; auto.
Qed.

Section DistinctIds.
Variable registered : list string.
Hypothesis registered_distinct : NoDup registered.

Let J (st : BuildState) : Prop :=
  BuildInv registered st (stackIds (b_stack st)) /\
  DistinctInv registered st (stackIds (b_stack st)).
Let K (parentId : string) (st : BuildState) (remaining : list (option LanhuLayerNode))
  : Prop :=
  (In parentId (keys (b_nodesById st)) /\
   BuildInv registered st (idsOfElems remaining ++ stackIds (b_stack st))) /\
  DistinctInv registered st (idsOfElems remaining ++ stackIds (b_stack st)).

Lemma distinct_visit_elem parentId st elem remaining :
  K parentId st (elem :: remaining) -> K parentId (visitOwn parentId st elem) remaining.
Proof.
  intros [HK [Hperm Hrank]]. split; [now apply build_visit_elem|].
  destruct HK as [Hp HB].
  destruct (idsOfElem_cases elem) as [Hskip|(node & id & -> & Hid & Hne & Hids)].
  - rewrite (visitOwn_skip _ _ _ Hskip).
    rewrite idsOfElems_cons, Hskip in Hperm. now constructor.
  - rewrite (visitOwn_registered _ _ _ _ Hid Hne).
    rewrite idsOfElems_cons, Hids in Hperm.
    assert (Hfresh : ~ In id (keys (b_nodesById st))).
    { pose proof (Permutation_NoDup (Permutation_sym Hperm) registered_distinct) as Hnd.
      simpl in Hnd. apply NoDup_remove_2 in Hnd.
      intros Hin. apply Hnd. apply in_app_iff. now left. }
    assert (Hfresh' : ~ In id (keys (b_parentById st)))
      by now rewrite (inv_keys _ _ _ HB).
    constructor; simpl.
    + rewrite keys_assign_fresh by assumption. rewrite stackIds_pushLayers.
      rewrite <- Hperm. rewrite <- !app_assoc. apply Permutation_app_head.
      simpl. apply perm_skip. rewrite <- ?app_assoc.
      apply Permutation_app_swap_app.
    + intros c p Hc. rewrite keys_assign_fresh by assumption.
      destruct (string_dec c id) as [->|Hneq].
      * rewrite lookup_assign_eq in Hc. injection Hc as <-.
        rewrite position_app_fresh by assumption.
        rewrite position_app_in by now rewrite (inv_keys _ _ _ HB).
        apply position_lt_length. now rewrite (inv_keys _ _ _ HB).
      * rewrite lookup_assign_neq in Hc by assumption.
        rewrite !position_app_in; auto.
        -- now apply lookup_Some_key in Hc.
        -- rewrite (inv_keys _ _ _ HB). now apply (inv_parents _ _ _ HB c).
Qed.

Lemma buildLoopOwn_DistinctInv fuel st st' :
  J st -> buildLoopOwn fuel st = Some st' -> J st'.
Proof.
  apply (buildLoopOwn_invariant J K).
  - intros s parentId nodes rest Hstack [HB [Hperm Hrank]]. split.
    + now apply build_pop_frame.
    + rewrite Hstack in Hperm. constructor; simpl; assumption.
  - exact distinct_visit_elem.
  - intros parentId s [[_ HB] HD]. split; assumption.
Qed.
End DistinctIds.

Lemma rank_acyclic tree (rank : string -> nat) :
  (forall c p, isParent tree c p -> rank p < rank c) -> acyclic tree.
Proof.
  intros Hrank.
  assert (Hanc : forall x y, isAncestor tree x y -> rank y < rank x).
  { intros x y H. induction H as [x y H|x y z _ IH1 _ IH2]; [auto | lia]. }
  intros id H. apply Hanc in H. lia.
Qed.

Lemma BuildInv_empty : BuildInv [] (finalState emptyTree) [].
Proof.
  constructor; simpl; try reflexivity; try constructor; try discriminate;
    try contradiction; tauto.
Qed.

Lemma DistinctInv_empty : DistinctInv [] (finalState emptyTree) [].
Proof. constructor; simpl; [constructor | discriminate]. Qed.

(** ** [parseLanhuTreeOwn] returns, and what it returns satisfies the
       invariants *)
Lemma parseLanhuTreeOwn_invariants sketchJson :
  exists tree,
    parseLanhuTreeOwn sketchJson = Some tree /\
    BuildInv (registeredIds sketchJson) (finalState tree) [] /\
    (forall r, In r (rootIds tree) -> In r (keys (nodesById tree))) /\
    (NoDup (registeredIds sketchJson) ->
     DistinctInv (registeredIds sketchJson) (finalState tree) []).
Proof.
  assert (Hempty : forall doc,
             parseLanhuTreeOwn doc = Some emptyTree -> registeredIds doc = [] ->
             exists tree,
               parseLanhuTreeOwn doc = Some tree /\
               BuildInv (registeredIds doc) (finalState tree) [] /\
               (forall r, In r (rootIds tree) -> In r (keys (nodesById tree))) /\
               (NoDup (registeredIds doc) ->
                DistinctInv (registeredIds doc) (finalState tree) [])).
  { intros doc Hparse Hreg. exists emptyTree. rewrite Hreg.
    split; [assumption|]. split; [apply BuildInv_empty|].
    split; [intros r []|intros _; apply DistinctInv_empty]. }
  destruct sketchJson as [[[id layers props]|]]; [|now apply Hempty].
  destruct id as [rootId|]; [|now apply Hempty].
  destruct (nonEmpty rootId) eqn:Hne.
  2:{ apply Hempty; unfold parseLanhuTreeOwn, registeredIds; simpl; now rewrite Hne. }
  clear Hempty. unfold parseLanhuTreeOwn, registeredIds.
  cbn [artboard node_id node_layers]. rewrite Hne.
  assert (Hreg : idsOfElem (Some (Layer (Some rootId) layers props)) =
                 rootId :: idsBelow (Layer (Some rootId) layers props)).
  { unfold idsOfElem. cbn [node_id]. now rewrite Hne. }
  rewrite Hreg. clear Hreg.
  set (artboard := Layer (Some rootId) layers props).
  set (st0 := mkBuild [(rootId, artboard)] [] [(rootId, None)]
                      (pushLayers rootId layers [])).
  set (registered := rootId :: idsBelow artboard).
  assert (Hstack0 : stackIds (b_stack st0) = idsBelow artboard).
  { unfold st0. simpl. change layers with (node_layers artboard).
    rewrite stackIds_pushLayers. apply app_nil_r. }
  assert (HB0 : BuildInv registered st0 (stackIds (b_stack st0))).
  { rewrite Hstack0. constructor; simpl.
    - reflexivity.
    - repeat constructor. simpl. tauto.
    - intros k [<-|[]]. assumption.
    - intros k n. destruct (String.eqb k rootId) eqn:E; [|discriminate].
      apply String.eqb_eq in E. subst. now intros [= <-].
    - discriminate.
    - intros c p. destruct (String.eqb c rootId); discriminate.
    - intros p ns Hin. destruct layers as [[|x rest]|]; simpl in Hin; try contradiction.
      destruct Hin as [[= <- _]|[]]. now left.
    - intros x. unfold registered. simpl. tauto. }
  assert (HD0 : NoDup registered -> DistinctInv registered st0 (stackIds (b_stack st0))).
  { intros _. rewrite Hstack0. constructor; simpl.
    - apply Permutation_refl.
    - intros c p. destruct (String.eqb c rootId); discriminate. }
  assert (Hfuel : stackWork (b_stack st0) <= pushCount artboard).
  { unfold st0. cbn [b_stack]. rewrite stackWork_pushLayers. unfold artboard.
    rewrite (pushCount_props _ _ [] props).
    change (stackWork []) with 0. lia. }
  destruct (buildLoopOwn_terminates _ _ Hfuel) as (st' & Hrun & Hempty).
  fold artboard. fold registered.
  change (mkBuild (assign rootId artboard []) [] (assign rootId None [])
                  (pushLayers rootId layers [])) with st0.
  rewrite Hrun.
  pose proof (buildLoopOwn_BuildInv registered _ _ _ HB0 Hrun) as HB.
  destruct st' as [n c p s]. simpl in Hempty. subst s. simpl in HB.
  eexists. split; [reflexivity|]. unfold finalState. simpl.
  split; [exact HB|]. split.
  - intros r [<-|[]].
    destruct (proj2 (inv_ids _ _ _ HB rootId)) as [H|[]]; [now left | exact H].
  - intros Hnd.
    apply (buildLoopOwn_DistinctInv registered Hnd _ _ _ (conj HB0 (HD0 Hnd)) Hrun).
Qed.

(** The invariants of the run that returned the tree of [Hparse]. *)
Tactic Notation "run_invariants" hyp(Hparse) "as"
    simple_intropattern(HB) simple_intropattern(Hroots) simple_intropattern(HD) :=
  match type of Hparse with
  | parseLanhuTreeOwn ?sketchJson = Some _ =>
      let t := fresh "t" in
      let Ht := fresh "Ht" in
      destruct (parseLanhuTreeOwn_invariants sketchJson) as (t & Ht & HB & Hroots & HD);
      rewrite Hparse in Ht; injection Ht as <-
  end.

Lemma parseLanhuTreeOwn_integrity sketchJson tree :
  parseLanhuTreeOwn sketchJson = Some tree -> referentialIntegrity tree.
Proof.
  intros Hparse.
  run_invariants Hparse as HB Hroots _.
  unfold referentialIntegrity. split; [|split; [|split]].
  - intros p l Hl. exact (inv_children _ _ _ HB p l Hl).
  - intros c Hc. pose proof (inv_keys _ _ _ HB) as E. simpl in E. now rewrite <- E.
  - intros c p Hp. exact (inv_parents _ _ _ HB c p Hp).
  - exact Hroots.
Qed.

Lemma parseLanhuTreeOwn_acyclic sketchJson tree :
  NoDup (registeredIds sketchJson) ->
  parseLanhuTreeOwn sketchJson = Some tree -> acyclic tree.
Proof.
  intros Hnd Hparse.
  run_invariants Hparse as _ _ HD.
  apply (rank_acyclic tree (position (keys (parentById tree)))).
  intros c p Hp. exact (inv_rank _ _ _ (HD Hnd) c p Hp).
Qed.

Lemma parseLanhuTreeOwn_keys sketchJson tree :
  parseLanhuTreeOwn sketchJson = Some tree ->
  forall id, In id (keys (nodesById tree)) <-> In id (registeredIds sketchJson).
Proof.
  intros Hparse id.
  run_invariants Hparse as HB _ _.
  rewrite <- (inv_ids _ _ _ HB id). simpl. tauto.
Qed.

Lemma nonEmpty_neq k : nonEmpty k = true -> k <> "".
Proof.
  unfold nonEmpty. intros H ->. discriminate.
Qed.

Lemma parseLanhuTreeOwn_noEmptyId sketchJson tree :
  parseLanhuTreeOwn sketchJson = Some tree -> noEmptyId tree.
Proof.
  intros Hparse.
  run_invariants Hparse as HB Hroots _.
  assert (Hk : forall k, In k (keys (nodesById tree)) -> k <> "").
  { intros k Hin. apply nonEmpty_neq. now apply (inv_truthy _ _ _ HB). }
  unfold noEmptyId. split; [|split; [|split; [|split]]].
  - exact Hk.
  - intros k l Hl. destruct (inv_children _ _ _ HB k l Hl) as [H1 H2]. split; auto.
  - intros k Hin. apply Hk. pose proof (inv_keys _ _ _ HB) as E. simpl in E.
    now rewrite <- E.
  - intros c p Hp. apply Hk. exact (inv_parents _ _ _ HB c p Hp).
  - intros r Hr. apply Hk. auto.
Qed.

Lemma sampleSketch_distinct : NoDup (registeredIds sampleSketch).
Proof.
  vm_compute. repeat constructor; simpl; intuition discriminate.
Qed.

Lemma skipped_idsOfElem elem : skipped elem = true -> idsOfElem elem = [].
Proof.
  destruct elem as [node|]; [|reflexivity]. unfold skipped, registrable, idsOfElem.
  destruct (node_id node) as [id|]; [|reflexivity].
  destruct (nonEmpty id); [discriminate | reflexivity].
Qed.

Lemma fold_visit_app parentId before after st :
  fold_left (visitOwn parentId) (before ++ after) st =
  fold_left (visitOwn parentId) after (fold_left (visitOwn parentId) before st).
Proof. apply fold_left_app. Qed.

(** ** The exported id of the nodes of a tree *)

Lemma parseLanhuTreeOwn_node_ids sketchJson tree :
  parseLanhuTreeOwn sketchJson = Some tree ->
  forall k node, lookup k (nodesById tree) = Some node -> node_id node = Some k.
Proof.
  intros Hparse k node Hk.
  run_invariants Hparse as HB _ _.
  exact (inv_node_id _ _ _ HB k node Hk).
Qed.

(** On own properties. For every node the exported record has exactly the
    nineteen allowlisted keys, in the same order; every field other than
    [id] is the node's value when the node has one and [null] when it is
    absent (or [null]) on the node; [id] is copied as it is, so that it is
    [undefined] on a node without [id]. On the nodes of a parsed tree the
    exported [id] is the key of the node. *)
Lemma pickExportNode_fields :
  (forall node,
    keys (fieldsOf (pickExportNode node)) = exportKeys /\
    pickExportNode node = VObject (fieldsOf (pickExportNode node)) /\
    get (pickExportNode node) "id" = id_value node /\
    (forall k, In k exportKeys -> k <> "id" ->
               get (pickExportNode node) k = prop node k ?? VNull) /\
    (forall k, In k exportKeys -> k <> "id" ->
               nullish (prop node k) = true -> get (pickExportNode node) k = VNull) /\
    (forall k, In k exportKeys -> k <> "id" ->
               nullish (prop node k) = false ->
               get (pickExportNode node) k = prop node k)) /\
  (forall sketchJson,
      exists tree,
        parseLanhuTreeOwn sketchJson = Some tree /\
        forall k node,
          lookup k (nodesById tree) = Some node ->
          get (pickExportNode node) "id" = VString k).
Proof.
  split.
  - intros node.
    assert (Hget : forall k, In k exportKeys -> k <> "id" ->
                             get (pickExportNode node) k = prop node k ?? VNull).
    { intros k Hin Hne. unfold exportKeys in Hin. simpl in Hin.
      repeat (destruct Hin as [<-|Hin]; [try reflexivity; congruence|]).
      contradiction. }
    repeat split; try reflexivity; try assumption.
    + intros k Hin Hne Hnull. rewrite Hget by assumption.
      unfold coalesce. now rewrite Hnull.
    + intros k Hin Hne Hnull. rewrite Hget by assumption.
      unfold coalesce. now rewrite Hnull.
  - intros sketchJson.
    destruct (parseLanhuTreeOwn_invariants sketchJson) as (tree & Hparse & _).
    exists tree. split; [assumption|]. intros k node Hk.
    change (get (pickExportNode node) "id") with (id_value node).
    unfold id_value. now rewrite (parseLanhuTreeOwn_node_ids _ _ Hparse k node Hk).
Qed.

(* ===================================================================== *)
(** * 10. The walk to the root: [getAncestorIdsOwn] *)
(* ===================================================================== *)

Lemma parentOf_isParent tree id parent :
  parentOf tree id = Some parent -> isParent tree id parent.
Proof.
  unfold parentOf, isParent.
  destruct (lookup id (parentById tree)) as [[p|]|]; try discriminate.
  destruct (nonEmpty p); [|discriminate]. now intros [= ->].
Qed.

Lemma ancestorsLoopOwn_step fuel tree currentId result :
  ancestorsLoopOwn (S fuel) tree currentId result =
  match parentOf tree currentId with
  | Some parentId => ancestorsLoopOwn fuel tree parentId (result ++ [parentId])
  | None => Some result
  end.
Proof.
  simpl. unfold parentOf.
  destruct (lookup currentId (parentById tree)) as [[p|]|]; try reflexivity.
  destruct (nonEmpty p); reflexivity.
Qed.

Lemma ancestorsLoopOwn_acyclic tree :
  acyclic tree ->
  forall fuel currentId visited result,
    NoDup visited ->
    (forall v, In v visited ->
               In v (keys (parentById tree)) /\ isAncestor tree v currentId) ->
    List.length (parentById tree) < fuel + List.length visited ->
    exists chain,
      ancestorsLoopOwn fuel tree currentId result = Some (result ++ chain) /\
      ancestorChain tree currentId chain.
Proof.
  intros Hacyclic. induction fuel as [|fuel IH];
    intros currentId visited result Hnd Hvisited Hfuel.
  - exfalso.
    assert (Hle : List.length visited <= List.length (keys (parentById tree))).
    { apply NoDup_incl_length; [assumption|]. intros v Hv. now apply Hvisited. }
    unfold keys in Hle. rewrite length_map in Hle. lia.
  - rewrite ancestorsLoopOwn_step.
    destruct (parentOf tree currentId) as [parentId|] eqn:Hparent.
    + pose proof (parentOf_isParent _ _ _ Hparent) as Hstep.
      assert (Hnew : ~ In currentId visited).
      { intros Hin. apply (Hacyclic currentId). now apply Hvisited. }
      destruct (IH parentId (currentId :: visited) (result ++ [parentId]))
        as (chain & Hrun & Hchain).
      * now constructor.
      * intros v [<-|Hv].
        -- split; [|now apply t_step]. now apply lookup_Some_key in Hstep.
        -- destruct (Hvisited v Hv) as [Hkey Hanc]. split; [assumption|].
           apply t_trans with currentId; [assumption | now apply t_step].
      * simpl. lia.
      * exists (parentId :: chain). rewrite Hrun, <- app_assoc. split; [reflexivity|].
        now apply chain_step.
    + exists []. rewrite app_nil_r. split; [reflexivity | now apply chain_top].
Qed.

Lemma ancestorChain_unique tree id chain :
  ancestorChain tree id chain ->
  forall chain', ancestorChain tree id chain' -> chain' = chain.
Proof.
  induction 1 as [id Hnone|id parent chain Hparent _ IH]; intros chain' H';
    inversion H' as [id' Hnone'|id' parent' chain'' Hparent' Hrest]; subst;
    try congruence.
  rewrite Hparent in Hparent'. injection Hparent' as <-. f_equal. auto.
Qed.

(** On own properties. On a tree without cycles the walk of
    [getAncestorIdsOwn] ends for every id, with any fuel above the number of
    entries of [parentById]: it returns the chain of the ancestors of the
    id, the nearest first and the root last, each entry the parent of the
    one before; the chain is empty when the id has no parent, as a root
    ([null]) and an unknown id ([undefined]) have none. *)
Lemma getAncestorIdsOwn_terminates_on_forest :
  forall tree,
    acyclic tree ->
    forall id,
      exists chain,
        getAncestorIdsOwn tree id = Some chain /\
        (forall fuel, List.length (parentById tree) < fuel ->
                      ancestorsLoopOwn fuel tree id [] = Some chain) /\
        ancestorChain tree id chain /\
        (forall chain', ancestorChain tree id chain' -> chain' = chain) /\
        (lookup id (parentById tree) = Some None -> chain = []) /\
        (lookup id (parentById tree) = None -> chain = []).
Proof.
  intros tree Hacyclic id.
  assert (Hrun : forall fuel, List.length (parentById tree) < fuel ->
                   exists chain, ancestorsLoopOwn fuel tree id [] = Some chain /\
                                 ancestorChain tree id chain).
  { intros fuel Hfuel.
    destruct (ancestorsLoopOwn_acyclic tree Hacyclic fuel id [] [])
      as (chain & Hrun & Hchain).
    - constructor.
    - intros v [].
    - simpl. lia.
    - exists chain. auto. }
  destruct (Hrun (S (List.length (parentById tree)))) as (chain & Hget & Hchain);
    [lia|].
  exists chain. split; [exact Hget|]. split; [|split; [assumption|split; [|split]]].
  - intros fuel Hfuel. destruct (Hrun fuel Hfuel) as (chain' & Hget' & Hchain').
    now rewrite (ancestorChain_unique _ _ _ Hchain _ Hchain') in Hget'.
  - now apply ancestorChain_unique.
  - intros Hroot. inversion Hchain as [|? parent ? Hparent]; [reflexivity|].
    unfold parentOf in Hparent. rewrite Hroot in Hparent. discriminate.
  - intros Hunknown. inversion Hchain as [|? parent ? Hparent]; [reflexivity|].
    unfold parentOf in Hparent. rewrite Hunknown in Hparent. discriminate.
Qed.

Lemma sampleTree_parsed : parseLanhuTreeOwn sampleSketch = Some sampleTree.
Proof. reflexivity. Qed.

Lemma sampleTree_acyclic : acyclic sampleTree.
Proof.
  exact (parseLanhuTreeOwn_acyclic sampleSketch sampleTree sampleSketch_distinct
                                sampleTree_parsed).
Qed.

(** On the tree of [sameIdSketch], where ["A"] is its own parent, the walk
    never ends, whatever the fuel. *)
Lemma getAncestorIdsOwn_diverges_on_cycle :
  forall fuel result, ancestorsLoopOwn fuel sameIdTree "A" result = None.
Proof.
  induction fuel as [|fuel IH]; intros result; [reflexivity|].
  rewrite ancestorsLoopOwn_step.
  change (parentOf sameIdTree "A") with (Some "A"). apply IH.
Qed.

(* ===================================================================== *)
(** * 11. Binary64 facts: the sign of a difference and the order of
        positive finite numbers *)
(* ===================================================================== *)

Section Binary64.
Local Open Scope Z_scope.

Lemma digits2_pos_size m : digits2_pos m = Pos.size m.
Proof. induction m; simpl; congruence. Qed.

Lemma digits2_pos_bounds m :
2 ^ (Zpos (digits2_pos m) - 1) <= Zpos m < 2 ^ Zpos (digits2_pos m).
Proof.
rewrite digits2_pos_size. split.
- pose proof (Pos.size_le m) as H.
  assert (H' : (2 ^ Zpos (Pos.size m) <= 2 * Zpos m)).
  { rewrite <- Pos2Z.inj_pow. change (2 * Zpos m) with (Zpos (m~0)). exact H. }
  replace (Zpos (Pos.size m)) with (Z.succ (Zpos (Pos.size m) - 1)) in H' by lia.
  rewrite Z.pow_succ_r in H' by lia. lia.
- pose proof (Pos.size_gt m) as H. rewrite <- Pos2Z.inj_pow. exact H.
Qed.

Lemma bounded_facts m e :
bounded prec emax m e = true ->
-1074 <= e /\ Zpos (digits2_pos m) <= 53 /\ (-1074 < e -> Zpos (digits2_pos m) = 53).
Proof.
unfold bounded, canonical_mantissa, fexp, SpecFloat.emin, prec, emax.
intros H. apply andb_true_iff in H. destruct H as [H _].
apply Z.eqb_eq in H. lia.
Qed.

Lemma ord_lt_of_exp m1 e1 m2 e2 :
bounded prec emax m1 e1 = true -> bounded prec emax m2 e2 = true ->
e1 < e2 -> ord m1 e1 < ord m2 e2.
Proof.
intros H1 H2 Hlt.
destruct (bounded_facts _ _ H1) as (He1 & Hd1 & _).
destruct (bounded_facts _ _ H2) as (He2 & _ & Hd2).
specialize (Hd2 ltac:(lia)).
pose proof (digits2_pos_bounds m1) as [_ Hm1].
pose proof (digits2_pos_bounds m2) as [Hm2 _].
rewrite Hd2 in Hm2.
assert (Hm1' : Zpos m1 < 2 ^ 53).
{ eapply Z.lt_le_trans; [exact Hm1|]. apply Z.pow_le_mono_r; lia. }
unfold ord.
assert (Hp1 : 0 < 2 ^ (e1 + 1074)) by (apply Z.pow_pos_nonneg; lia).
replace (e2 + 1074) with ((e2 - e1 - 1) + 1 + (e1 + 1074)) by lia.
rewrite (Z.pow_add_r 2 (e2 - e1 - 1 + 1) (e1 + 1074)) by lia.
rewrite (Z.pow_add_r 2 (e2 - e1 - 1) 1) by lia.
assert (Hp2 : 0 < 2 ^ (e2 - e1 - 1)) by (apply Z.pow_pos_nonneg; lia).
change (53 - 1) with 52 in Hm2.
change (2 ^ 1) with 2. 
assert (Zpos m1 < Zpos m2 * (2 ^ (e2 - e1 - 1) * 2)).
{ change (2^53) with (2^52 * 2) in Hm1'. nia. }
nia.
Qed.

Lemma SFcompare_pos m1 e1 m2 e2 :
bounded prec emax m1 e1 = true -> bounded prec emax m2 e2 = true ->
SFcompare (S754_finite false m1 e1) (S754_finite false m2 e2)
= Some (ord m1 e1 ?= ord m2 e2).
Proof.
intros H1 H2. simpl.
destruct (Z.compare_spec e1 e2) as [Heq|Hlt|Hgt].
- subst e2. rewrite Pos.compare_cont_spec. simpl. unfold ord.
  f_equal.
  assert (Hp : 0 < 2 ^ (e1 + 1074)).
  { destruct (bounded_facts _ _ H1). apply Z.pow_pos_nonneg; lia. }
  destruct (Pos.compare_spec m1 m2) as [Heq|Hlt|Hgt];
    destruct (Z.compare_spec (Zpos m1 * 2 ^ (e1 + 1074)) (Zpos m2 * 2 ^ (e1 + 1074)));
    try reflexivity; exfalso; try subst m2; nia.
- f_equal. symmetry. apply Z.compare_lt_iff. now apply ord_lt_of_exp.
- f_equal. symmetry. apply Z.compare_gt_iff. now apply ord_lt_of_exp.
Qed.

Lemma shr_1_m mrs : 0 <= shr_m mrs -> shr_m (shr_1 mrs) = shr_m mrs / 2.
Proof.
destruct mrs as [m r s]. destruct m as [|[p|p|]|p]; simpl; intros H;
  try reflexivity; try lia.
- change (Zpos p) with (Z.div2 (Zpos p~1)) at 1. apply Z.div2_div.
- change (Zpos p) with (Z.div2 (Zpos p~0)) at 1. apply Z.div2_div.
Qed.

Lemma iter_shr_1_m n :
forall mrs, 0 <= shr_m mrs ->
            shr_m (iter_pos shr_1 n mrs) = shr_m mrs / 2 ^ Zpos n.
Proof.
assert (Hpos : forall k, 0 < 2 ^ Zpos k) by (intros k; apply Z.pow_pos_nonneg; lia).
induction n as [n IH|n IH|]; intros mrs Hm; simpl iter_pos.
- assert (H1 : 0 <= shr_m (shr_1 mrs)).
  { rewrite shr_1_m by assumption. apply Z.div_pos; lia. }
  assert (H2 : 0 <= shr_m (iter_pos shr_1 n (shr_1 mrs))).
  { rewrite IH by assumption. apply Z.div_pos; [assumption | apply Hpos]. }
  rewrite IH, IH, shr_1_m by assumption.
  rewrite !Z.div_div by (try apply Hpos; lia).
  f_equal. change 2 with (2 ^ 1) at 1. rewrite <- !Z.pow_add_r by lia. f_equal. lia.
- assert (H2 : 0 <= shr_m (iter_pos shr_1 n mrs)).
  { rewrite IH by assumption. apply Z.div_pos; [assumption | apply Hpos]. }
  rewrite IH, IH by assumption.
  rewrite !Z.div_div by (try apply Hpos; lia).
  f_equal. rewrite <- Z.pow_add_r by lia. f_equal. lia.
- rewrite shr_1_m by assumption. reflexivity.
Qed.

Lemma shr_record_of_loc_m m l : shr_m (shr_record_of_loc m l) = m.
Proof. destruct l as [|[]]; reflexivity. Qed.

Lemma shr_fexp_pos m e l :
-1074 <= e ->
0 < shr_m (fst (shr_fexp prec emax (Zpos m) e l)) /\
-1074 <= snd (shr_fexp prec emax (Zpos m) e l).
Proof.
intros He. unfold shr_fexp, shr.
set (d := Zdigits2 (Zpos m)).
assert (Hd : d = Zpos (digits2_pos m)) by reflexivity.
pose proof (digits2_pos_bounds m) as [Hlow _]. rewrite <- Hd in Hlow.
assert (Hd1 : 1 <= d) by lia.
destruct (fexp prec emax (d + e) - e) as [|n|n] eqn:Hn; simpl fst; simpl snd;
  rewrite ?shr_record_of_loc_m; try (split; lia).
assert (Hnd : Zpos n <= d - 1).
{ unfold fexp, SpecFloat.emin, prec, emax in Hn. lia. }
rewrite iter_shr_1_m by (rewrite shr_record_of_loc_m; lia).
rewrite shr_record_of_loc_m. split; [|lia].
apply Z.div_str_pos. split; [apply Z.pow_pos_nonneg; lia|].
eapply Z.le_trans; [|exact Hlow]. apply Z.pow_le_mono_r; lia.
Qed.

Lemma round_nearest_even_pos m l : 0 < m -> 0 < round_nearest_even m l.
Proof.
intros H. destruct l as [|[]]; simpl; try lia. destruct (Z.even m); lia.
Qed.

Lemma binary_round_aux_pos m e l :
-1074 <= e -> positiveSF (binary_round_aux prec emax false (Zpos m) e l) = true.
Proof.
intros He. unfold binary_round_aux.
pose proof (shr_fexp_pos m e l He) as [H1 H2].
destruct (shr_fexp prec emax (Zpos m) e l) as [mrs' e']. simpl in H1, H2.
pose proof (round_nearest_even_pos (shr_m mrs') (loc_of_shr_record mrs') H1) as H3.
destruct (round_nearest_even (shr_m mrs') (loc_of_shr_record mrs')) as [|m2|m2];
  try lia.
pose proof (shr_fexp_pos m2 e' loc_Exact H2) as [H4 H5].
destruct (shr_fexp prec emax (Zpos m2) e' loc_Exact) as [mrs'' e'']. simpl in H4, H5.
destruct (shr_m mrs'') as [|m3|m3]; try lia.
destruct (e'' <=? emax - prec); reflexivity.
Qed.

Lemma binary_round_aux_neg m e l :
SFltb (S754_zero false) (binary_round_aux prec emax true m e l) = false.
Proof.
unfold binary_round_aux.
destruct (shr_fexp prec emax m e l) as [mrs' e'].
destruct (shr_fexp prec emax _ e' loc_Exact) as [mrs'' e''].
destruct (shr_m mrs'') as [|m3|m3]; try reflexivity.
destruct (e'' <=? emax - prec); reflexivity.
Qed.

Lemma shl_align_spec m e e' :
e' <= e ->
Zpos (fst (shl_align m e e')) = Zpos m * 2 ^ (e - e') /\
snd (shl_align m e e') = e'.
Proof.
intros Hle. unfold shl_align.
destruct (e' - e) as [|d|d] eqn:Hd; simpl fst; simpl snd.
- replace (e - e') with 0 by lia. split; lia.
- lia.
- replace (e - e') with (Zpos d) by lia. split; [|reflexivity].
  clear. induction d as [|d IH] using Pos.peano_ind.
  + simpl. lia.
  + rewrite Pos.iter_succ. rewrite Pos2Z.inj_xO, IH.
    rewrite Pos2Z.inj_succ, Z.pow_succ_r by lia. ring.
Qed.

Lemma shl_align_exp m e e' : -1074 <= e -> -1074 <= e' -> -1074 <= snd (shl_align m e e').
Proof.
intros H1 H2. unfold shl_align. destruct (e' - e); simpl; lia.
Qed.

Lemma binary_round_pos m e :
-1074 <= e -> positiveSF (binary_round prec emax false m e) = true.
Proof.
intros He. unfold binary_round.
pose proof (shl_align_exp m e (fexp prec emax (Zpos (digits2_pos m) + e)) He) as Hexp.
destruct (shl_align m e (fexp prec emax (Z.pos (digits2_pos m) + e))) as [mz ez].
apply binary_round_aux_pos. apply Hexp.
unfold fexp, SpecFloat.emin, prec, emax. lia.
Qed.

Lemma binary_round_neg m e :
SFltb (S754_zero false) (binary_round prec emax true m e) = false.
Proof.
unfold binary_round.
destruct (shl_align m e (fexp prec emax (Z.pos (digits2_pos m) + e))) as [mz ez].
apply binary_round_aux_neg.
Qed.

Lemma positiveSF_ltb x : positiveSF x = true -> SFltb (S754_zero false) x = true.
Proof.
destruct x as [s|s| |s m e]; try destruct s; simpl; intros H;
  try discriminate; reflexivity.
Qed.

Lemma SFsub_sign m1 e1 m2 e2 :
bounded prec emax m1 e1 = true -> bounded prec emax m2 e2 = true ->
SFltb (S754_zero false)
      (SFsub prec emax (S754_finite false m1 e1) (S754_finite false m2 e2))
= (ord m2 e2 <? ord m1 e1).
Proof.
intros H1 H2.
destruct (bounded_facts _ _ H1) as (He1 & _).
destruct (bounded_facts _ _ H2) as (He2 & _).
unfold SFsub. cbv zeta. unfold cond_Zopp.
set (ez := Z.min e1 e2).
destruct (shl_align_spec m1 e1 ez ltac:(unfold ez; lia)) as [Ha _].
destruct (shl_align_spec m2 e2 ez ltac:(unfold ez; lia)) as [Hb _].
rewrite Ha, Hb.
assert (Hez : -1074 <= ez) by (unfold ez; lia).
assert (Hord : (Zpos m1 * 2 ^ (e1 - ez) - Zpos m2 * 2 ^ (e2 - ez)) * 2 ^ (ez + 1074)
               = ord m1 e1 - ord m2 e2).
{ unfold ord. rewrite Z.mul_sub_distr_r. rewrite <- !Z.mul_assoc.
  rewrite <- !Z.pow_add_r by (unfold ez; lia).
  replace (e1 - ez + (ez + 1074)) with (e1 + 1074) by lia.
  replace (e2 - ez + (ez + 1074)) with (e2 + 1074) by lia. reflexivity. }
assert (Hp : 0 < 2 ^ (ez + 1074)) by (apply Z.pow_pos_nonneg; lia).
destruct (Zpos m1 * 2 ^ (e1 - ez) - Zpos m2 * 2 ^ (e2 - ez)) as [|p|p] eqn:HM;
  unfold binary_normalize.
- simpl. symmetry. apply Z.ltb_ge. lia.
- rewrite positiveSF_ltb by now apply binary_round_pos.
  symmetry. apply Z.ltb_lt. nia.
- rewrite binary_round_neg. symmetry. apply Z.ltb_ge. nia.
Qed.

End Binary64.

(** ** From the specification of binary64 to the primitive operations *)

Lemma posFinite_bounded x m e :
  Prim2SF x = S754_finite false m e -> bounded prec emax m e = true.
Proof.
  intros H. pose proof (Prim2SF_valid x) as Hv. rewrite H in Hv. exact Hv.
Qed.

Lemma positive_area_posFinite a :
  Number_isFinite a = true -> (0 <? a)%float = true -> posFinite a.
Proof.
  unfold Number_isFinite, is_finite, is_nan, is_infinity.
  rewrite ltb_spec, !eqb_spec, abs_spec.
  change (Prim2SF 0) with (S754_zero false).
  change (Prim2SF infinity) with (S754_infinity false).
  unfold posFinite.
  destruct (Prim2SF a) as [s|s| |s m e]; try destruct s; simpl; intros H1 H2;
    try discriminate.
  now exists m, e.
Qed.

Lemma leb_ordF a b :
  posFinite a -> posFinite b -> (a <=? b)%float = (ordF a <=? ordF b)%Z.
Proof.
  intros (ma & ea & Ha) (mb & eb & Hb). rewrite leb_spec. unfold ordF, SFleb.
  rewrite Ha, Hb.
  rewrite SFcompare_pos by (eapply posFinite_bounded; eassumption).
  unfold Z.leb. destruct (ord ma ea ?= ord mb eb)%Z; reflexivity.
Qed.

Lemma sub_sign_ordF a b :
  posFinite a -> posFinite b -> (0 <? a - b)%float = (ordF b <? ordF a)%Z.
Proof.
  intros (ma & ea & Ha) (mb & eb & Hb). rewrite ltb_spec, sub_spec. unfold ordF.
  change (Prim2SF 0) with (S754_zero false). rewrite Ha, Hb.
  apply SFsub_sign; eapply posFinite_bounded; eassumption.
Qed.

(* ===================================================================== *)
(** * 12. The geometry index and the hit test *)
(* ===================================================================== *)

(** ** [Array.prototype.sort] with the comparator [a.area - b.area] *)
Section SortByKey.
Context {A : Type}.
Variable key : A -> float.

Let compare (a b : A) : float := (key a - key b)%float.
Let keyLe (a b : A) : Prop := (key a <=? key b)%float = true.
Let posKey (a : A) : Prop := posFinite (key a).

Lemma sortedInsert_perm (cmp : A -> A -> float) x l :
  Permutation (sortedInsert cmp x l) (x :: l).
Proof.
  induction l as [|y l IH]; simpl; [apply Permutation_refl|].
  destruct (0 <? cmp x y)%float; [|apply Permutation_refl].
  rewrite IH. apply perm_swap.
Qed.

Lemma Array_sort_perm (cmp : A -> A -> float) l : Permutation (Array_sort cmp l) l.
Proof.
  induction l as [|x l IH]; simpl; [constructor|].
  rewrite sortedInsert_perm. now constructor.
Qed.

Lemma sortedInsert_sorted x l :
  posKey x -> Forall posKey l ->
  StronglySorted keyLe l -> StronglySorted keyLe (sortedInsert compare x l).
Proof.
  intros Hx Hl Hs. induction Hs as [|y l Hs IH Hy]; simpl.
  - repeat constructor.
  - inversion Hl as [|? ? Hpy Hpl]; subst.
    unfold compare at 1. rewrite (sub_sign_ordF _ _ Hx Hpy).
    destruct (ordF (key y) <? ordF (key x))%Z eqn:E.
    + apply Z.ltb_lt in E. constructor; [now apply IH|].
      rewrite (sortedInsert_perm compare x l). constructor; [|assumption].
      unfold keyLe. rewrite (leb_ordF _ _ Hpy Hx). apply Z.leb_le. lia.
    + apply Z.ltb_ge in E. constructor; [now constructor|].
      constructor.
      * unfold keyLe. rewrite (leb_ordF _ _ Hx Hpy). now apply Z.leb_le.
      * rewrite Forall_forall in Hy, Hpl |- *. intros z Hz.
        specialize (Hy z Hz). specialize (Hpl z Hz).
        unfold keyLe in Hy |- *.
        rewrite (leb_ordF _ _ Hpy Hpl) in Hy. rewrite (leb_ordF _ _ Hx Hpl).
        apply Z.leb_le in Hy. apply Z.leb_le. lia.
Qed.

Lemma Array_sort_sorted l :
  Forall posKey l -> StronglySorted keyLe (Array_sort compare l).
Proof.
  induction l as [|x l IH]; intros Hl; simpl; [constructor|].
  inversion Hl as [|? ? Hx Hl']; subst.
  apply sortedInsert_sorted; auto.
  rewrite (Array_sort_perm compare l). assumption.
Qed.
End SortByKey.

(** ** [rectIndexAll] *)

Lemma finite_leb_zero a :
  Number_isFinite a = true -> (a <=? 0)%float = negb (0 <? a)%float.
Proof.
  unfold Number_isFinite, is_finite, is_nan, is_infinity.
  rewrite leb_spec, ltb_spec, !eqb_spec, abs_spec.
  change (Prim2SF 0) with (S754_zero false).
  change (Prim2SF infinity) with (S754_infinity false).
  destruct (Prim2SF a) as [s|s| |s m e]; try destruct s; simpl; intros H;
    try discriminate; reflexivity.
Qed.

Lemma skip_test_keep_test a :
  negb (Number_isFinite a) || (a <=? 0)%float
  = negb (Number_isFinite a && (0 <? a)%float).
Proof.
  destruct (Number_isFinite a) eqn:E; simpl; [|reflexivity].
  now apply finite_leb_zero.
Qed.

Lemma rectIndexAll_unfold tree :
  rectIndexAll tree =
  Array_sort (fun a b => (item_area a - item_area b)%float)
             (fold_left indexStep (Object_entries (nodesById tree)) []).
Proof. reflexivity. Qed.

Lemma fold_indexStep entries :
  forall items, fold_left indexStep entries items = items ++ resolvedItems entries.
Proof.
  induction entries as [|[id node] entries IH]; intros items; simpl.
  - now rewrite app_nil_r.
  - rewrite IH. destruct (getNodeRect node) as [rect|]; [|reflexivity].
    cbv zeta. rewrite skip_test_keep_test.
    destruct (Number_isFinite (width rect * height rect)
              && (0 <? width rect * height rect)%float); simpl.
    + now rewrite <- app_assoc.
    + reflexivity.
Qed.

Lemma rectIndexAll_sorted_resolved tree :
  rectIndexAll tree =
  Array_sort (fun a b => (item_area a - item_area b)%float)
             (resolvedItems (Object_entries (nodesById tree))).
Proof. rewrite rectIndexAll_unfold, fold_indexStep. reflexivity. Qed.

Lemma In_resolvedItems entries item :
  In item (resolvedItems entries) <->
  exists node,
    In (item_id item, node) entries /\
    getNodeRect node = Some (item_rect item) /\
    item_area item = (width (item_rect item) * height (item_rect item))%float /\
    Number_isFinite (item_area item) = true /\
    (0 <? item_area item)%float = true.
Proof.
  unfold resolvedItems. rewrite in_flat_map. split.
  - intros ([id node] & Hin & Hitem). simpl in Hitem.
    destruct (getNodeRect node) as [rect|] eqn:Hrect; [|contradiction].
    cbv zeta in Hitem.
    destruct (Number_isFinite (width rect * height rect)) eqn:Hfin;
      [|contradiction].
    destruct (0 <? width rect * height rect)%float eqn:Hpos; [|contradiction].
    destruct Hitem as [<-|[]]. exists node. simpl. auto.
  - intros (node & Hin & Hrect & Harea & Hfin & Hpos).
    exists (item_id item, node). split; [assumption|]. simpl.
    rewrite Hrect. cbv zeta. rewrite <- Harea, Hfin, Hpos. simpl. left.
    destruct item as [id rect area]. simpl in *. now subst.
Qed.

Lemma resolvedItems_posFinite entries :
  Forall (fun item => posFinite (item_area item)) (resolvedItems entries).
Proof.
  apply Forall_forall. intros item Hin.
  apply In_resolvedItems in Hin. destruct Hin as (_ & _ & _ & _ & Hfin & Hpos).
  now apply positive_area_posFinite.
Qed.

Lemma rectIndexAll_perm tree :
  Permutation (rectIndexAll tree) (resolvedItems (Object_entries (nodesById tree))).
Proof. rewrite rectIndexAll_sorted_resolved. apply Array_sort_perm. Qed.

Lemma rectIndexAll_sorted tree : StronglySorted areaLe (rectIndexAll tree).
Proof.
  rewrite rectIndexAll_sorted_resolved.
  apply (Array_sort_sorted item_area). apply resolvedItems_posFinite.
Qed.

Lemma StronglySorted_filter {A : Type} (R : A -> A -> Prop) (f : A -> bool) l :
  StronglySorted R l -> StronglySorted R (filter f l).
Proof.
  induction 1 as [|x l Hs IH Hx]; simpl; [constructor|].
  destruct (f x); [|assumption]. constructor; [assumption|].
  rewrite Forall_forall in Hx |- *. intros y Hy. apply filter_In in Hy. now apply Hx.
Qed.

Lemma rectIndexVisible_filter rectIndex hiddenById :
  exists f, rectIndexVisible rectIndex hiddenById = filter f rectIndex.
Proof.
  unfold rectIndexVisible. destruct (Object_keys hiddenById).
  - exists (fun _ => true). symmetry. apply forallb_filter_id.
    now apply forallb_forall.
  - eexists. reflexivity.
Qed.

(** ** [pickCandidatesAtPoint] *)

Lemma fold_pick rectIndex x y :
  forall candidates,
    fold_left
      (fun (candidates : list string) (item : RectItem) =>
         if containsPoint (item_rect item) x y then candidates ++ [item_id item]
         else candidates)
      rectIndex candidates
    = candidates ++ map item_id (hits rectIndex x y).
Proof.
  induction rectIndex as [|item rectIndex IH]; intros candidates; simpl.
  - now rewrite app_nil_r.
  - rewrite IH. destruct (containsPoint (item_rect item) x y); simpl.
    + now rewrite <- app_assoc.
    + reflexivity.
Qed.

Lemma pickCandidatesAtPoint_hits rectIndex x y :
  pickCandidatesAtPoint rectIndex x y = map item_id (hits rectIndex x y).
Proof. unfold pickCandidatesAtPoint. now rewrite fold_pick. Qed.

Lemma containsPoint_bounds r x y :
  containsPoint r x y = true <->
  (left r <=? x)%float = true /\ (x <=? left r + width r)%float = true /\
  (top r <=? y)%float = true /\ (y <=? top r + height r)%float = true.
Proof.
  unfold containsPoint. rewrite !andb_true_iff. tauto.
Qed.

(** C2. The geometry index of a tree is a rearrangement of the entries [{
    id, rect, area }] of the nodes whose rectangle resolves and whose area
    [width * height] is finite and above zero, one entry for each such
    binding of [nodesById], and it is sorted by ascending area. For every
    index shown (the full one, or the one without the hidden ids) and every
    point, [pickCandidatesAtPoint] returns the ids of exactly the entries
    whose rectangle contains the point, bounds included, in the order of the
    index, which is ascending in area; it returns the empty list exactly
    when no entry contains the point. On the two nested rectangles of the
    specification the candidates at [(15, 15)] are the inner id, then the
    outer id, and there is no candidate at [(500, 500)]. *)
Theorem geometry_index_and_hit_test :
  forall tree,
    Permutation (rectIndexAll tree) (resolvedItems (Object_entries (nodesById tree))) /\
    (forall item,
        In item (rectIndexAll tree) <->
        exists node,
          In (item_id item, node) (Object_entries (nodesById tree)) /\
          getNodeRect node = Some (item_rect item) /\
          item_area item = (width (item_rect item) * height (item_rect item))%float /\
          Number_isFinite (item_area item) = true /\
          (0 <? item_area item)%float = true) /\
    StronglySorted areaLe (rectIndexAll tree) /\
    (forall hiddenById x y,
        let rectIndex := rectIndexVisible (rectIndexAll tree) hiddenById in
        pickCandidatesAtPoint rectIndex x y = map item_id (hits rectIndex x y) /\
        (forall item,
            In item (hits rectIndex x y) <->
            In item rectIndex /\
            (left (item_rect item) <=? x)%float = true /\
            (x <=? left (item_rect item) + width (item_rect item))%float = true /\
            (top (item_rect item) <=? y)%float = true /\
            (y <=? top (item_rect item) + height (item_rect item))%float = true) /\
        StronglySorted areaLe (hits rectIndex x y) /\
        (pickCandidatesAtPoint rectIndex x y = [] <-> hits rectIndex x y = [])) /\
    pickCandidatesAtPoint (rectIndexAll nestedTree) 15 15 = ["innerId"; "outerId"] /\
    pickCandidatesAtPoint (rectIndexAll nestedTree) 500 500 = [].
Proof.
  intros tree. split; [apply rectIndexAll_perm|].
  split.
  { intros item. rewrite <- In_resolvedItems. split; intros H.
    - now apply (Permutation_in _ (rectIndexAll_perm tree)).
    - now apply (Permutation_in _ (Permutation_sym (rectIndexAll_perm tree))). }
  split; [apply rectIndexAll_sorted|].
  split; [|split; reflexivity].
  intros hiddenById x y rectIndex.
  split; [apply pickCandidatesAtPoint_hits|]. split; [|split].
  - intros item. unfold hits. rewrite filter_In, containsPoint_bounds. reflexivity.
  - unfold hits. apply StronglySorted_filter.
    destruct (rectIndexVisible_filter (rectIndexAll tree) hiddenById) as [f Hf].
    unfold rectIndex. rewrite Hf. apply StronglySorted_filter.
    apply rectIndexAll_sorted.
  - rewrite pickCandidatesAtPoint_hits.
    destruct (hits rectIndex x y); simpl; split; intros H;
      try reflexivity; discriminate.
Qed.

(* ===================================================================== *)
(** * 13. Repeated clicks: [onClickSvg] *)
(* ===================================================================== *)

Lemma Array_indexOf_absent l s : ~ In s l -> Array_indexOf l s = (-1)%Z.
Proof.
  induction l as [|x l IH]; simpl; intros H; [reflexivity|].
  destruct (String.eqb x s) eqn:E.
  - apply String.eqb_eq in E. exfalso. auto.
  - rewrite IH by auto. reflexivity.
Qed.

Lemma Array_indexOf_nth l :
  NoDup l ->
  forall i s, nth_error l i = Some s -> Array_indexOf l s = Z.of_nat i.
Proof.
  induction 1 as [|x l Hx Hnd IH]; intros i s Hnth.
  - destruct i; discriminate.
  - destruct i as [|i]; simpl in *.
    + injection Hnth as ->. now rewrite String.eqb_refl.
    + assert (Hne : String.eqb x s = false).
      { apply String.eqb_neq. intros ->. apply Hx. eapply nth_error_In; eauto. }
      rewrite Hne, (IH i s Hnth).
      destruct (Z.of_nat i <? 0)%Z eqn:E; [apply Z.ltb_lt in E; lia | lia].
Qed.

Lemma at_index_nth_error l i default s :
  nth_error l i = Some s -> at_index l (Z.of_nat i) default = s.
Proof.
  intros H. unfold at_index. rewrite Nat2Z.id. now apply nth_error_nth.
Qed.

Lemma NoDup_map_filter {A B : Type} (f : A -> B) (g : A -> bool) l :
  NoDup (map f l) -> NoDup (map f (filter g l)).
Proof.
  induction l as [|x l IH]; simpl; intros H; [constructor|].
  inversion H as [|? ? Hx Hl]; subst.
  destruct (g x); simpl; [|auto]. constructor; [|auto].
  intros Hin. apply Hx. apply in_map_iff in Hin. destruct Hin as (y & Hy & Hin).
  apply filter_In in Hin. apply in_map_iff. exists y. tauto.
Qed.

Lemma resolvedItems_ids_distinct entries :
  NoDup (map fst entries) -> NoDup (map item_id (resolvedItems entries)).
Proof.
  induction entries as [|[id node] entries IH]; simpl; intros H; [constructor|].
  inversion H as [|? ? Hid Hrest]; subst. rewrite map_app.
  assert (Hsub : forall k, In k (map item_id (resolvedItems entries)) ->
                           In k (map fst entries)).
  { intros k Hk. apply in_map_iff in Hk. destruct Hk as (item & <- & Hitem).
    apply In_resolvedItems in Hitem. destruct Hitem as (n & Hn & _).
    apply in_map_iff. exists (item_id item, n). auto. }
  destruct (getNodeRect node) as [rect|]; [|now apply IH].
  cbv zeta.
  destruct (Number_isFinite (width rect * height rect)
            && (0 <? width rect * height rect)%float); simpl; [|now apply IH].
  constructor; [|now apply IH]. intros Hin. apply Hid. now apply Hsub.
Qed.

Lemma rectIndexVisible_ids rectIndex hiddenById :
  NoDup (map item_id rectIndex) ->
  NoDup (map item_id (rectIndexVisible rectIndex hiddenById)) /\
  forall id, In id (map item_id (rectIndexVisible rectIndex hiddenById)) ->
             In id (map item_id rectIndex).
Proof.
  intros H. destruct (rectIndexVisible_filter rectIndex hiddenById) as [f ->].
  split; [now apply NoDup_map_filter|].
  intros id Hin. apply in_map_iff in Hin. destruct Hin as (y & Hy & Hin).
  apply filter_In in Hin. apply in_map_iff. exists y. tauto.
Qed.

Lemma rectIndexAll_ids tree :
  NoDup (keys (nodesById tree)) ->
  NoDup (map item_id (rectIndexAll tree)) /\
  forall id, In id (map item_id (rectIndexAll tree)) -> In id (keys (nodesById tree)).
Proof.
  intros H. split.
  - apply (Permutation_NoDup
             (Permutation_map item_id (Permutation_sym (rectIndexAll_perm tree)))).
    apply resolvedItems_ids_distinct.
    apply (Permutation_NoDup (Permutation_sym (Object_entries_keys_perm _))).
    exact H.
  - intros id Hin. apply in_map_iff in Hin. destruct Hin as (item & <- & Hitem).
    apply (Permutation_in _ (rectIndexAll_perm tree)) in Hitem.
    apply In_resolvedItems in Hitem. destruct Hitem as (n & Hn & _).
    apply (proj1 (Object_entries_In _ _)) in Hn.
    apply in_map_iff. exists (item_id item, n). auto.
Qed.

(** The candidates of a click on a parsed document are pairwise different
    non-empty ids. *)
Lemma candidates_distinct sketchJson tree hiddenById x y :
  parseLanhuTreeOwn sketchJson = Some tree ->
  let candidateIds :=
    pickCandidatesAtPoint (rectIndexVisible (rectIndexAll tree) hiddenById) x y in
  NoDup candidateIds /\ ~ In "" candidateIds.
Proof.
  intros Hparse candidateIds.
  run_invariants Hparse as HB _ _.
  pose proof (inv_nodup _ _ _ HB) as Hnd. simpl in Hnd.
  destruct (rectIndexAll_ids tree Hnd) as [Hall Hsub].
  destruct (rectIndexVisible_ids (rectIndexAll tree) hiddenById Hall) as [Hvis Hsub'].
  unfold candidateIds. rewrite pickCandidatesAtPoint_hits. unfold hits. split.
  - now apply NoDup_map_filter.
  - intros Hin.
    assert (Hkey : In "" (keys (nodesById tree))).
    { apply Hsub, Hsub'. apply in_map_iff in Hin. destruct Hin as (it & Hid & Hin).
      apply filter_In in Hin. apply in_map_iff. exists it. tauto. }
    apply (inv_truthy _ _ _ HB) in Hkey. discriminate.
Qed.

Lemma pickNext_cons first rest st :
  pickNext (first :: rest) st =
  let candidateIds := first :: rest in
  let sig := Array_join "|" candidateIds in
  mkPick (Some sig)
    (Some match selectedId st with
          | Some sel =>
              if match lastSig st with
                 | Some s => String.eqb s sig
                 | None => false
                 end && nonEmpty sel
              then
                let idx := Array_indexOf candidateIds sel in
                if (0 <=? idx)%Z && (idx <? Z.of_nat (List.length candidateIds) - 1)%Z
                then at_index candidateIds (idx + 1) first
                else if (0 <=? idx)%Z then at_index candidateIds idx first
                else first
              else first
          | None => first
          end).
Proof. reflexivity. Qed.

(** On own properties. Let the candidate list of a click hold pairwise
    different non-empty ids, as every candidate list of a parsed document
    does. When the signature of the list equals the one of the previous
    click and the selected id is the candidate at an index [i] that is not
    the last, the next selection is the candidate at [i + 1] (at the last
    index the selection stays). When the signature differs from the previous
    one, or nothing is selected, or the selected id is not a candidate, the
    next selection is the candidate at index 0. The signature of the list is
    remembered; a click that meets no candidate changes nothing. *)
Lemma repeated_click_own :
  (forall candidateIds st i sel,
      NoDup candidateIds -> ~ In "" candidateIds ->
      lastSig st = Some (Array_join "|" candidateIds) ->
      selectedId st = Some sel ->
      nth_error candidateIds i = Some sel ->
      S i < List.length candidateIds ->
      selectedId (pickNext candidateIds st) = nth_error candidateIds (S i)) /\
  (forall candidateIds st i sel,
      NoDup candidateIds -> ~ In "" candidateIds ->
      lastSig st = Some (Array_join "|" candidateIds) ->
      selectedId st = Some sel ->
      nth_error candidateIds i = Some sel ->
      S i = List.length candidateIds ->
      selectedId (pickNext candidateIds st) = Some sel) /\
  (forall first rest st,
      lastSig st <> Some (Array_join "|" (first :: rest)) ->
      selectedId (pickNext (first :: rest) st) = Some first) /\
  (forall first rest st,
      (forall sel, selectedId st = Some sel -> ~ In sel (first :: rest)) ->
      selectedId (pickNext (first :: rest) st) = Some first) /\
  (forall first rest st,
      lastSig (pickNext (first :: rest) st) = Some (Array_join "|" (first :: rest))) /\
  (forall st, pickNext [] st = st) /\
  (forall sketchJson,
      exists tree,
        parseLanhuTreeOwn sketchJson = Some tree /\
        forall hiddenById x y,
          let candidateIds :=
            pickCandidatesAtPoint (rectIndexVisible (rectIndexAll tree) hiddenById) x y in
          NoDup candidateIds /\ ~ In "" candidateIds).
Proof.
  assert (Hsel : forall candidateIds st i sel,
             NoDup candidateIds -> ~ In "" candidateIds ->
             lastSig st = Some (Array_join "|" candidateIds) ->
             selectedId st = Some sel ->
             nth_error candidateIds i = Some sel ->
             exists first rest,
               candidateIds = first :: rest /\
               selectedId (pickNext candidateIds st) =
               Some (if (Z.of_nat i <? Z.of_nat (List.length candidateIds) - 1)%Z
                     then at_index candidateIds (Z.of_nat i + 1) first
                     else at_index candidateIds (Z.of_nat i) first)).
  { intros candidateIds st i sel Hnd Hne Hsig Hsel Hnth.
    destruct candidateIds as [|first rest]; [destruct i; discriminate|].
    exists first, rest. split; [reflexivity|].
    rewrite pickNext_cons. cbv zeta. cbn [selectedId]. rewrite Hsel, Hsig.
    rewrite String.eqb_refl.
    assert (Hsel_ne : nonEmpty sel = true).
    { unfold nonEmpty. apply negb_true_iff. apply String.eqb_neq. intros ->.
      apply Hne. eapply nth_error_In; eauto. }
    rewrite Hsel_ne. cbn [andb].
    rewrite (Array_indexOf_nth _ Hnd i sel Hnth).
    assert (H0 : (0 <=? Z.of_nat i)%Z = true) by (apply Z.leb_le; lia).
    rewrite H0. cbn [andb].
    destruct (Z.of_nat i <? Z.of_nat (List.length (first :: rest)) - 1)%Z; reflexivity. }
  split; [|split; [|split; [|split; [|split; [|split]]]]].
  - intros candidateIds st i sel Hnd Hne Hsig Hs Hnth Hlt.
    destruct (Hsel _ _ _ _ Hnd Hne Hsig Hs Hnth) as (first & rest & -> & ->).
    assert (Hi : (Z.of_nat i <? Z.of_nat (List.length (first :: rest)) - 1)%Z = true)
      by (apply Z.ltb_lt; lia).
    rewrite Hi.
    destruct (nth_error (first :: rest) (S i)) as [next|] eqn:Hnext.
    + f_equal. replace (Z.of_nat i + 1)%Z with (Z.of_nat (S i)) by lia.
      now apply at_index_nth_error.
    + apply nth_error_None in Hnext. lia.
  - intros candidateIds st i sel Hnd Hne Hsig Hs Hnth Hlast.
    destruct (Hsel _ _ _ _ Hnd Hne Hsig Hs Hnth) as (first & rest & -> & ->).
    assert (Hi : (Z.of_nat i <? Z.of_nat (List.length (first :: rest)) - 1)%Z = false)
      by (apply Z.ltb_ge; lia).
    rewrite Hi. f_equal. now apply at_index_nth_error.
  - intros first rest st Hsig. rewrite pickNext_cons. cbv zeta. cbn [selectedId].
    destruct (selectedId st) as [sel|]; [|reflexivity].
    destruct (lastSig st) as [s|]; [|reflexivity].
    destruct (String.eqb s (Array_join "|" (first :: rest))) eqn:E; [|reflexivity].
    apply String.eqb_eq in E. subst. congruence.
  - intros first rest st Habsent. rewrite pickNext_cons. cbv zeta. cbn [selectedId].
    destruct (selectedId st) as [sel|]; [|reflexivity].
    rewrite (Array_indexOf_absent _ _ (Habsent sel eq_refl)).
    destruct (match lastSig st with
              | Some s => String.eqb s (Array_join "|" (first :: rest))
              | None => false
              end && nonEmpty sel); reflexivity.
  - intros first rest st. reflexivity.
  - intros st. reflexivity.
  - intros sketchJson.
    destruct (parseLanhuTreeOwn_invariants sketchJson) as (tree & Hparse & _).
    exists tree. split; [assumption|]. intros hiddenById x y.
    now apply (candidates_distinct sketchJson).
Qed.

(* ===================================================================== *)
(** * 14. Containment export: [exportVisuallyContainedOwn] *)
(* ===================================================================== *)

Lemma Set_has_In s x : Set_has s x = true <-> In x s.
Proof.
  unfold Set_has. rewrite existsb_exists. split.
  - intros (y & Hy & E). apply String.eqb_eq in E. now subst.
  - intros H. exists x. split; [assumption | apply String.eqb_refl].
Qed.

Lemma In_Set_add x s y : In y (Set_add x s) <-> y = x \/ In y s.
Proof.
  unfold Set_add. destruct (Set_has s x) eqn:E.
  - apply Set_has_In in E. split; [auto|]. intros [->|H]; assumption.
  - rewrite in_app_iff. simpl. intuition auto.
Qed.

Lemma NoDup_Set_add x s : NoDup s -> NoDup (Set_add x s).
Proof.
  intros H. unfold Set_add. destruct (Set_has s x) eqn:E; [assumption|].
  assert (Hx : ~ In x s).
  { intros Hin. apply Set_has_In in Hin. congruence. }
  apply NoDup_app; [assumption | repeat constructor; simpl; tauto|].
  intros y Hy [<-|[]]. contradiction.
Qed.

Lemma fold_includeStep containerRect rectIndex :
  forall included,
    NoDup included ->
    NoDup (fold_left (includeStep containerRect) rectIndex included) /\
    forall id,
      In id (fold_left (includeStep containerRect) rectIndex included) <->
      In id included \/
      exists item, In item rectIndex /\ item_id item = id /\
                   isRectInside (item_rect item) containerRect = true.
Proof.
  induction rectIndex as [|item rectIndex IH]; intros included Hnd; simpl.
  - split; [assumption|]. intros id. split; [auto|].
    intros [H|(it & [] & _)]. assumption.
  - assert (Hnd' : NoDup (includeStep containerRect included item)).
    { unfold includeStep. destruct (isRectInside _ _); [now apply NoDup_Set_add|assumption]. }
    destruct (IH _ Hnd') as [H1 H2]. split; [assumption|].
    intros id. rewrite H2. unfold includeStep.
    destruct (isRectInside (item_rect item) containerRect) eqn:E.
    + rewrite In_Set_add. split.
      * intros [[->|H]|(it & Hin & Hid & Hins)]; eauto 7.
      * intros [H|(it & [<-|Hin] & Hid & Hins)]; eauto 7.
    + split.
      * intros [H|(it & Hin & Hid & Hins)]; eauto 7.
      * intros [H|(it & [<-|Hin] & Hid & Hins)]; eauto 7. congruence.
Qed.

Lemma containedIds_spec rectIndex containerRect selectedId :
  NoDup (containedIds rectIndex containerRect selectedId) /\
  forall id,
    In id (containedIds rectIndex containerRect selectedId) <->
    id = selectedId \/
    exists item, In item rectIndex /\ item_id item = id /\
                 isRectInside (item_rect item) containerRect = true.
Proof.
  unfold containedIds.
  change (fun (included : list string) (item : RectItem) =>
            if isRectInside (item_rect item) containerRect
            then Set_add (item_id item) included
            else included) with (includeStep containerRect).
  destruct (fold_includeStep containerRect rectIndex [] (NoDup_nil _)) as [H1 H2].
  split; [now apply NoDup_Set_add|].
  intros id. rewrite In_Set_add, H2. simpl. tauto.
Qed.

Lemma isRectInside_bounds inner outer :
  isRectInside inner outer = true <->
  (left outer - 0.01 <=? left inner)%float = true /\
  (top outer - 0.01 <=? top inner)%float = true /\
  (left inner + width inner <=? left outer + width outer + 0.01)%float = true /\
  (top inner + height inner <=? top outer + height outer + 0.01)%float = true.
Proof.
  unfold isRectInside. cbv zeta. rewrite !andb_true_iff. tauto.
Qed.

Lemma sampleTree_E : lookup "E" (nodesById sampleTree) = Some (Layer (Some "E") None []).
Proof. reflexivity. Qed.

(* ===================================================================== *)
(** * 15. Reading a record through its enumeration *)
(* ===================================================================== *)

Section EnumerationFacts.
Context {A : Type}.
Implicit Types (o : JsRecord A) (k : string).

Lemma lookup_insertByIndex (kv : string * A) (l : list (string * A)) k :
  lookup k (insertByIndex kv l) =
  if String.eqb k (fst kv) then Some (snd kv) else lookup k l.
Proof.
  destruct kv as [k0 v0]. induction l as [|[k' v'] l IH]; simpl; [reflexivity|].
  destruct (indexValue k0 <=? indexValue k')%N eqn:E; simpl; [reflexivity|].
  rewrite IH. simpl.
  destruct (String.eqb k k') eqn:E'; [|reflexivity].
  destruct (String.eqb k k0) eqn:E0; [|reflexivity].
  apply String.eqb_eq in E', E0. subst. rewrite N.leb_refl in E. discriminate.
Qed.

Lemma lookup_sortByIndex (l : list (string * A)) k :
  lookup k (sortByIndex l) = lookup k l.
Proof.
  induction l as [|[k' v'] l IH]; simpl; [reflexivity|].
  rewrite lookup_insertByIndex, IH. reflexivity.
Qed.

Lemma lookup_app o o' k :
  lookup k (o ++ o') =
  match lookup k o with
  | Some v => Some v
  | None => lookup k o'
  end.
Proof.
  induction o as [|[k' v'] o IH]; simpl; [reflexivity|].
  destruct (String.eqb k k'); auto.
Qed.

Lemma lookup_filter_key (g : string -> bool) o k :
  lookup k (filter (fun kv => g (fst kv)) o) = if g k then lookup k o else None.
Proof.
  induction o as [|[k' v'] o IH]; simpl; [now destruct (g k)|].
  destruct (String.eqb k k') eqn:E.
  - apply String.eqb_eq in E. subst k'.
    destruct (g k) eqn:G; simpl; [now rewrite String.eqb_refl | exact IH].
  - destruct (g k'); simpl; [rewrite E|]; exact IH.
Qed.

(** A property read does not depend on the order of the enumeration. *)
Lemma lookup_Object_entries o k : lookup k (Object_entries o) = lookup k o.
Proof.
  unfold Object_entries. rewrite lookup_app, lookup_sortByIndex.
  rewrite (lookup_filter_key isArrayIndex).
  rewrite (lookup_filter_key (fun k => negb (isArrayIndex k))).
  destruct (isArrayIndex k); simpl; [now destruct (lookup k o) | reflexivity].
Qed.

Lemma lookup_delete o k k' :
  lookup k' (delete k o) = if String.eqb k' k then None else lookup k' o.
Proof.
  unfold delete. rewrite (lookup_filter_key (fun x => negb (String.eqb k x))).
  rewrite (String.eqb_sym k k'). now destruct (String.eqb k' k).
Qed.
End EnumerationFacts.

(* ===================================================================== *)
(** * 16. Hiding and showing layers of the wireframe *)
(* ===================================================================== *)

Lemma isHidden_spread hiddenById id : isHidden (spread hiddenById) id = isHidden hiddenById id.
Proof. unfold isHidden, read, spread. now rewrite lookup_Object_entries. Qed.

Lemma isHidden_hideId selectedId hiddenById id :
  isHidden (hideId selectedId hiddenById) id =
  if String.eqb id selectedId then true else isHidden hiddenById id.
Proof.
  unfold hideId. destruct (isHidden hiddenById selectedId) eqn:E.
  - destruct (String.eqb id selectedId) eqn:E'; [|reflexivity].
    apply String.eqb_eq in E'. now subst.
  - destruct (String.eqb id selectedId) eqn:E'.
    + apply String.eqb_eq in E'. subst. unfold isHidden, read.
      now rewrite lookup_assign_eq.
    + apply String.eqb_neq in E'. unfold isHidden, read.
      rewrite lookup_assign_neq by assumption.
      apply isHidden_spread.
Qed.

(** After [unhideSelectedInWireframe] the read [hiddenById[selectedId]]
    finds no own property: it is falsy unless [selectedId] names a member
    of [Object.prototype]. *)
Lemma isHidden_unhideId selectedId hiddenById id :
  protoName selectedId = false ->
  isHidden (unhideId selectedId hiddenById) id =
  if String.eqb id selectedId then false else isHidden hiddenById id.
Proof.
  intros Hplain.
  unfold unhideId. destruct (isHidden hiddenById selectedId) eqn:E; simpl.
  - unfold isHidden at 1. unfold read. rewrite lookup_delete.
    destruct (String.eqb id selectedId) eqn:E'.
    + apply String.eqb_eq in E'. subst id. now rewrite Hplain.
    + apply isHidden_spread.
  - destruct (String.eqb id selectedId) eqn:E'; [|reflexivity].
    apply String.eqb_eq in E'. now subst.
Qed.

Lemma plainIds_In ids id : plainIds ids = true -> In id ids -> protoName id = false.
Proof.
  unfold plainIds. intros H Hin. rewrite forallb_forall in H.
  specialize (H id Hin). now destruct (protoName id).
Qed.

Lemma isHidden_no_keys hiddenById id :
  Object_keys hiddenById = [] -> isHidden hiddenById id = protoName id.
Proof.
  intros E. unfold isHidden, read.
  destruct (lookup id hiddenById) as [b|] eqn:L; [|now destruct (protoName id)].
  apply lookup_Some_key in L.
  apply (Permutation_in _ (Permutation_sym (Object_entries_keys_perm hiddenById))) in L.
  unfold Object_keys in E. unfold keys in L. rewrite E in L. contradiction.
Qed.

(** The visible index is the index without the entries of the hidden
    ids, whether or not [hiddenById] has keys, when no id of the index
    names a member of [Object.prototype]. *)
Lemma rectIndexVisible_hidden rectIndex hiddenById :
  plainIds (map item_id rectIndex) = true ->
  rectIndexVisible rectIndex hiddenById =
  filter (fun x => negb (isHidden hiddenById (item_id x))) rectIndex.
Proof.
  intros Hplain.
  unfold rectIndexVisible. destruct (Object_keys hiddenById) as [|k ks] eqn:E; [|reflexivity].
  symmetry. apply forallb_filter_id. apply forallb_forall. intros x Hx.
  rewrite (isHidden_no_keys _ _ E).
  rewrite (plainIds_In _ _ Hplain); [reflexivity|]. now apply in_map.
Qed.

Lemma filter_ext_eq {A : Type} (f g : A -> bool) l :
  (forall x, f x = g x) -> filter f l = filter g l.
Proof. intros H. apply filter_ext_in. auto. Qed.

Lemma filter_filter {A : Type} (f g : A -> bool) l :
  filter f (filter g l) = filter (fun x => g x && f x) l.
Proof.
  induction l as [|x l IH]; simpl; [reflexivity|].
  destruct (g x); simpl; [destruct (f x)|]; now rewrite IH.
Qed.

Lemma candidates_without rectIndex selectedId x y :
  pickCandidatesAtPoint
    (filter (fun item => negb (String.eqb (item_id item) selectedId)) rectIndex) x y =
  filter (fun id => negb (String.eqb id selectedId)) (pickCandidatesAtPoint rectIndex x y).
Proof.
  rewrite !pickCandidatesAtPoint_hits. unfold hits.
  induction rectIndex as [|item l IH]; simpl; [reflexivity|].
  destruct (String.eqb (item_id item) selectedId) eqn:E; simpl.
  - destruct (containsPoint (item_rect item) x y); simpl; [rewrite E|]; exact IH.
  - destruct (containsPoint (item_rect item) x y); simpl; [rewrite E; simpl|];
      now rewrite IH.
Qed.

(** X1. Hiding the selected layer takes exactly the entries of that layer
    out of the visible index, so that the layer is no candidate of any
    click any more while the other candidates keep their order; showing it
    again, when it was not hidden before, gives back the visible index as
    it was, and showing all gives the whole index. This holds when neither
    the selected id nor an id of the index names a member of
    [Object.prototype]. A selected id that names one cannot be hidden:
    [prev[selectedId]] is that member, and the handler returns [prev] as
    it is; and an entry of the index whose id names one is not in the
    visible index as soon as [hiddenById] has a key. Without a selection
    (none, or the empty id) neither handler changes [hiddenById]. *)
Theorem hide_then_unhide_in_wireframe :
  (forall hiddenById,
      hideSelectedInWireframe None hiddenById = hiddenById /\
      hideSelectedInWireframe (Some "") hiddenById = hiddenById /\
      unhideSelectedInWireframe None hiddenById = hiddenById /\
      unhideSelectedInWireframe (Some "") hiddenById = hiddenById) /\
  (forall rectIndex hiddenById selectedId x y,
    nonEmpty selectedId = true ->
    protoName selectedId = false ->
    plainIds (map item_id rectIndex) = true ->
    let hidden := hideSelectedInWireframe (Some selectedId) hiddenById in
    rectIndexVisible rectIndex hidden =
      filter (fun item => negb (String.eqb (item_id item) selectedId))
             (rectIndexVisible rectIndex hiddenById) /\
    ~ In selectedId (pickCandidatesAtPoint (rectIndexVisible rectIndex hidden) x y) /\
    pickCandidatesAtPoint (rectIndexVisible rectIndex hidden) x y =
      filter (fun id => negb (String.eqb id selectedId))
             (pickCandidatesAtPoint (rectIndexVisible rectIndex hiddenById) x y) /\
    (isHidden hiddenById selectedId = false ->
     rectIndexVisible rectIndex (unhideSelectedInWireframe (Some selectedId) hidden) =
       rectIndexVisible rectIndex hiddenById) /\
    rectIndexVisible rectIndex (unhideAllInWireframe hidden) = rectIndex) /\
  (forall hiddenById selectedId,
    protoName selectedId = true ->
    lookup selectedId hiddenById = None ->
    hideSelectedInWireframe (Some selectedId) hiddenById = hiddenById) /\
  (forall rectIndex hiddenById item,
    protoName (item_id item) = true ->
    lookup (item_id item) hiddenById = None ->
    Object_keys hiddenById <> [] ->
    ~ In item (rectIndexVisible rectIndex hiddenById)).
Proof.
  split; [intros hiddenById; repeat split; reflexivity|].
  split; [|split].
  2:{ intros hiddenById selectedId Hproto Hnone.
      unfold hideSelectedInWireframe, hideId, isHidden, read.
      rewrite Hnone, Hproto. now destruct (nonEmpty selectedId). }
  2:{ intros rectIndex hiddenById item Hproto Hnone Hkeys Hin.
      unfold rectIndexVisible in Hin.
      destruct (Object_keys hiddenById); [congruence|].
      apply filter_In in Hin. destruct Hin as [_ Hin].
      unfold isHidden, read in Hin. rewrite Hnone, Hproto in Hin. discriminate. }
  intros rectIndex hiddenById selectedId x y Hne Hsel Hplain hidden.
  assert (Hvis : rectIndexVisible rectIndex hidden =
                 filter (fun item => negb (String.eqb (item_id item) selectedId))
                        (rectIndexVisible rectIndex hiddenById)).
  { unfold hidden, hideSelectedInWireframe. rewrite Hne.
    rewrite !rectIndexVisible_hidden by assumption.
    rewrite filter_filter. apply filter_ext_eq.
    intros item. rewrite isHidden_hideId.
    destruct (String.eqb (item_id item) selectedId); simpl;
      [now rewrite andb_false_r | now rewrite andb_true_r]. }
  split; [exact Hvis|]. split; [|split; [|split]].
  - rewrite pickCandidatesAtPoint_hits, Hvis. intros Hin.
    apply in_map_iff in Hin. destruct Hin as (item & Hid & Hin).
    unfold hits in Hin. apply filter_In in Hin. destruct Hin as [Hin _].
    apply filter_In in Hin. destruct Hin as [_ Hin].
    rewrite Hid, String.eqb_refl in Hin. discriminate.
  - rewrite Hvis. apply candidates_without.
  - intros Hvisible. unfold hidden, hideSelectedInWireframe, unhideSelectedInWireframe.
    rewrite Hne. rewrite !rectIndexVisible_hidden by assumption. apply filter_ext_eq.
    intros item. rewrite isHidden_unhideId by assumption. rewrite isHidden_hideId.
    destruct (String.eqb (item_id item) selectedId) eqn:E; [|reflexivity].
    apply String.eqb_eq in E. now rewrite E, Hvisible.
  - reflexivity.
Qed.

(* ===================================================================== *)
(** * 17. The tree of a document whose ids are pairwise different *)
(* ===================================================================== *)

(** ** Induction on a node and the nodes below it *)
Section NodeInduction.
Variable P : LanhuLayerNode -> Prop.
Hypothesis Hlayer :
  forall node,
    Forall (fun elem => match elem with Some child => P child | None => True end)
           (layersOf node) ->
    P node.

Fixpoint node_nested_ind (node : LanhuLayerNode) : P node :=
  match node with
  | Layer id layers props =>
      Hlayer (Layer id layers props)
        (match layers as l
               return Forall (fun elem => match elem with
                                          | Some child => P child
                                          | None => True
                                          end)
                             (layersOf (Layer id l props)) with
         | Some elems =>
             (fix go (l : list (option LanhuLayerNode))
                : Forall (fun elem => match elem with
                                      | Some child => P child
                                      | None => True
                                      end) l :=
                match l with
                | [] => Forall_nil _
                | elem :: rest =>
                    Forall_cons elem
                      (match elem as e
                             return match e with Some child => P child | None => True end
                       with
                       | Some child => node_nested_ind child
                       | None => I
                       end)
                      (go rest)
                end) elems
         | None => Forall_nil _
         end)
  end.
End NodeInduction.

Lemma nodesBelow_layersOf node : nodesBelow node = nodesOfElems (layersOf node).
Proof. destruct node as [id [elems|] props]; reflexivity. Qed.

Lemma idsBelow_layersOf node : idsBelow node = idsOfElems (layersOf node).
Proof. destruct node as [id [elems|] props]; reflexivity. Qed.

Lemma nodesOfElem_cases elem :
  (nodesOfElem elem = [] /\ childOfElem elem = [] /\ idsOfElem elem = []) \/
  exists node id, elem = Some node /\ node_id node = Some id /\ nonEmpty id = true /\
                  nodesOfElem elem = (id, node) :: nodesBelow node /\
                  childOfElem elem = [(id, node)] /\
                  idsOfElem elem = id :: idsBelow node.
Proof.
  destruct elem as [node|]; [|now left]. simpl.
  destruct (node_id node) as [id|] eqn:Hid; [|now left].
  destruct (nonEmpty id) eqn:Hne; [|now left].
  right. exists node, id. auto 7.
Qed.

Lemma keys_nodesOfElem elem : map fst (nodesOfElem elem) = idsOfElem elem.
Proof.
  assert (H : forall node, map fst (nodesBelow node) = idsBelow node).
  { induction node as [node IH] using node_nested_ind.
    rewrite nodesBelow_layersOf, idsBelow_layersOf.
    induction IH as [|e elems Helem _ IHelems]; [reflexivity|].
    unfold nodesOfElems, idsOfElems in *. simpl. rewrite map_app, IHelems. f_equal.
    destruct e as [child|]; [|reflexivity]. simpl.
    destruct (node_id child) as [id|]; [|reflexivity].
    destruct (nonEmpty id); [|reflexivity]. simpl. now rewrite Helem. }
  destruct elem as [node|]; [|reflexivity]. simpl.
  destruct (node_id node) as [id|]; [|reflexivity].
  destruct (nonEmpty id); [|reflexivity]. simpl. now rewrite H.
Qed.

Lemma keys_nodesOfElems elems : map fst (nodesOfElems elems) = idsOfElems elems.
Proof.
  unfold nodesOfElems, idsOfElems.
  induction elems as [|elem elems IH]; simpl; [reflexivity|].
  now rewrite map_app, keys_nodesOfElem, IH.
Qed.

Lemma keys_nodesBelow node : map fst (nodesBelow node) = idsBelow node.
Proof. rewrite nodesBelow_layersOf, idsBelow_layersOf. apply keys_nodesOfElems. Qed.

Lemma keys_registeredNodes sketchJson :
  map fst (registeredNodes sketchJson) = registeredIds sketchJson.
Proof. apply keys_nodesOfElem. Qed.

(** ** Frames *)

Lemma todoOf_cons p elems frames k :
  todoOf ((p, elems) :: frames) k = if String.eqb k p then elems else todoOf frames k.
Proof. unfold todoOf. simpl. now destruct (String.eqb k p). Qed.

Lemma todoOf_absent frames k : ~ In k (map fst frames) -> todoOf frames k = [].
Proof.
  intros H. unfold todoOf.
  now rewrite (proj2 (lookup_None_iff frames k) H).
Qed.

Lemma todoOf_pushLayers id node frames k :
  ~ In id (map fst frames) ->
  todoOf (pushLayers id (node_layers node) frames) k =
  if String.eqb k id then layersOf node else todoOf frames k.
Proof.
  intros Hfresh. unfold layersOf.
  destruct (node_layers node) as [[|x rest]|]; simpl; try apply todoOf_cons;
    (destruct (String.eqb k id) eqn:E; [|reflexivity]);
    apply String.eqb_eq in E; subst; now apply todoOf_absent.
Qed.

Lemma frames_pushLayers id layers frames p :
  In p (map fst (pushLayers id layers frames)) -> p = id \/ In p (map fst frames).
Proof.
  destruct layers as [[|x rest]|]; simpl; auto. intros [<-|H]; auto.
Qed.

Lemma NoDup_frames_pushLayers id layers frames :
  ~ In id (map fst frames) -> NoDup (map fst frames) ->
  NoDup (map fst (pushLayers id layers frames)).
Proof.
  intros Hfresh Hnd. destruct layers as [[|x rest]|]; simpl; auto.
  now constructor.
Qed.

Lemma pendingNodes_pushLayers id node frames :
  pendingNodes (pushLayers id (node_layers node) frames) =
  nodesBelow node ++ pendingNodes frames.
Proof. destruct node as [i [[|x rest]|] props]; reflexivity. Qed.

Lemma lookup_pushChild_eq parentId id children p :
  lookup p (pushChildOwn parentId id children) =
  if String.eqb p parentId
  then Some (match lookup parentId children with
             | Some l => l
             | None => []
             end ++ [id])
  else lookup p children.
Proof.
  unfold pushChildOwn. destruct (String.eqb p parentId) eqn:E.
  - apply String.eqb_eq in E. subst.
    destruct (lookup parentId children); now rewrite lookup_assign_eq.
  - apply String.eqb_neq in E.
    destruct (lookup parentId children); now rewrite lookup_assign_neq.
Qed.

Lemma nonEmptyList_value {A : Type} (l : list A) :
  match nonEmptyList l with
  | Some l' => l'
  | None => []
  end = l.
Proof. now destruct l. Qed.

Lemma nonEmptyList_snoc {A : Type} (l : list A) x :
  nonEmptyList (l ++ [x]) = Some (l ++ [x]).
Proof. now destruct l. Qed.

Lemma NoDup_In_lookup {A : Type} (o : JsRecord A) k v :
  NoDup (keys o) -> In (k, v) o -> lookup k o = Some v.
Proof.
  induction o as [|[k' v'] o IH]; simpl; intros Hnd Hin; [contradiction|].
  inversion Hnd as [|? ? Hk Hnd']; subst.
  destruct Hin as [[= -> ->]|Hin]; [now rewrite String.eqb_refl|].
  destruct (String.eqb k k') eqn:E; [|auto].
  apply String.eqb_eq in E. subst. exfalso. apply Hk.
  apply (in_map fst) in Hin. exact Hin.
Qed.

Section Structure.
Variable rootId : string.
Variable registered : list (string * LanhuLayerNode).
Hypothesis registered_distinct : NoDup (map fst registered).

Let J (st : BuildState) : Prop :=
  (BuildInv (map fst registered) st (stackIds (b_stack st)) /\
   DistinctInv (map fst registered) st (stackIds (b_stack st))) /\
  StructInv rootId registered (b_stack st) st.
Let K (parentId : string) (st : BuildState) (remaining : list (option LanhuLayerNode))
  : Prop :=
  ((In parentId (keys (b_nodesById st)) /\
    BuildInv (map fst registered) st (idsOfElems remaining ++ stackIds (b_stack st))) /\
   DistinctInv (map fst registered) st (idsOfElems remaining ++ stackIds (b_stack st))) /\
  StructInv rootId registered ((parentId, remaining) :: b_stack st) st.

Lemma struct_pop_frame st parentId nodes rest :
  b_stack st = (parentId, nodes) :: rest -> J st -> K parentId (popped st rest) nodes.
Proof.
  intros Hstack [[HB [Hperm Hrank]] HS]. split; [split|].
  - now apply build_pop_frame.
  - rewrite Hstack in Hperm. constructor; simpl; assumption.
  - rewrite Hstack in HS. destruct HS. constructor; simpl; assumption.
Qed.

Lemma struct_frame_done parentId st : K parentId st [] -> J st.
Proof.
  intros [[[_ HB] HD] [H1 H2 H3 H4 H5 H6]]. split; [split; assumption|].
  inversion H1 as [|? ? Hp Hnd]; subst.
  constructor; try assumption.
  intros k n Hk. destruct (H3 k n Hk) as (visited & Hl & Hc).
  exists visited. split; [|assumption]. rewrite Hl, todoOf_cons.
  destruct (String.eqb k parentId) eqn:E; [|reflexivity].
  apply String.eqb_eq in E. subst. now rewrite todoOf_absent.
Qed.

Lemma struct_visit_elem parentId st elem remaining :
  K parentId st (elem :: remaining) -> K parentId (visitOwn parentId st elem) remaining.
Proof.
  intros [HK HS]. split; [now apply distinct_visit_elem|].
  destruct HK as [[Hp HB] HD]. destruct HS as [H1 H2 H3 H4 H5 H6].
  inversion H1 as [|? ? Hpfresh Hnd]; subst.
  destruct (nodesOfElem_cases elem)
    as [(Hn & Hc & Hi)|(node & id & -> & Hid & Hne & Hn & Hc & Hi)].
  - rewrite (visitOwn_skip _ _ _ Hi). constructor; try assumption.
    + simpl in H2 |- *. unfold nodesOfElems in H2. simpl in H2.
      now rewrite Hn in H2.
    + intros k n Hk. destruct (H3 k n Hk) as (visited & Hl & Hch).
      rewrite todoOf_cons in Hl |- *.
      destruct (String.eqb k parentId) eqn:E.
      * exists (visited ++ [elem]). rewrite <- app_assoc. split; [exact Hl|].
        unfold childrenOfElems in *. rewrite flat_map_app. simpl.
        now rewrite Hc, !app_nil_r.
      * exists visited. auto.
  - rewrite (visitOwn_registered _ _ _ _ Hid Hne).
    assert (Hfresh : ~ In id (keys (b_nodesById st))).
    { pose proof (inv_perm _ _ _ HD) as Hperm.
      rewrite idsOfElems_cons, Hi in Hperm.
      pose proof (Permutation_NoDup (Permutation_sym Hperm) registered_distinct) as Hnd'.
      simpl in Hnd'. apply NoDup_remove_2 in Hnd'.
      intros Hin. apply Hnd'. apply in_app_iff. now left. }
    assert (Hframes : ~ In id (map fst (b_stack st))).
    { intros Hin. apply in_map_iff in Hin. destruct Hin as ([p ns] & <- & Hin).
      apply Hfresh. exact (inv_stack _ _ _ HB p ns Hin). }
    assert (Hpid : parentId <> id) by (intros ->; contradiction).
    assert (Hnochild : lookup id (b_childrenById st) = None).
    { destruct (lookup id (b_childrenById st)) as [l|] eqn:E; [|reflexivity].
      exfalso. apply Hfresh. exact (proj1 (inv_children _ _ _ HB id l E)). }
    assert (Hold : forall c, In c (keys (b_nodesById st)) -> c <> id)
      by (intros c Hc' ->; contradiction).
    constructor; simpl.
    + constructor.
      * intros Hin. apply frames_pushLayers in Hin. destruct Hin as [->|Hin]; auto.
      * now apply NoDup_frames_pushLayers.
    + rewrite assign_fresh by assumption. rewrite pendingNodes_pushLayers.
      rewrite <- H2. unfold pendingNodes at 2. cbn [flat_map snd].
      fold (pendingNodes (b_stack st)). unfold nodesOfElems at 2. cbn [flat_map].
      fold (nodesOfElems remaining). rewrite Hn.
      cbn [b_stack pendingNodes flat_map snd].
      fold (pendingNodes (b_stack st)).
      rewrite <- !app_assoc. apply Permutation_app_head. simpl. apply perm_skip.
      rewrite !app_assoc. apply Permutation_app_tail. apply Permutation_app_comm.
    + intros k n Hk. rewrite todoOf_cons, lookup_pushChild_eq.
      rewrite todoOf_pushLayers by assumption.
      destruct (String.eqb k id) eqn:Ekid.
      * apply String.eqb_eq in Ekid. subst k.
        rewrite lookup_assign_eq in Hk. injection Hk as <-.
        assert (E : String.eqb id parentId = false)
          by (apply String.eqb_neq; congruence).
        rewrite E. exists []. split; [reflexivity|]. exact Hnochild.
      * apply String.eqb_neq in Ekid.
        rewrite lookup_assign_neq in Hk by assumption.
        destruct (H3 k n Hk) as (visited & Hl & Hch).
        rewrite todoOf_cons in Hl.
        destruct (String.eqb k parentId) eqn:E.
        -- apply String.eqb_eq in E. subst k.
           exists (visited ++ [Some node]). rewrite <- app_assoc.
           split; [exact Hl|].
           unfold childrenOfElems in *. rewrite flat_map_app. cbn [flat_map].
           rewrite Hc, map_app. simpl.
           rewrite Hch, nonEmptyList_value. symmetry. apply nonEmptyList_snoc.
        -- exists visited. auto.
    + intros p l c Hl Hin. rewrite lookup_pushChild_eq in Hl.
      assert (Hcases : c = id /\ p = parentId \/
                       exists l', lookup p (b_childrenById st) = Some l' /\ In c l').
      { destruct (String.eqb p parentId) eqn:E.
        - apply String.eqb_eq in E. subst p. injection Hl as <-.
          apply in_app_iff in Hin. destruct Hin as [Hin|[<-|[]]]; [|now left].
          right. destruct (lookup parentId (b_childrenById st)) as [l'|];
            [|contradiction]. eauto.
        - right. eauto. }
      destruct Hcases as [[-> ->]|(l' & Hl' & Hin')].
      * apply lookup_assign_eq.
      * rewrite lookup_assign_neq.
        -- eauto.
        -- apply Hold. exact (proj2 (inv_children _ _ _ HB p l' Hl') c Hin').
    + intros c p Hc'. rewrite lookup_pushChild_eq.
      destruct (string_dec c id) as [->|Hneq].
      * rewrite lookup_assign_eq in Hc'. injection Hc' as <-.
        rewrite String.eqb_refl. eexists. split; [reflexivity|].
        apply in_app_iff. right. now left.
      * rewrite lookup_assign_neq in Hc' by assumption.
        destruct (H5 c p Hc') as (l & Hl & Hin).
        destruct (String.eqb p parentId) eqn:E.
        -- apply String.eqb_eq in E. subst p. rewrite Hl.
           eexists. split; [reflexivity|]. apply in_app_iff. now left.
        -- eauto.
    + rewrite lookup_assign_neq; [assumption|].
      apply Hold. rewrite <- (inv_keys _ _ _ HB). now apply lookup_Some_key in H6.
Qed.

Lemma buildLoopOwn_StructInv fuel st st' :
  J st -> buildLoopOwn fuel st = Some st' -> J st'.
Proof.
  apply (buildLoopOwn_invariant J K).
  - exact struct_pop_frame.
  - exact struct_visit_elem.
  - exact struct_frame_done.
Qed.
End Structure.

(** The run of [parseLanhuTreeOwn] on a document whose registered ids are
    pairwise different: either nothing is registered and the tree is empty,
    or the artboard is the one root and the invariants hold at the end. *)
Lemma parseLanhuTreeOwn_StructInv sketchJson tree :
  NoDup (registeredIds sketchJson) ->
  parseLanhuTreeOwn sketchJson = Some tree ->
  (registeredNodes sketchJson = [] /\ tree = emptyTree) \/
  exists rootId artboard,
    registeredNodes sketchJson = (rootId, artboard) :: nodesBelow artboard /\
    rootIds tree = [rootId] /\
    BuildInv (registeredIds sketchJson) (finalState tree) [] /\
    StructInv rootId (registeredNodes sketchJson) [] (finalState tree).
Proof.
  intros Hnd Hparse.
  destruct sketchJson as [[[id layers props]|]];
    [|left; split; [reflexivity | now injection Hparse as <-]].
  destruct id as [rootId|];
    [|left; split; [reflexivity | now injection Hparse as <-]].
  destruct (nonEmpty rootId) eqn:Hne.
  2:{ left. unfold parseLanhuTreeOwn, registeredNodes in *. simpl in *.
      rewrite Hne in *. split; [reflexivity | now injection Hparse as <-]. }
  right. exists rootId, (Layer (Some rootId) layers props).
  rewrite <- keys_registeredNodes in Hnd |- *.
  unfold parseLanhuTreeOwn, registeredNodes in *.
  cbn [artboard node_id node_layers nodesOfElem] in *. rewrite Hne in *.
  set (artboard := Layer (Some rootId) layers props) in *.
  set (st0 := mkBuild [(rootId, artboard)] [] [(rootId, None)]
                      (pushLayers rootId layers [])).
  change (mkBuild (assign rootId artboard []) [] (assign rootId None [])
                  (pushLayers rootId layers [])) with st0 in Hparse.
  set (registered := (rootId, artboard) :: nodesBelow artboard) in *.
  assert (Hstack0 : stackIds (b_stack st0) = idsBelow artboard).
  { unfold st0. simpl. change layers with (node_layers artboard).
    rewrite stackIds_pushLayers. apply app_nil_r. }
  assert (Hpending0 : pendingNodes (b_stack st0) = nodesBelow artboard).
  { unfold st0. simpl. change layers with (node_layers artboard).
    rewrite pendingNodes_pushLayers. apply app_nil_r. }
  assert (Hkeys : map fst registered = rootId :: idsBelow artboard).
  { unfold registered. cbn [map fst]. now rewrite keys_nodesBelow. }
  assert (HB0 : BuildInv (map fst registered) st0 (stackIds (b_stack st0))).
  { rewrite Hstack0, Hkeys. constructor; simpl.
    - reflexivity.
    - repeat constructor. simpl. tauto.
    - intros k [<-|[]]. assumption.
    - intros k n. destruct (String.eqb k rootId) eqn:E; [|discriminate].
      apply String.eqb_eq in E. subst. now intros [= <-].
    - discriminate.
    - intros c p. destruct (String.eqb c rootId); discriminate.
    - intros p ns Hin. destruct layers as [[|x rest]|]; simpl in Hin; try contradiction.
      destruct Hin as [[= <- _]|[]]. now left.
    - intros x. tauto. }
  assert (HD0 : DistinctInv (map fst registered) st0 (stackIds (b_stack st0))).
  { rewrite Hstack0, Hkeys. constructor; simpl.
    - apply Permutation_refl.
    - intros c p. destruct (String.eqb c rootId); discriminate. }
  assert (HS0 : StructInv rootId registered (b_stack st0) st0).
  { constructor.
    - unfold st0. simpl. apply NoDup_frames_pushLayers; [simpl; tauto | constructor].
    - rewrite Hpending0. apply Permutation_refl.
    - intros k n. unfold st0. simpl.
      destruct (String.eqb k rootId) eqn:E; [|discriminate].
      apply String.eqb_eq in E. subst k. intros [= <-]. exists []. split; [|reflexivity].
      change layers with (node_layers artboard).
      rewrite todoOf_pushLayers by (simpl; tauto). now rewrite String.eqb_refl.
    - discriminate.
    - intros c p. unfold st0. simpl. destruct (String.eqb c rootId); discriminate.
    - unfold st0. simpl. now rewrite String.eqb_refl. }
  destruct (buildLoopOwn (pushCount artboard) st0) as [st|] eqn:Hrun; [|discriminate].
  injection Hparse as <-.
  destruct (buildLoopOwn_StructInv rootId registered Hnd _ _ _
              (conj (conj HB0 HD0) HS0) Hrun) as [[HB HD] HS].
  assert (Hempty : b_stack st = []).
  { assert (Hfuel : stackWork (b_stack st0) <= pushCount artboard).
    { unfold st0. cbn [b_stack]. rewrite stackWork_pushLayers. unfold artboard.
      rewrite (pushCount_props _ _ [] props).
      change (stackWork []) with 0. lia. }
    destruct (buildLoopOwn_terminates _ _ Hfuel) as (st' & Hrun' & Hstack').
    congruence. }
  destruct st as [n c p s]. simpl in Hempty. subst s.
  split; [reflexivity|]. split; [reflexivity|]. unfold finalState. simpl.
  simpl in HB, HS. split; assumption.
Qed.

Section ParsedDocument.
Variable sketchJson : LanhuSketchJson.
Variable tree : LanhuTree.
Hypothesis ids_distinct : NoDup (registeredIds sketchJson).
Hypothesis parsed : parseLanhuTreeOwn sketchJson = Some tree.

Lemma parsed_nodes k n :
  lookup k (nodesById tree) = Some n <-> In (k, n) (registeredNodes sketchJson).
Proof.
  destruct (parseLanhuTreeOwn_StructInv _ _ ids_distinct parsed)
    as [[Hnone ->]|(rootId & artboard & _ & _ & HB & HS)].
  - rewrite Hnone. simpl. split; [discriminate | contradiction].
  - pose proof (s_nodes _ _ _ _ HS) as Hperm. simpl in Hperm. rewrite app_nil_r in Hperm.
    pose proof (inv_nodup _ _ _ HB) as Hnd. simpl in Hnd. split.
    + intros H. apply (Permutation_in _ Hperm). now apply lookup_Some_In.
    + intros H. apply NoDup_In_lookup; [assumption|].
      now apply (Permutation_in _ (Permutation_sym Hperm)).
Qed.

Lemma parsed_children k n :
  lookup k (nodesById tree) = Some n ->
  lookup k (childrenById tree) = nonEmptyList (childIds n).
Proof.
  intros Hk.
  destruct (parseLanhuTreeOwn_StructInv _ _ ids_distinct parsed)
    as [[Hnone ->]|(rootId & artboard & _ & _ & HB & HS)]; [discriminate|].
  destruct (s_children _ _ _ _ HS k n Hk) as (visited & Hl & Hc).
  unfold todoOf in Hl. simpl in Hl. rewrite app_nil_r in Hl. subst visited.
  exact Hc.
Qed.

Lemma parsed_childrenOf k n :
  lookup k (nodesById tree) = Some n -> childrenOfOwn tree k = childIds n.
Proof.
  intros Hk. unfold childrenOfOwn. rewrite (parsed_children k n Hk).
  apply nonEmptyList_value.
Qed.

Lemma parsed_parents k n c :
  lookup k (nodesById tree) = Some n ->
  (In c (childIds n) <-> lookup c (parentById tree) = Some (Some k)).
Proof.
  intros Hk. pose proof (parsed_children k n Hk) as Hc.
  destruct (parseLanhuTreeOwn_StructInv _ _ ids_distinct parsed)
    as [[Hnone ->]|(rootId & artboard & _ & _ & HB & HS)]; [discriminate|].
  split.
  - intros Hin. destruct (childIds n) as [|x l] eqn:E; [contradiction|].
    exact (s_parents _ _ _ _ HS k (x :: l) c Hc Hin).
  - intros Hp. destruct (s_children_of_parent _ _ _ _ HS c k Hp) as (l & Hl & Hin).
    simpl in Hl. rewrite Hc in Hl. destruct (childIds n); [discriminate|].
    injection Hl as <-. exact Hin.
Qed.

Lemma parsed_root r :
  In r (rootIds tree) -> lookup r (parentById tree) = Some None.
Proof.
  intros Hr.
  destruct (parseLanhuTreeOwn_StructInv _ _ ids_distinct parsed)
    as [[Hnone ->]|(rootId & artboard & _ & Hroots & HB & HS)]; [contradiction|].
  rewrite Hroots in Hr. destruct Hr as [<-|[]]. exact (s_root _ _ _ _ HS).
Qed.
End ParsedDocument.

(** On own properties. On a document whose registered ids are pairwise
    different the tree mirrors the document: [nodesById] maps an id to a
    node exactly when the document registers that node under that id;
    [childrenById] of a node lists the ids of its registered children in the
    order of [layers], and has no entry for a node without registered
    children; [parentById] of an id is [k] exactly when the id is one of the
    registered children of the node [k]; and the parent of the root is
    [null]. *)
Lemma parseLanhuTreeOwn_mirrors_document :
  forall sketchJson tree,
    NoDup (registeredIds sketchJson) ->
    parseLanhuTreeOwn sketchJson = Some tree ->
    (forall k n, lookup k (nodesById tree) = Some n <->
                 In (k, n) (registeredNodes sketchJson)) /\
    (forall k n, lookup k (nodesById tree) = Some n ->
                 lookup k (childrenById tree) = nonEmptyList (childIds n) /\
                 childrenOfOwn tree k = childIds n) /\
    (forall k n c, lookup k (nodesById tree) = Some n ->
                   (In c (childIds n) <->
                    lookup c (parentById tree) = Some (Some k))) /\
    (forall r, In r (rootIds tree) -> lookup r (parentById tree) = Some None).
Proof.
  intros sketchJson tree Hnd Hparse. split; [|split; [|split]].
  - intros k n. now apply parsed_nodes.
  - intros k n Hk. split.
    + now apply (parsed_children sketchJson).
    + now apply (parsed_childrenOf sketchJson).
  - intros k n c Hk. now apply (parsed_parents sketchJson).
  - intros r Hr. now apply (parsed_root sketchJson).
Qed.

(* ===================================================================== *)
(** * 18. The pre-order traversal: [getTreePreorderIdsOwn] *)
(* ===================================================================== *)

Lemma preorderLoopOwn_S fuel tree included top rest result :
  preorderLoopOwn (S fuel) tree included (top :: rest) result =
  preorderLoopOwn fuel tree included
    (fst (preorderStepOwn tree included top rest result))
    (snd (preorderStepOwn tree included top rest result)).
Proof. simpl. now destruct (preorderStepOwn tree included top rest result). Qed.

(** Entering a frame appends its id when it is included and then does what
    a frame at index 0 does. *)
Lemma preorderStepOwn_enter tree included id rest result :
  preorderStepOwn tree included (id, (-1)%Z) rest result =
  preorderStepOwn tree included (id, 0%Z) rest
    (if Set_has included id then result ++ [id] else result).
Proof. reflexivity. Qed.

Lemma preorderStepOwn_pop tree included id (j : nat) rest result :
  List.length (childrenOfOwn tree id) <= j ->
  preorderStepOwn tree included (id, Z.of_nat j) rest result = (rest, result).
Proof.
  intros H. unfold preorderStepOwn.
  replace (Z.of_nat j =? -1)%Z with false by (symmetry; apply Z.eqb_neq; lia).
  simpl andb. cbv iota. fold (childrenOfOwn tree id).
  replace (Z.of_nat (List.length (childrenOfOwn tree id)) <=? Z.of_nat j)%Z with true
    by (symmetry; apply Z.leb_le; lia).
  reflexivity.
Qed.

Lemma preorderStepOwn_push tree included id (j : nat) rest result child :
  nth_error (childrenOfOwn tree id) j = Some child ->
  preorderStepOwn tree included (id, Z.of_nat j) rest result =
  ((child, (-1)%Z) :: (id, Z.of_nat (S j)) :: rest, result).
Proof.
  intros H. unfold preorderStepOwn.
  replace (Z.of_nat j =? -1)%Z with false by (symmetry; apply Z.eqb_neq; lia).
  simpl andb. cbv iota. fold (childrenOfOwn tree id).
  assert (Hlt : j < List.length (childrenOfOwn tree id)).
  { apply nth_error_Some. congruence. }
  replace (Z.of_nat (List.length (childrenOfOwn tree id)) <=? Z.of_nat j)%Z with false
    by (symmetry; apply Z.leb_gt; lia).
  rewrite (at_index_nth_error _ _ _ _ H).
  replace (Z.of_nat j + 1)%Z with (Z.of_nat (S j)) by lia.
  reflexivity.
Qed.

Section PreorderOfDocument.
Variable sketchJson : LanhuSketchJson.
Variable tree : LanhuTree.
Hypothesis ids_distinct : NoDup (registeredIds sketchJson).
Hypothesis parsed : parseLanhuTreeOwn sketchJson = Some tree.
Variable included : list string.

(** The traversal of the node [node] with the id [id], and of what is
    below it. *)
Let traversed (node : LanhuLayerNode) : Prop :=
  forall id,
    incl ((id, node) :: nodesBelow node) (registeredNodes sketchJson) ->
    forall rest result fuel,
      preorderLoopOwn (2 * List.length (idsBelow node) + 1 + fuel) tree included
                   ((id, (-1)%Z) :: rest) result =
      preorderLoopOwn fuel tree included rest
                   (result ++ filter (Set_has included) (id :: idsBelow node)).

Lemma preorder_children id node :
  lookup id (nodesById tree) = Some node ->
  forall todo,
    Forall (fun elem => match elem with Some child => traversed child | None => True end)
           todo ->
    incl (nodesOfElems todo) (registeredNodes sketchJson) ->
    forall visited,
      layersOf node = visited ++ todo ->
      forall rest result fuel,
        preorderLoopOwn (2 * List.length (idsOfElems todo) + 1 + fuel) tree included
                     ((id, Z.of_nat (List.length (childrenOfElems visited))) :: rest)
                     result =
        preorderLoopOwn fuel tree included rest
                     (result ++ filter (Set_has included) (idsOfElems todo)).
Proof.
  intros Hnode.
  pose proof (parsed_childrenOf _ _ ids_distinct parsed _ _ Hnode) as Hchildren.
  induction 1 as [|elem todo Helem _ IH]; intros Hincl visited Hlayers rest result fuel.
  - change (2 * List.length (idsOfElems []) + 1 + fuel) with (S fuel).
    rewrite preorderLoopOwn_S, preorderStepOwn_pop.
    + simpl. now rewrite app_nil_r.
    + rewrite Hchildren. unfold childIds, childNodes. rewrite Hlayers, app_nil_r.
      now rewrite length_map.
  - assert (Hnext : layersOf node = (visited ++ [elem]) ++ todo)
      by now rewrite <- app_assoc.
    assert (Hincl' : incl (nodesOfElems todo) (registeredNodes sketchJson)).
    { intros x Hx. apply Hincl. unfold nodesOfElems. simpl. apply in_app_iff. now right. }
    specialize (IH Hincl' (visited ++ [elem]) Hnext).
    unfold childrenOfElems in IH. rewrite flat_map_app in IH. cbn [flat_map] in IH.
    rewrite app_nil_r in IH. rewrite idsOfElems_cons.
    destruct (nodesOfElem_cases elem)
      as [(Hn & Hc & Hi)|(child & c & -> & Hid & Hne & Hn & Hc & Hi)].
    + rewrite Hc, app_nil_r in IH. rewrite Hi. simpl app. apply IH.
    + rewrite Hc in IH. rewrite Hi.
      assert (Hnth : nth_error (childrenOfOwn tree id)
                               (List.length (childrenOfElems visited)) = Some c).
      { rewrite Hchildren. unfold childIds, childNodes, childrenOfElems.
        rewrite Hlayers, flat_map_app, map_app. cbn [flat_map]. rewrite Hc.
        rewrite nth_error_app2 by (rewrite length_map; unfold childrenOfElems; lia).
        rewrite length_map. unfold childrenOfElems. now rewrite Nat.sub_diag. }
      replace (2 * List.length ((c :: idsBelow child) ++ idsOfElems todo) + 1 + fuel)
        with (S ((2 * List.length (idsBelow child) + 1)
                 + (2 * List.length (idsOfElems todo) + 1 + fuel)))
        by (rewrite length_app; simpl; lia).
      rewrite preorderLoopOwn_S, (preorderStepOwn_push _ _ _ _ _ _ _ Hnth). cbn [fst snd].
      rewrite Helem.
      * replace (S (List.length (childrenOfElems visited)))
          with (List.length (flat_map childOfElem visited ++ [(c, child)]))
          by (rewrite length_app; unfold childrenOfElems; simpl; lia).
        rewrite IH. f_equal. rewrite filter_app, <- app_assoc. reflexivity.
      * intros x Hx. apply Hincl. unfold nodesOfElems. cbn [flat_map].
        rewrite Hn. apply in_app_iff. now left.
Qed.

Lemma preorder_node node : traversed node.
Proof.
  induction node as [node IH] using node_nested_ind.
  intros id Hincl rest result fuel.
  assert (Hnode : lookup id (nodesById tree) = Some node).
  { apply (parsed_nodes _ _ ids_distinct parsed). apply Hincl. now left. }
  replace (2 * List.length (idsBelow node) + 1 + fuel)
    with (S (2 * List.length (idsBelow node) + fuel)) by lia.
  rewrite preorderLoopOwn_S, preorderStepOwn_enter, <- preorderLoopOwn_S.
  replace (S (2 * List.length (idsBelow node) + fuel))
    with (2 * List.length (idsBelow node) + 1 + fuel) by lia.
  rewrite idsBelow_layersOf.
  rewrite (preorder_children id node Hnode (layersOf node) IH) with (visited := []).
  - simpl. destruct (Set_has included id); [|reflexivity].
    now rewrite <- app_assoc.
  - intros x Hx. apply Hincl. right. now rewrite nodesBelow_layersOf.
  - reflexivity.
Qed.
End PreorderOfDocument.

Lemma parsed_nodes_perm sketchJson tree :
  NoDup (registeredIds sketchJson) ->
  parseLanhuTreeOwn sketchJson = Some tree ->
  Permutation (nodesById tree) (registeredNodes sketchJson).
Proof.
  intros Hnd Hparse.
  destruct (parseLanhuTreeOwn_StructInv _ _ Hnd Hparse)
    as [[Hnone ->]|(rootId & artboard & _ & _ & HB & HS)].
  - rewrite Hnone. constructor.
  - pose proof (s_nodes _ _ _ _ HS) as Hperm. simpl in Hperm.
    now rewrite app_nil_r in Hperm.
Qed.

Lemma parsed_length sketchJson tree :
  NoDup (registeredIds sketchJson) ->
  parseLanhuTreeOwn sketchJson = Some tree ->
  List.length (nodesById tree) = List.length (registeredIds sketchJson).
Proof.
  intros Hnd Hparse.
  rewrite (Permutation_length (parsed_nodes_perm _ _ Hnd Hparse)).
  rewrite <- keys_registeredNodes. now rewrite length_map.
Qed.

Lemma preorderLoopOwn_done fuel tree included result :
  preorderLoopOwn fuel tree included [] result = Some result.
Proof. now destruct fuel. Qed.

(** The traversal of the tree of a document lists the included ids in
    document order, within twice as many iterations as there are nodes. *)
Lemma getTreePreorderIdsOwn_parsed sketchJson tree included fuel :
  NoDup (registeredIds sketchJson) ->
  parseLanhuTreeOwn sketchJson = Some tree ->
  2 * List.length (nodesById tree) <= fuel ->
  getTreePreorderIdsOwn fuel tree included =
  Some (filter (Set_has included) (registeredIds sketchJson)).
Proof.
  intros Hnd Hparse Hfuel.
  rewrite (parsed_length _ _ Hnd Hparse) in Hfuel.
  rewrite <- keys_registeredNodes in Hfuel |- *.
  destruct (parseLanhuTreeOwn_StructInv _ _ Hnd Hparse)
    as [[Hnone ->]|(rootId & artboard & Hreg & Hroots & HB & HS)].
  - rewrite Hnone. now destruct fuel.
  - unfold getTreePreorderIdsOwn. rewrite Hroots. cbn [map].
    pose proof (preorder_node _ _ Hnd Hparse included artboard rootId) as Hrun.
    rewrite Hreg in Hrun, Hfuel |- *. cbn [map fst List.length] in Hfuel |- *.
    rewrite keys_nodesBelow in Hfuel |- *.
    replace fuel with (2 * List.length (idsBelow artboard) + 1
                       + (fuel - (2 * List.length (idsBelow artboard) + 1))) by lia.
    rewrite Hrun by apply incl_refl.
    now rewrite preorderLoopOwn_done.
Qed.

(** ** The containment export of a document *)

Lemma exportNodesOwn_registered tree (l : list (string * LanhuLayerNode)) :
  (forall k n, In (k, n) l -> lookup k (nodesById tree) = Some n) ->
  exportNodesOwn tree (map fst l) = Some (map (fun kn => pickExportNode (snd kn)) l).
Proof.
  induction l as [|[k n] l IH]; intros H; simpl; [reflexivity|].
  rewrite (H k n (or_introl eq_refl)), IH; [reflexivity|].
  intros k' n' Hin. apply H. now right.
Qed.

Lemma filter_map_fst {A : Type} (f : string -> bool) (l : list (string * A)) :
  filter f (map fst l) = map fst (filter (fun kv => f (fst kv)) l).
Proof.
  induction l as [|[k v] l IH]; simpl; [reflexivity|].
  destruct (f k); simpl; now rewrite IH.
Qed.

Lemma exportIncludedOwn_exportIds fuel tree selectedId compactExport included :
  exportIncludedOwn fuel tree selectedId compactExport included =
  match getTreePreorderIdsOwn fuel tree included with
  | None => ExportOutOfFuel
  | Some ids => exportIdsOwn tree selectedId compactExport ids
  end.
Proof. reflexivity. Qed.

Lemma NoDup_incl_filter_perm (l reg : list string) :
  NoDup l -> NoDup reg -> incl l reg ->
  Permutation (filter (Set_has l) reg) l.
Proof.
  intros Hl Hreg Hincl. apply NoDup_Permutation; [now apply NoDup_filter | assumption|].
  intros x. rewrite filter_In, Set_has_In. split; [tauto | auto].
Qed.

(** On own properties. The containment export of a document whose registered
    ids are pairwise different, for a selected node whose rectangle
    resolves: it returns within twice as many iterations of the traversal as
    the tree has nodes, and it exports the registered nodes of the document
    whose id is the selected one or that of an index entry inside the
    container, each once and in document order; [count] is the number of
    these ids, every exported id has its node, and nothing is thrown. *)
Lemma exportVisuallyContainedOwn_exports_contained_nodes :
  forall sketchJson tree selectedId container containerRect fuel compactExport,
    NoDup (registeredIds sketchJson) ->
    parseLanhuTreeOwn sketchJson = Some tree ->
    lookup selectedId (nodesById tree) = Some container ->
    getNodeRect container = Some containerRect ->
    2 * List.length (nodesById tree) <= fuel ->
    let included := containedIds (rectIndexAll tree) containerRect selectedId in
    let exported :=
      filter (fun kn => Set_has included (fst kn)) (registeredNodes sketchJson) in
    let nodes := map (fun kn => pickExportNode (snd kn)) exported in
    Permutation (map fst exported) included /\
    List.length nodes = List.length included /\
    exportNodesOwn tree (map fst exported) = Some nodes /\
    exportVisuallyContainedOwn fuel (Some tree) (Some selectedId) compactExport =
      exportIdsOwn tree selectedId compactExport (map fst exported) /\
    exportVisuallyContainedOwn fuel (Some tree) (Some selectedId) false =
      ExportText
        (VObject [ ("selectedId", VString selectedId);
                   ("count", count_value (List.length included));
                   ("parentById",
                    VObject (fold_left
                               (fun (acc : JsRecord value) id =>
                                  assign id (parentValueOwn tree id) acc)
                               (map fst exported) []));
                   ("nodes", VArray nodes) ]).
Proof.
  intros sketchJson tree selectedId container containerRect fuel compactExport
         Hnd Hparse Hsel Hrect Hfuel included exported nodes.
  run_invariants Hparse as HB _ _.
  assert (Hkey : In selectedId (keys (nodesById tree))) by now apply lookup_Some_key in Hsel.
  assert (Hne : nonEmpty selectedId = true) by now apply (inv_truthy _ _ _ HB).
  assert (Hids : map fst exported =
                 filter (Set_has included) (registeredIds sketchJson)).
  { unfold exported. now rewrite <- filter_map_fst, keys_registeredNodes. }
  assert (Hperm : Permutation (map fst exported) included).
  { rewrite Hids. destruct (containedIds_spec (rectIndexAll tree) containerRect selectedId)
      as [Hincnd Hinc].
    apply NoDup_incl_filter_perm; [assumption | assumption|].
    intros id Hin. apply (parseLanhuTreeOwn_keys _ _ Hparse).
    apply Hinc in Hin. destruct Hin as [->|(item & Hitem & <- & _)]; [assumption|].
    pose proof (inv_nodup _ _ _ HB) as Hkeys. simpl in Hkeys.
    apply (proj2 (rectIndexAll_ids tree Hkeys)). now apply in_map. }
  assert (Hlen : List.length nodes = List.length included).
  { unfold nodes. rewrite length_map, <- (Permutation_length Hperm).
    now rewrite length_map. }
  assert (Hnodes : exportNodesOwn tree (map fst exported) = Some nodes).
  { apply exportNodesOwn_registered. intros k n Hin. unfold exported in Hin.
    apply filter_In in Hin. now apply (parsed_nodes sketchJson tree Hnd Hparse). }
  assert (Hexport : forall compact,
             exportVisuallyContainedOwn fuel (Some tree) (Some selectedId) compact =
             exportIdsOwn tree selectedId compact (map fst exported)).
  { intros compact. unfold exportVisuallyContainedOwn. rewrite Hne, Hsel, Hrect.
    rewrite exportIncludedOwn_exportIds.
    fold included. rewrite (getTreePreorderIdsOwn_parsed sketchJson) by assumption.
    now rewrite Hids. }
  split; [exact Hperm|]. split; [exact Hlen|]. split; [exact Hnodes|].
  split; [apply Hexport|].
  rewrite Hexport. unfold exportIdsOwn. rewrite Hnodes. cbv zeta. now rewrite Hlen.
Qed.

(* ===================================================================== *)
(** * 19. The nodes below a node: [getDescendantIdsOwn] *)
(* ===================================================================== *)

Lemma fold_enqueueChild childIds :
  forall queue result,
    fold_left enqueueChild childIds (queue, result) = (queue ++ childIds, result ++ childIds).
Proof.
  induction childIds as [|c l IH]; intros queue result; simpl.
  - now rewrite !app_nil_r.
  - unfold enqueueChild at 2. simpl. rewrite IH, <- !app_assoc. reflexivity.
Qed.

Lemma descendantsLoopOwn_S fuel tree id rest result :
  descendantsLoopOwn (S fuel) tree (id :: rest) result =
  descendantsLoopOwn fuel tree (rest ++ childrenOfOwn tree id) (result ++ childrenOfOwn tree id).
Proof. simpl. now rewrite fold_enqueueChild. Qed.

(** The nodes and the ids below a node, from its registered children. *)
Lemma nodesBelow_childNodes node :
  nodesBelow node = flat_map (fun kn => kn :: nodesBelow (snd kn)) (childNodes node).
Proof.
  rewrite nodesBelow_layersOf. unfold childNodes, childrenOfElems, nodesOfElems.
  induction (layersOf node) as [|elem elems IH]; simpl; [reflexivity|].
  rewrite flat_map_app, IH. f_equal.
  destruct (nodesOfElem_cases elem)
    as [(Hn & Hc & Hi)|(child & c & -> & Hid & Hne & Hn & Hc & Hi)];
    rewrite Hn, Hc; simpl; [reflexivity | now rewrite app_nil_r].
Qed.

Lemma idsBelow_childNodes node :
  idsBelow node = flat_map (fun kn => fst kn :: idsBelow (snd kn)) (childNodes node).
Proof.
  rewrite idsBelow_layersOf. unfold childNodes, childrenOfElems, idsOfElems.
  induction (layersOf node) as [|elem elems IH]; simpl; [reflexivity|].
  rewrite flat_map_app, IH. f_equal.
  destruct (nodesOfElem_cases elem)
    as [(Hn & Hc & Hi)|(child & c & -> & Hid & Hne & Hn & Hc & Hi)];
    rewrite Hi, Hc; simpl; [reflexivity | now rewrite app_nil_r].
Qed.

Lemma childNodes_layersOf node c child :
  In (c, child) (childNodes node) -> In (Some child) (layersOf node).
Proof.
  unfold childNodes, childrenOfElems. rewrite in_flat_map.
  intros (elem & Hin & Hc). destruct elem as [m|]; [|contradiction]. simpl in Hc.
  destruct (node_id m) as [id|]; [|contradiction].
  destruct (nonEmpty id); [|contradiction].
  destruct Hc as [[= _ ->]|[]]. exact Hin.
Qed.

(** The nodes below a registered node stand together in the document
    order, right behind the node. *)
Lemma nodesBelow_segment node :
  forall k n,
    In (k, n) (nodesBelow node) ->
    exists before after, nodesBelow node = before ++ (k, n) :: nodesBelow n ++ after.
Proof.
  induction node as [node IH] using node_nested_ind. intros k n Hin.
  rewrite Forall_forall in IH.
  rewrite nodesBelow_childNodes in Hin |- *.
  apply in_flat_map in Hin. destruct Hin as ([c child] & Hchild & Hin).
  destruct (in_split _ _ Hchild) as (l1 & l2 & Hsplit). rewrite Hsplit.
  rewrite flat_map_app. cbn [flat_map snd].
  destruct Hin as [[= -> ->]|Hin].
  - exists (flat_map (fun kn => kn :: nodesBelow (snd kn)) l1).
    exists (flat_map (fun kn => kn :: nodesBelow (snd kn)) l2). reflexivity.
  - pose proof (IH (Some child) (childNodes_layersOf _ _ _ Hchild) k n Hin)
      as (before & after & Hbelow).
    simpl snd in Hbelow. rewrite Hbelow.
    exists (flat_map (fun kn => kn :: nodesBelow (snd kn)) l1 ++ (c, child) :: before).
    exists (after ++ flat_map (fun kn => kn :: nodesBelow (snd kn)) l2).
    rewrite <- !app_assoc. simpl. rewrite <- !app_assoc. simpl.
    rewrite <- !app_assoc. reflexivity.
Qed.

Lemma registeredNodes_segment sketchJson k n :
  In (k, n) (registeredNodes sketchJson) ->
  exists before after,
    registeredNodes sketchJson = before ++ (k, n) :: nodesBelow n ++ after.
Proof.
  unfold registeredNodes.
  destruct (nodesOfElem_cases (artboard sketchJson))
    as [(Hn & _)|(root & r & _ & _ & _ & Hn & _)]; rewrite Hn; [contradiction|].
  intros [[= -> ->]|Hin].
  - exists [], []. now rewrite app_nil_r.
  - destruct (nodesBelow_segment root k n Hin) as (before & after & ->).
    exists ((r, root) :: before), after. reflexivity.
Qed.

Lemma flat_map_ids_perm (l : list (string * LanhuLayerNode)) :
  Permutation (flat_map (fun kn => fst kn :: idsBelow (snd kn)) l)
              (map fst l ++ flat_map (fun kn => idsBelow (snd kn)) l).
Proof.
  induction l as [|[k n] l IH]; simpl; [constructor|].
  apply perm_skip. rewrite IH. rewrite !app_assoc.
  apply Permutation_app_tail. apply Permutation_app_comm.
Qed.

Section DescendantsOfDocument.
Variable sketchJson : LanhuSketchJson.
Variable tree : LanhuTree.
Hypothesis ids_distinct : NoDup (registeredIds sketchJson).
Hypothesis parsed : parseLanhuTreeOwn sketchJson = Some tree.

(** The loop on a queue of registered nodes: one iteration for every node
    in the queue or below one of them. *)
Lemma descendantsLoopOwn_parsed :
  forall fuel (queue : list (string * LanhuLayerNode)) result,
    incl (flat_map (fun kn => kn :: nodesBelow (snd kn)) queue)
         (registeredNodes sketchJson) ->
    List.length (flat_map (fun kn => fst kn :: idsBelow (snd kn)) queue) <= fuel ->
    exists below,
      descendantsLoopOwn fuel tree (map fst queue) result = Some (result ++ below) /\
      Permutation below (flat_map (fun kn => idsBelow (snd kn)) queue).
Proof.
  induction fuel as [|fuel IH]; intros queue result Hincl Hfuel.
  - destruct queue as [|[k n] queue]; [|simpl in Hfuel; lia].
    exists []. rewrite app_nil_r. split; [reflexivity | constructor].
  - destruct queue as [|[k n] queue].
    + exists []. rewrite app_nil_r. split; [reflexivity | constructor].
    + assert (Hnode : lookup k (nodesById tree) = Some n).
      { apply (parsed_nodes _ _ ids_distinct parsed). apply Hincl. now left. }
      cbn [map fst]. rewrite descendantsLoopOwn_S.
      rewrite (parsed_childrenOf _ _ ids_distinct parsed _ _ Hnode).
      unfold childIds. rewrite <- map_app.
      destruct (IH (queue ++ childNodes n) (result ++ map fst (childNodes n)))
        as (below & Hrun & Hperm).
      * rewrite flat_map_app. intros x Hx. apply Hincl. cbn [flat_map snd].
        apply in_app_iff in Hx. destruct Hx as [Hx|Hx].
        -- right. apply in_app_iff. now right.
        -- right. apply in_app_iff. left. now rewrite nodesBelow_childNodes.
      * cbn [flat_map fst snd] in Hfuel. rewrite flat_map_app, length_app.
        rewrite <- idsBelow_childNodes. simpl in Hfuel. rewrite length_app in Hfuel. lia.
      * exists (map fst (childNodes n) ++ below). rewrite Hrun, <- app_assoc.
        split; [reflexivity|]. rewrite Hperm. cbn [flat_map snd].
        rewrite flat_map_app, idsBelow_childNodes.
        rewrite (flat_map_ids_perm (childNodes n)).
        rewrite <- !app_assoc. apply Permutation_app_head.
        apply Permutation_app_comm.
Qed.

Lemma getDescendantIdsOwn_parsed k n fuel includeSelf :
  lookup k (nodesById tree) = Some n ->
  List.length (nodesById tree) <= fuel ->
  exists below,
    getDescendantIdsOwn fuel tree k includeSelf =
      Some ((if includeSelf then [k] else []) ++ below) /\
    Permutation below (idsBelow n) /\
    NoDup (k :: below).
Proof.
  intros Hnode Hfuel.
  apply (parsed_nodes _ _ ids_distinct parsed) in Hnode.
  destruct (registeredNodes_segment _ _ _ Hnode) as (before & after & Hsplit).
  pose proof ids_distinct as Hnd. rewrite <- keys_registeredNodes, Hsplit in Hnd.
  rewrite map_app in Hnd. apply NoDup_app_remove_l in Hnd.
  cbn [map fst] in Hnd. rewrite map_app, keys_nodesBelow in Hnd.
  rewrite app_comm_cons in Hnd. apply NoDup_app_remove_r in Hnd.
  rewrite (parsed_length _ _ ids_distinct parsed) in Hfuel.
  rewrite <- keys_registeredNodes, Hsplit in Hfuel.
  rewrite !length_map, !length_app in Hfuel. cbn [List.length] in Hfuel.
  rewrite length_app, <- (length_map fst (nodesBelow n)), keys_nodesBelow in Hfuel.
  destruct (descendantsLoopOwn_parsed fuel [(k, n)] (if includeSelf then [k] else []))
    as (below & Hrun & Hperm).
  - cbn [flat_map snd]. rewrite app_nil_r. rewrite Hsplit. intros x Hx.
    apply in_app_iff. right. destruct Hx as [<-|Hx]; [now left|].
    right. apply in_app_iff. now left.
  - cbn [flat_map fst snd]. rewrite app_nil_r. simpl. lia.
  - cbn [flat_map snd] in Hperm. rewrite app_nil_r in Hperm.
    exists below. split; [exact Hrun|]. split; [exact Hperm|].
    apply (Permutation_NoDup (l := k :: idsBelow n)); [|assumption].
    apply perm_skip. now apply Permutation_sym.
Qed.
End DescendantsOfDocument.

(** An id without children: the loop ends after one iteration. *)
Lemma getDescendantIdsOwn_leaf fuel tree id includeSelf :
  lookup id (childrenById tree) = None ->
  getDescendantIdsOwn (S fuel) tree id includeSelf = Some (if includeSelf then [id] else []).
Proof.
  intros H. unfold getDescendantIdsOwn. rewrite descendantsLoopOwn_S.
  unfold childrenOfOwn. rewrite H. simpl. rewrite app_nil_r. now destruct fuel.
Qed.

(** What is already in [result] stays in front of what the loop adds. *)
Lemma descendantsLoopOwn_result tree :
  forall fuel queue result,
    descendantsLoopOwn fuel tree queue result =
    option_map (app result) (descendantsLoopOwn fuel tree queue []).
Proof.
  induction fuel as [|fuel IH]; intros queue result.
  - destruct queue; simpl; [now rewrite app_nil_r | reflexivity].
  - destruct queue as [|id rest]; [simpl; now rewrite app_nil_r|].
    rewrite !descendantsLoopOwn_S. rewrite IH.
    rewrite (IH _ ([] ++ childrenOfOwn tree id)). simpl.
    destruct (descendantsLoopOwn fuel tree (rest ++ childrenOfOwn tree id) []); simpl;
      [now rewrite app_assoc | reflexivity].
Qed.

Lemma getDescendantIdsOwn_includeSelf fuel tree rootId :
  getDescendantIdsOwn fuel tree rootId true =
  option_map (cons rootId) (getDescendantIdsOwn fuel tree rootId false).
Proof.
  unfold getDescendantIdsOwn. rewrite descendantsLoopOwn_result.
  now destruct (descendantsLoopOwn fuel tree [rootId] []).
Qed.

(* ===================================================================== *)
(** * 20. Ancestors and descendants in the tree of a document *)
(* ===================================================================== *)

(** An id below a node is the id of a child of that node, or of a child of
    a node below it. *)
Lemma below_has_parent node :
  forall d,
    In d (idsBelow node) ->
    In d (childIds node) \/
    exists p n, In (p, n) (nodesBelow node) /\ In d (childIds n).
Proof.
  induction node as [node IH] using node_nested_ind. intros d Hin.
  rewrite Forall_forall in IH.
  rewrite idsBelow_childNodes in Hin. apply in_flat_map in Hin.
  destruct Hin as ([c child] & Hchild & [<-|Hin]).
  - left. unfold childIds. now apply (in_map fst) in Hchild.
  - right. simpl in Hin.
    assert (Hsub : incl ((c, child) :: nodesBelow child) (nodesBelow node)).
    { intros x Hx. rewrite nodesBelow_childNodes. apply in_flat_map.
      exists (c, child). auto. }
    destruct (IH (Some child) (childNodes_layersOf _ _ _ Hchild) d Hin)
      as [Hd|(p & n & Hp & Hd)].
    + exists c, child. split; [apply Hsub; now left | exact Hd].
    + exists p, n. split; [apply Hsub; now right | exact Hd].
Qed.

Lemma childIds_below node c : In c (childIds node) -> In c (idsBelow node).
Proof.
  unfold childIds. intros Hin. apply in_map_iff in Hin.
  destruct Hin as ([c' child] & <- & Hin).
  rewrite idsBelow_childNodes. apply in_flat_map. exists (c', child). split; [assumption|].
  now left.
Qed.

Lemma last_cons_default {A : Type} (l : list A) :
  forall x d d', last (x :: l) d = last (x :: l) d'.
Proof.
  induction l as [|y l IH]; intros x d d'; [reflexivity|].
  change (last (x :: y :: l) d) with (last (y :: l) d).
  change (last (x :: y :: l) d') with (last (y :: l) d').
  apply IH.
Qed.

Section AncestorsOfDocument.
Variable sketchJson : LanhuSketchJson.
Variable tree : LanhuTree.
Hypothesis ids_distinct : NoDup (registeredIds sketchJson).
Hypothesis parsed : parseLanhuTreeOwn sketchJson = Some tree.

Lemma parsed_below_registered a n :
  lookup a (nodesById tree) = Some n ->
  incl (nodesBelow n) (registeredNodes sketchJson).
Proof.
  intros Hnode. apply (parsed_nodes _ _ ids_distinct parsed) in Hnode.
  destruct (registeredNodes_segment _ _ _ Hnode) as (before & after & ->).
  intros x Hx. apply in_app_iff. right. right. apply in_app_iff. now left.
Qed.

Lemma parsed_parentOf d p :
  parentOf tree d = Some p <-> lookup d (parentById tree) = Some (Some p).
Proof.
  split; [apply parentOf_isParent|]. intros H. unfold parentOf. rewrite H.
  run_invariants parsed as HB _ _.
  pose proof (inv_parents _ _ _ HB d p H) as Hp.
  now rewrite (inv_truthy _ _ _ HB p Hp).
Qed.

(** The parent of an id below a node is that node or is below it. *)
Lemma parsed_parent_below a n d :
  lookup a (nodesById tree) = Some n ->
  In d (idsBelow n) ->
  exists p, parentOf tree d = Some p /\ (p = a \/ In p (idsBelow n)).
Proof.
  intros Hnode Hd.
  destruct (below_has_parent n d Hd) as [Hchild|(p & m & Hp & Hchild)].
  - exists a. split; [|now left]. apply parsed_parentOf.
    now apply (parsed_parents _ _ ids_distinct parsed a n d Hnode).
  - exists p. split.
    + apply parsed_parentOf.
      apply (parsed_parents _ _ ids_distinct parsed p m d); [|assumption].
      apply (parsed_nodes _ _ ids_distinct parsed).
      now apply (parsed_below_registered a n).
    + right. rewrite <- keys_nodesBelow. now apply (in_map fst) in Hp.
Qed.

Lemma parsed_below_trans a n p m d :
  lookup a (nodesById tree) = Some n ->
  lookup p (nodesById tree) = Some m ->
  In p (idsBelow n) -> In d (idsBelow m) -> In d (idsBelow n).
Proof.
  intros Ha Hp Hpn Hdm.
  rewrite <- keys_nodesBelow in Hpn. apply in_map_iff in Hpn.
  destruct Hpn as ([p' m'] & Hfst & Hin). simpl in Hfst. subst p'.
  assert (m' = m).
  { pose proof (parsed_below_registered a n Ha _ Hin) as Hreg.
    apply (parsed_nodes _ _ ids_distinct parsed) in Hreg. congruence. }
  subst m'. destruct (nodesBelow_segment n p m Hin) as (before & after & Hsplit).
  rewrite <- keys_nodesBelow, Hsplit, map_app. apply in_app_iff. right.
  cbn [map fst]. right. rewrite map_app, keys_nodesBelow. apply in_app_iff. now left.
Qed.

(** The chain of the ancestors of [d] holds [a] exactly when [d] is below
    [a] in the document. *)
Lemma chain_below d chain :
  ancestorChain tree d chain ->
  forall a n,
    lookup a (nodesById tree) = Some n ->
    (In a chain <-> In d (idsBelow n)).
Proof.
  induction 1 as [d Hnone|d p chain Hparent _ IH]; intros a n Hnode.
  - split; [contradiction|]. intros Hd.
    destruct (parsed_parent_below a n d Hnode Hd) as (p & Hp & _). congruence.
  - assert (Hp : exists m, lookup p (nodesById tree) = Some m).
    { run_invariants parsed as HB _ _.
      apply parsed_parentOf in Hparent.
      pose proof (inv_parents _ _ _ HB d p Hparent) as Hin.
      destruct (lookup p (nodesById tree)) as [m|] eqn:E; [eauto|].
      apply lookup_None_iff in E. contradiction. }
    destruct Hp as (m & Hm).
    assert (Hchild : In d (childIds m)).
    { apply (parsed_parents _ _ ids_distinct parsed p m d Hm).
      now apply parsed_parentOf. }
    split.
    + intros [<-|Hin].
      * rewrite Hm in Hnode. injection Hnode as <-. now apply childIds_below.
      * apply (parsed_below_trans a n p m d Hnode Hm).
        -- now apply (IH a n Hnode).
        -- now apply childIds_below.
    + intros Hd.
      destruct (parsed_parent_below a n d Hnode Hd) as (p' & Hp' & Hcases).
      rewrite Hparent in Hp'. injection Hp' as <-.
      destruct Hcases as [->|Hbelow]; [now left|].
      right. now apply (IH a n Hnode).
Qed.

(** The chain of a node of the tree ends at the artboard. *)
Lemma chain_ends_at_root d chain :
  ancestorChain tree d chain ->
  In d (keys (nodesById tree)) ->
  forall r, In r (rootIds tree) -> last (d :: chain) d = r.
Proof.
  induction 1 as [d Hnone|d p chain Hparent Hchain IH]; intros Hd r Hr.
  - simpl.
    destruct (parseLanhuTreeOwn_StructInv _ _ ids_distinct parsed)
      as [[_ ->]|(rootId & artboard & Hreg & Hroots & HB & HS)]; [contradiction|].
    rewrite Hroots in Hr. destruct Hr as [<-|[]].
    apply (parseLanhuTreeOwn_keys _ _ parsed) in Hd.
    rewrite <- keys_registeredNodes, Hreg in Hd. cbn [map fst] in Hd.
    destruct Hd as [Hd|Hd]; [now symmetry|]. exfalso.
    rewrite keys_nodesBelow in Hd.
    assert (Hroot : lookup rootId (nodesById tree) = Some artboard).
    { apply (parsed_nodes _ _ ids_distinct parsed). rewrite Hreg. now left. }
    destruct (parsed_parent_below rootId artboard d Hroot Hd) as (p & Hp & _).
    congruence.
  - assert (Hp : In p (keys (nodesById tree))).
    { run_invariants parsed as HB _ _. apply parsed_parentOf in Hparent.
      exact (inv_parents _ _ _ HB d p Hparent). }
    specialize (IH Hp r Hr). rewrite <- IH.
    change (last (d :: p :: chain) d) with (last (p :: chain) d).
    apply last_cons_default.
Qed.
End AncestorsOfDocument.

Lemma getAncestorIdsOwn_parsed sketchJson tree id :
  NoDup (registeredIds sketchJson) ->
  parseLanhuTreeOwn sketchJson = Some tree ->
  exists chain, getAncestorIdsOwn tree id = Some chain /\ ancestorChain tree id chain.
Proof.
  intros Hnd Hparse.
  pose proof (parseLanhuTreeOwn_acyclic _ _ Hnd Hparse) as Hacyclic.
  destruct (ancestorsLoopOwn_acyclic tree Hacyclic (S (List.length (parentById tree)))
              id [] [] (NoDup_nil _)) as (chain & Hrun & Hchain).
  - intros v [].
  - simpl. lia.
  - exists chain. split; assumption.
Qed.

(** On own properties. On the tree of a document whose registered ids are
    pairwise different, [getAncestorIdsOwn] returns for every id, and it is
    the converse of [getDescendantIdsOwn]: a node is in the chain of the
    ancestors of [id] exactly when [id] is registered below that node in the
    document, which is exactly when [id] is among the descendants of that
    node. The chain of a node of the tree ends at the root, and the chain of
    an id that is no node of the tree is empty. *)
Lemma ancestors_descendants_own :
  forall sketchJson tree,
    NoDup (registeredIds sketchJson) ->
    parseLanhuTreeOwn sketchJson = Some tree ->
    forall id,
      exists chain,
        getAncestorIdsOwn tree id = Some chain /\
        (forall ancestor node,
            lookup ancestor (nodesById tree) = Some node ->
            (In ancestor chain <-> In id (idsBelow node))) /\
        (forall ancestor fuel below,
            In ancestor (keys (nodesById tree)) ->
            List.length (nodesById tree) <= fuel ->
            getDescendantIdsOwn fuel tree ancestor false = Some below ->
            (In ancestor chain <-> In id below)) /\
        (In id (keys (nodesById tree)) ->
         forall rootId, In rootId (rootIds tree) -> last (id :: chain) id = rootId) /\
        (~ In id (keys (nodesById tree)) -> chain = []).
Proof.
  intros sketchJson tree Hnd Hparse id.
  destruct (getAncestorIdsOwn_parsed _ _ id Hnd Hparse) as (chain & Hrun & Hchain).
  exists chain. split; [exact Hrun|]. split; [|split; [|split]].
  - intros ancestor node Hnode. now apply (chain_below sketchJson tree Hnd Hparse).
  - intros ancestor fuel below Hkey Hfuel Hbelow.
    destruct (lookup ancestor (nodesById tree)) as [node|] eqn:Hnode.
    2:{ apply lookup_None_iff in Hnode. contradiction. }
    destruct (getDescendantIdsOwn_parsed _ _ Hnd Hparse ancestor node fuel false Hnode Hfuel)
      as (below' & Hrun' & Hperm & _).
    rewrite Hbelow in Hrun'. injection Hrun' as ->.
    rewrite (chain_below sketchJson tree Hnd Hparse id chain Hchain ancestor node Hnode).
    split; apply Permutation_in; [now apply Permutation_sym | assumption].
  - intros Hkey rootId Hroot.
    now apply (chain_ends_at_root sketchJson tree Hnd Hparse).
  - intros Hout. inversion Hchain as [? Hnone|? p chain' Hparent Hrest]; [reflexivity|].
    exfalso. subst. apply parentOf_isParent in Hparent. apply lookup_Some_key in Hparent.
    run_invariants Hparse as HB _ _. pose proof (inv_keys _ _ _ HB) as E. simpl in E.
    rewrite E in Hparent. contradiction.
Qed.

(* ===================================================================== *)
(** * 21. [compactJson] on its own results *)
(* ===================================================================== *)

Lemma enumLe_index k1 k2 :
  isArrayIndex k1 = true -> isArrayIndex k2 = true ->
  enumLe k1 k2 = (indexValue k1 <=? indexValue k2)%N.
Proof.
  unfold isArrayIndex, enumLe, indexValue.
  destruct (arrayIndex k1); [|discriminate]. destruct (arrayIndex k2); [|discriminate].
  reflexivity.
Qed.

Lemma enumLe_other k1 k2 : isArrayIndex k2 = false -> enumLe k1 k2 = true.
Proof.
  unfold isArrayIndex, enumLe. destruct (arrayIndex k2); [discriminate|].
  now destruct (arrayIndex k1).
Qed.

Lemma enumLe_other_left k1 k2 :
  isArrayIndex k1 = false -> enumLe k1 k2 = true -> isArrayIndex k2 = false.
Proof.
  unfold isArrayIndex, enumLe. destruct (arrayIndex k1); [discriminate|].
  now destruct (arrayIndex k2).
Qed.

Lemma StronglySorted_app {A : Type} (R : A -> A -> Prop) l1 l2 :
  StronglySorted R l1 -> StronglySorted R l2 ->
  (forall a b, In a l1 -> In b l2 -> R a b) ->
  StronglySorted R (l1 ++ l2).
Proof.
  induction 1 as [|x l1 Hs IH Hx]; intros H2 Hcross; simpl; [assumption|].
  constructor.
  - apply IH; [assumption|]. intros a b Ha Hb. apply Hcross; [now right | assumption].
  - apply Forall_app. split; [assumption|].
    apply Forall_forall. intros b Hb. apply Hcross; [now left | assumption].
Qed.

Section EnumerationOrder.
Context {A : Type}.
Implicit Types (o : JsRecord A).

Lemma insertByIndex_sorted (kv : string * A) (l : list (string * A)) :
  StronglySorted (fun a b => (indexValue (fst a) <= indexValue (fst b))%N) l ->
  StronglySorted (fun a b => (indexValue (fst a) <= indexValue (fst b))%N)
                 (insertByIndex kv l).
Proof.
  induction 1 as [|x l Hs IH Hx]; simpl; [repeat constructor|].
  destruct (indexValue (fst kv) <=? indexValue (fst x))%N eqn:E.
  - apply N.leb_le in E. constructor; [now constructor|].
    constructor; [assumption|]. rewrite Forall_forall in Hx |- *.
    intros y Hy. specialize (Hx y Hy). lia.
  - apply N.leb_gt in E. constructor; [assumption|].
    rewrite Forall_forall in Hx |- *. intros y Hy.
    apply (Permutation_in _ (insertByIndex_perm kv l)) in Hy.
    destruct Hy as [<-|Hy]; [lia | auto].
Qed.

Lemma sortByIndex_sorted (l : list (string * A)) :
  StronglySorted (fun a b => (indexValue (fst a) <= indexValue (fst b))%N)
                 (sortByIndex l).
Proof.
  induction l as [|kv l IH]; simpl; [constructor | now apply insertByIndex_sorted].
Qed.

Lemma StronglySorted_keys (R : string -> string -> Prop) (l : list (string * A)) :
  StronglySorted (fun a b => R (fst a) (fst b)) l -> StronglySorted R (keys l).
Proof.
  induction 1 as [|x l Hs IH Hx]; simpl; constructor; [assumption|].
  rewrite Forall_forall in Hx |- *. intros k Hk. apply in_map_iff in Hk.
  destruct Hk as (y & <- & Hy). auto.
Qed.

(** An enumeration is in the order of enumerations. *)
Lemma Object_entries_ordered o : enumOrdered (Object_entries o).
Proof.
  unfold enumOrdered, Object_entries. apply StronglySorted_keys.
  apply StronglySorted_app.
  - assert (Hidx : forall kv,
               In kv (sortByIndex (filter (fun kv => isArrayIndex (fst kv)) o)) ->
               isArrayIndex (fst kv) = true).
    { intros kv Hin. apply (Permutation_in _ (sortByIndex_perm _)) in Hin.
      now apply filter_In in Hin. }
    pose proof (sortByIndex_sorted (filter (fun kv => isArrayIndex (fst kv)) o)) as Hs.
    induction Hs as [|x l Hs IH Hx]; constructor.
    + apply IH. intros kv Hin. apply Hidx. now right.
    + rewrite Forall_forall in Hx |- *. intros y Hy.
      rewrite enumLe_index; [|apply Hidx; now left | apply Hidx; now right].
      apply N.leb_le. auto.
  - induction o as [|kv o IH]; simpl; [constructor|].
    destruct (isArrayIndex (fst kv)) eqn:E; simpl; [assumption|].
    constructor; [assumption|]. apply Forall_forall. intros y Hy.
    apply filter_In in Hy. apply enumLe_other.
    destruct Hy as [_ Hy]. now destruct (isArrayIndex (fst y)).
  - intros a b _ Hb. apply filter_In in Hb. apply enumLe_other.
    destruct Hb as [_ Hb]. now destruct (isArrayIndex (fst b)).
Qed.

(** A record whose keys stand in the order of enumerations is its own
    enumeration. *)
Lemma Object_entries_of_ordered o : enumOrdered o -> Object_entries o = o.
Proof.
  unfold enumOrdered. induction o as [|[k v] o IH]; intros Hs; [reflexivity|].
  simpl in Hs. inversion Hs as [|? ? Hs' Hk]; subst.
  specialize (IH Hs'). unfold Object_entries in *. simpl.
  destruct (isArrayIndex k) eqn:E; simpl.
  - rewrite <- IH at 3.
    destruct (sortByIndex (filter (fun kv => isArrayIndex (fst kv)) o))
      as [|[k' v'] rest] eqn:Es; [reflexivity|].
    simpl.
    assert (Hin : In (k', v') (filter (fun kv => isArrayIndex (fst kv)) o)).
    { apply (Permutation_in _ (sortByIndex_perm _)). rewrite Es. now left. }
    apply filter_In in Hin. destruct Hin as [Hin Hidx]. simpl in Hidx.
    rewrite Forall_forall in Hk. specialize (Hk k' (in_map fst _ _ Hin)).
    rewrite enumLe_index in Hk by assumption. now rewrite Hk.
  - assert (Hnone : forall kv, In kv o -> isArrayIndex (fst kv) = false).
    { intros kv Hin. rewrite Forall_forall in Hk.
      apply (enumLe_other_left k); [assumption|]. apply Hk. now apply in_map. }
    assert (Hf1 : filter (fun kv => isArrayIndex (fst kv)) o = []).
    { clear - Hnone. induction o as [|kv o IH]; [reflexivity|]. simpl.
      rewrite (Hnone kv (or_introl eq_refl)). apply IH.
      intros x Hx. apply Hnone. now right. }
    assert (Hf2 : filter (fun kv => negb (isArrayIndex (fst kv))) o = o).
    { clear - Hnone. induction o as [|kv o IH]; [reflexivity|]. simpl.
      rewrite (Hnone kv (or_introl eq_refl)). simpl. f_equal. apply IH.
      intros x Hx. apply Hnone. now right. }
    now rewrite Hf1, Hf2.
Qed.
End EnumerationOrder.

(** What the loop of the object branch builds is in the order of
    enumerations when the bindings it reads are. *)
Lemma fold_compactStep_ordered entries :
  forall next,
    StronglySorted (fun k1 k2 => enumLe k1 k2 = true) (keys entries) ->
    enumOrdered next ->
    (forall k e, In k (keys next) -> In e (keys entries) -> enumLe k e = true) ->
    enumOrdered (fold_left compactStep entries next).
Proof.
  induction entries as [|[k cv] entries IH]; intros next Hs Hnext Hcross; [assumption|].
  simpl in Hs. inversion Hs as [|? ? Hs' Hk]; subst. rewrite Forall_forall in Hk.
  simpl. apply IH; [assumption| |].
  - unfold compactStep, write. simpl. destruct (isDefined cv); [|assumption].
    destruct (String.eqb k "__proto__"); [assumption|].
    unfold enumOrdered. destruct (in_dec string_dec k (keys next)) as [Hin|Hout].
    + now rewrite keys_assign_present.
    + rewrite keys_assign_fresh by assumption.
      apply StronglySorted_app; [assumption | repeat constructor|].
      intros a b Ha [<-|[]]. apply Hcross; [assumption | now left].
  - intros k' e Hk' He. unfold compactStep, write in Hk'. simpl in Hk'.
    destruct (isDefined cv); [destruct (String.eqb k "__proto__")|].
    + apply Hcross; [assumption | now right].
    + apply in_keys_assign in Hk'. destruct Hk' as [->|Hk']; [now apply Hk|].
      apply Hcross; [assumption | now right].
    + apply Hcross; [assumption | now right].
Qed.

Lemma fold_compactStep_Forall (P : string * value -> Prop) entries :
  Forall (fun kcv => keepsField kcv = true -> P kcv) entries ->
  forall next, Forall P next -> Forall P (fold_left compactStep entries next).
Proof.
  induction 1 as [|[k cv] entries Hv _ IH]; intros next Hnext; simpl; [assumption|].
  apply IH. unfold compactStep, write, keepsField in *. simpl in *.
  destruct (isDefined cv); [|assumption].
  destruct (String.eqb k "__proto__"); [assumption|].
  apply Forall_assign; auto.
Qed.

Lemma fold_compactStep_NoDup entries :
  forall next, NoDup (keys next) -> NoDup (keys (fold_left compactStep entries next)).
Proof.
  induction entries as [|[k cv] entries IH]; intros next Hnext; simpl; [assumption|].
  apply IH. unfold compactStep, write. simpl. destruct (isDefined cv); [|assumption].
  destruct (String.eqb k "__proto__"); [assumption|].
  now apply NoDup_keys_assign.
Qed.

Lemma compactJson_object_kept next :
  Forall kept next -> NoDup (keys next) -> enumOrdered next ->
  compactJson (VObject next) =
  match next with
  | [] => VUndefined
  | _ :: _ => VObject next
  end.
Proof.
  intros Hkept Hnd Hord. rewrite compactJson_object.
  assert (Hfields : compactFields next = next).
  { unfold compactFields. clear Hnd Hord.
    induction Hkept as [|[k v] l [_ Hv] _ IH]; simpl; [reflexivity|].
    simpl in Hv. now rewrite Hv, IH. }
  rewrite Hfields, (Object_entries_of_ordered _ Hord).
  rewrite fold_compactStep_fresh; [|assumption | intros k []].
  simpl.
  assert (Hall : filter keepsField next = next).
  { clear Hnd Hord Hfields.
    induction Hkept as [|[k v] l [Hv _] _ IH]; simpl; [reflexivity|].
    now rewrite Hv, IH. }
  rewrite Hall. now destruct next.
Qed.

(** X7. [compactJson] is idempotent: compacting what it has returned
    changes nothing, neither the values nor the order of the keys. *)
Theorem compactJson_idempotent :
  forall v, compactJson (compactJson v) = compactJson v.
Proof.
  induction v as [| |b|n|s|items IH|fields IH] using value_nested_ind;
    try reflexivity.
  - rewrite compactJson_array.
    destruct (filter isDefined (map compactJson items)) as [|x rest] eqn:E; [reflexivity|].
    rewrite compactJson_array.
    assert (Hfix : Forall (fun y => isDefined y = true /\ compactJson y = y) (x :: rest)).
    { rewrite <- E. apply Forall_forall. intros y Hy. apply filter_In in Hy.
      destruct Hy as [Hy Hdef]. split; [assumption|].
      apply in_map_iff in Hy. destruct Hy as (v & <- & Hv).
      rewrite Forall_forall in IH. now apply IH. }
    assert (Hsame : filter isDefined (map compactJson (x :: rest)) = x :: rest).
    { clear E. induction Hfix as [|y l [Hdef Hy] _ IHl]; [reflexivity|].
      simpl. rewrite Hy, Hdef. f_equal. exact IHl. }
    now rewrite Hsame.
  - rewrite compactJson_object.
    set (next := fold_left compactStep (Object_entries (compactFields fields)) []).
    assert (Hkept : Forall kept next).
    { apply fold_compactStep_Forall; [|constructor].
      apply Forall_forall. intros [k cv] Hin Hdef. split; [exact Hdef|]. simpl.
      apply (proj1 (Object_entries_In _ _)) in Hin. unfold compactFields in Hin.
      apply in_map_iff in Hin. destruct Hin as ([k' v] & [= <- <-] & Hin).
      rewrite Forall_forall in IH. exact (IH (k', v) Hin). }
    assert (Hnd : NoDup (keys next)) by (apply fold_compactStep_NoDup; constructor).
    assert (Hord : enumOrdered next).
    { apply fold_compactStep_ordered.
      - apply Object_entries_ordered.
      - constructor.
      - intros k e []. }
    pose proof (compactJson_object_kept next Hkept Hnd Hord) as H.
    destruct next; [reflexivity | exact H].
Qed.

(* ===================================================================== *)
(** * 22. The root of a parsed document *)
(* ===================================================================== *)

Lemma Object_keys_nil {A : Type} (o : JsRecord A) : Object_keys o = [] <-> o = [].
Proof.
  split; [|now intros ->]. intros H.
  pose proof (Object_entries_keys_perm o) as Hperm. unfold Object_keys, keys in *.
  rewrite H in Hperm. apply Permutation_nil in Hperm.
  now destruct o.
Qed.

Lemma registeredIds_skipped sketchJson :
  registeredIds sketchJson = [] <-> skipped (artboard sketchJson) = true.
Proof.
  unfold registeredIds, skipped, registrable, idsOfElem.
  destruct (artboard sketchJson) as [node|]; [|tauto].
  destruct (node_id node) as [id|]; [|tauto].
  destruct (nonEmpty id); simpl; split; intros H; discriminate || reflexivity.
Qed.

(** What a document parses to: the empty tree when the artboard is
    skipped, and else a tree whose one root is the id of the artboard,
    which is a node of the tree. *)
Lemma parseLanhuTreeOwn_root sketchJson :
  (skipped (artboard sketchJson) = true /\ parseLanhuTreeOwn sketchJson = Some emptyTree) \/
  exists tree rootId root,
    artboard sketchJson = Some root /\ node_id root = Some rootId /\
    nonEmpty rootId = true /\
    parseLanhuTreeOwn sketchJson = Some tree /\
    rootIds tree = [rootId] /\
    In rootId (keys (nodesById tree)).
Proof.
  destruct (parseLanhuTreeOwn_invariants sketchJson) as (tree & Hparse & HB & Hroots & _).
  destruct sketchJson as [[root|]]; [|left; split; reflexivity].
  destruct (node_id root) as [rootId|] eqn:Hid.
  2:{ left. unfold skipped, registrable, parseLanhuTreeOwn. simpl. rewrite Hid.
      split; reflexivity. }
  destruct (nonEmpty rootId) eqn:Hne.
  2:{ left. unfold skipped, registrable, parseLanhuTreeOwn. simpl. rewrite Hid, Hne.
      split; reflexivity. }
  right. exists tree, rootId, root.
  assert (Hr : rootIds tree = [rootId]).
  { unfold parseLanhuTreeOwn in Hparse. simpl in Hparse. rewrite Hid, Hne in Hparse.
    destruct (buildLoopOwn _ _); [|discriminate]. now injection Hparse as <-. }
  repeat (split; [assumption || reflexivity|]).
  apply Hroots. rewrite Hr. now left.
Qed.

(* ===================================================================== *)
(** * 23. Candidates and exported ids are nodes *)
(* ===================================================================== *)

Lemma Array_indexOf_lt l s : (Array_indexOf l s < Z.of_nat (List.length l))%Z.
Proof.
  induction l as [|x l IH]; simpl; [lia|].
  destruct (String.eqb x s); [lia|].
  destruct (Array_indexOf l s <? 0)%Z eqn:E; [lia|]. apply Z.ltb_ge in E. lia.
Qed.

Lemma at_index_In l i first :
  (0 <= i < Z.of_nat (List.length l))%Z -> In (at_index l i first) l.
Proof.
  intros H. unfold at_index. apply nth_In. lia.
Qed.

(** A click on a point that has candidates selects one of them. *)
Lemma pickNext_selects_candidate candidateIds st :
  candidateIds <> [] ->
  exists id, selectedId (pickNext candidateIds st) = Some id /\ In id candidateIds.
Proof.
  destruct candidateIds as [|first rest]; [congruence|]. intros _.
  set (l := first :: rest). unfold pickNext. fold l. cbv zeta. cbn [selectedId].
  eexists. split; [reflexivity|].
  assert (Hfirst : In first l) by now left.
  destruct (selectedId st) as [sel|]; [|exact Hfirst].
  destruct (_ && nonEmpty sel); [|exact Hfirst].
  pose proof (Array_indexOf_lt l sel) as Hlt.
  destruct ((0 <=? Array_indexOf l sel)%Z) eqn:E0; cbn [andb].
  - apply Z.leb_le in E0.
    destruct (Array_indexOf l sel <? Z.of_nat (List.length l) - 1)%Z eqn:E1.
    + apply Z.ltb_lt in E1. apply at_index_In. lia.
    + apply at_index_In. lia.
  - exact Hfirst.
Qed.

(** ** The exports do not read a node that is not there *)

Lemma exportNodesOwn_total tree ids :
  (forall id, In id ids -> In id (keys (nodesById tree))) ->
  exists nodes, exportNodesOwn tree ids = Some nodes.
Proof.
  induction ids as [|id ids IH]; intros H; simpl; [eauto|].
  destruct IH as (nodes & ->); [intros x Hx; apply H; now right|].
  destruct (lookup id (nodesById tree)) as [node|] eqn:E; [eauto|].
  apply lookup_None_iff in E. exfalso. apply E, H. now left.
Qed.

(* ===================================================================== *)
(** * 24. Clicking again and again at one point *)
(* ===================================================================== *)

(** The first click at a point whose candidates differ from those of the
    click before selects the first candidate. *)
Lemma pickNext_first first rest st :
  lastSig st <> Some (Array_join "|" (first :: rest)) ->
  pickNext (first :: rest) st = mkPick (Some (Array_join "|" (first :: rest))) (Some first).
Proof.
  intros Hsig. unfold pickNext. cbv zeta.
  assert (Hsame : match lastSig st with
                  | Some s => String.eqb s (Array_join "|" (first :: rest))
                  | None => false
                  end = false).
  { destruct (lastSig st) as [s|]; [|reflexivity]. apply String.eqb_neq. congruence. }
  rewrite Hsame. now destruct (selectedId st).
Qed.

(** A click at the same point moves the selection from the candidate at
    index [i] to the next one, and leaves it on the last one. *)
Lemma pickNext_advance candidateIds i sel :
  NoDup candidateIds -> ~ In "" candidateIds ->
  nth_error candidateIds i = Some sel ->
  pickNext candidateIds (mkPick (Some (Array_join "|" candidateIds)) (Some sel)) =
  mkPick (Some (Array_join "|" candidateIds))
         (nth_error candidateIds (Nat.min (S i) (List.length candidateIds - 1))).
Proof.
  intros Hnd Hne Hnth.
  destruct candidateIds as [|first rest]; [destruct i; discriminate|].
  rewrite pickNext_cons. set (l := first :: rest) in *. cbv zeta.
  cbn [lastSig selectedId]. rewrite String.eqb_refl.
  assert (Hsel : nonEmpty sel = true).
  { unfold nonEmpty. apply negb_true_iff. apply String.eqb_neq. intros ->.
    apply Hne. eapply nth_error_In; eauto. }
  rewrite Hsel. cbn [andb]. rewrite (Array_indexOf_nth l Hnd i sel Hnth).
  assert (Hi : i < List.length l) by (apply nth_error_Some; congruence).
  replace (0 <=? Z.of_nat i)%Z with true by (symmetry; apply Z.leb_le; lia).
  cbn [andb]. f_equal.
  destruct (Z.of_nat i <? Z.of_nat (List.length l) - 1)%Z eqn:E; symmetry.
  - apply Z.ltb_lt in E. rewrite Nat.min_l by lia.
    destruct (nth_error l (S i)) as [next|] eqn:Hnext.
    + replace (Z.of_nat i + 1)%Z with (Z.of_nat (S i)) by lia.
      now rewrite (at_index_nth_error _ _ first _ Hnext).
    + apply nth_error_None in Hnext. lia.
  - apply Z.ltb_ge in E. rewrite Nat.min_r by lia.
    replace (List.length l - 1) with i by lia.
    now rewrite (at_index_nth_error _ _ first _ Hnth).
Qed.

Lemma pickNext_repeated candidateIds st :
  NoDup candidateIds -> ~ In "" candidateIds -> candidateIds <> [] ->
  lastSig st <> Some (Array_join "|" candidateIds) ->
  forall n,
    Nat.iter (S n) (pickNext candidateIds) st =
    mkPick (Some (Array_join "|" candidateIds))
           (nth_error candidateIds (Nat.min n (List.length candidateIds - 1))).
Proof.
  intros Hnd Hne Hsome Hsig. induction n as [|n IH].
  - destruct candidateIds as [|first rest]; [congruence|].
    change (Nat.iter 1 (pickNext (first :: rest)) st) with (pickNext (first :: rest) st).
    now rewrite pickNext_first.
  - change (Nat.iter (S (S n)) (pickNext candidateIds) st)
      with (pickNext candidateIds (Nat.iter (S n) (pickNext candidateIds) st)).
    rewrite IH.
    destruct (nth_error candidateIds (Nat.min n (List.length candidateIds - 1)))
      as [sel|] eqn:Hnth.
    + rewrite (pickNext_advance _ _ _ Hnd Hne Hnth). f_equal. f_equal. lia.
    + apply nth_error_None in Hnth. destruct candidateIds; [congruence|].
      simpl in Hnth. lia.
Qed.

(** On own properties. Repeated clicks at one point of the wireframe of a
    parsed document, starting from a click before it that had other
    candidates: the first click selects the first candidate, each further
    click the next one, and from the last candidate on the selection stays
    on the last; it never goes back to the first. The candidates are the ids
    of the visible index entries that contain the point, in ascending order
    of area. *)
Lemma repeated_clicks_own :
  forall sketchJson tree hiddenById x y st n,
    parseLanhuTreeOwn sketchJson = Some tree ->
    let rectIndex := rectIndexVisible (rectIndexAll tree) hiddenById in
    let candidateIds := pickCandidatesAtPoint rectIndex x y in
    candidateIds <> [] ->
    lastSig st <> Some (Array_join "|" candidateIds) ->
    Nat.iter (S n) (onClickSvg rectIndex x y) st =
      mkPick (Some (Array_join "|" candidateIds))
             (nth_error candidateIds (Nat.min n (List.length candidateIds - 1))) /\
    candidateIds = map item_id (hits rectIndex x y) /\
    StronglySorted areaLe (hits rectIndex x y).
Proof.
  intros sketchJson tree hiddenById x y st n Hparse rectIndex candidateIds Hsome Hsig.
  destruct (candidates_distinct sketchJson tree hiddenById x y Hparse) as [Hnd Hne].
  split; [exact (pickNext_repeated candidateIds st Hnd Hne Hsome Hsig n)|].
  split; [apply pickCandidatesAtPoint_hits|].
  unfold hits, rectIndex. apply StronglySorted_filter.
  destruct (rectIndexVisible_filter (rectIndexAll tree) hiddenById) as [f ->].
  apply StronglySorted_filter. apply rectIndexAll_sorted.
Qed.

(** X14. A click on the wireframe selects a layer only among the visible
    ones under the pointer: with no index entry at the point the selection
    and the remembered signature stay as they are; else the new selection
    is the id of an entry of the index of the tree whose rectangle
    contains the point and that [hiddenById] does not hide, whatever was
    selected or hidden before: [hiddenById] has no own property [true] for
    it, and [hiddenById[id]] is falsy for it when [hiddenById] has a key or
    the id names no member of [Object.prototype] (while [hiddenById] has no
    key the whole index is visible, also a layer whose id names such a
    member). *)
Theorem click_selects_visible_layer_under_point :
  forall tree hiddenById x y st,
    let rectIndex := rectIndexVisible (rectIndexAll tree) hiddenById in
    (pickCandidatesAtPoint rectIndex x y = [] -> onClickSvg rectIndex x y st = st) /\
    (pickCandidatesAtPoint rectIndex x y <> [] ->
     exists item,
       selectedId (onClickSvg rectIndex x y st) = Some (item_id item) /\
       In item (rectIndexAll tree) /\
       lookup (item_id item) hiddenById <> Some true /\
       (Object_keys hiddenById <> [] \/ protoName (item_id item) = false ->
        isHidden hiddenById (item_id item) = false) /\
       containsPoint (item_rect item) x y = true /\
       lastSig (onClickSvg rectIndex x y st) =
         Some (Array_join "|" (pickCandidatesAtPoint rectIndex x y))).
Proof.
  intros tree hiddenById x y st rectIndex. unfold onClickSvg. split.
  - intros ->. reflexivity.
  - intros Hsome.
    destruct (pickNext_selects_candidate _ st Hsome) as (id & Hsel & Hin).
    rewrite pickCandidatesAtPoint_hits in Hin. apply in_map_iff in Hin.
    destruct Hin as (item & <- & Hitem). unfold hits in Hitem.
    apply filter_In in Hitem. destruct Hitem as [Hitem Hpoint].
    assert (Hvis : In item (rectIndexAll tree) /\
                   lookup (item_id item) hiddenById <> Some true /\
                   (Object_keys hiddenById <> [] \/ protoName (item_id item) = false ->
                    isHidden hiddenById (item_id item) = false)).
    { unfold rectIndex, rectIndexVisible in Hitem.
      destruct (Object_keys hiddenById) as [|k ks] eqn:E.
      - split; [exact Hitem|].
        pose proof (isHidden_no_keys hiddenById (item_id item) E) as Hh.
        split.
        + intros L. apply lookup_Some_key in L.
          apply (Permutation_in _ (Permutation_sym (Object_entries_keys_perm hiddenById)))
            in L.
          unfold Object_keys in E. unfold keys in L. rewrite E in L. contradiction.
        + intros [Hk|Hp]; [congruence|]. now rewrite Hh.
      - apply filter_In in Hitem. destruct Hitem as [Hitem Hvisible].
        apply negb_true_iff in Hvisible.
        split; [exact Hitem|]. split; [|intros _; exact Hvisible].
        intros L. unfold isHidden, read in Hvisible. rewrite L in Hvisible.
        discriminate. }
    destruct Hvis as (Hall & Hown & Hfalsy).
    exists item. split; [exact Hsel|]. split; [exact Hall|].
    split; [exact Hown|]. split; [exact Hfalsy|]. split; [exact Hpoint|].
    destruct (pickCandidatesAtPoint rectIndex x y); [congruence | reflexivity].
Qed.

(* ===================================================================== *)
(** * 25. The export of a node and what is below it *)
(* ===================================================================== *)

Lemma lookup_fold_assign {A : Type} (f : string -> A) ids :
  forall acc id,
    lookup id (fold_left (fun (acc : JsRecord A) id => assign id (f id) acc) ids acc) =
    if in_dec string_dec id ids then Some (f id) else lookup id acc.
Proof.
  induction ids as [|x ids IH]; intros acc id; [reflexivity|].
  cbn [fold_left]. rewrite IH.
  destruct (in_dec string_dec id ids) as [Hin|Hout];
    destruct (in_dec string_dec id (x :: ids)) as [Hin'|Hout']; try reflexivity.
  - exfalso. apply Hout'. now right.
  - destruct Hin' as [->|Hin']; [|contradiction]. apply lookup_assign_eq.
  - apply lookup_assign_neq. intros ->. apply Hout'. now left.
Qed.

(** On own properties. The export of the descendants of a selected node, on
    the tree of a document whose registered ids are pairwise different: it
    returns within as many iterations as the tree has nodes; the exported
    nodes are the selected node first and then the nodes registered below
    it, each once; [count] is their number; and [parentById] has the parent
    of exactly the exported ids. *)
Lemma exportSelectedDescendantsOwn_exports_subtree :
  forall sketchJson tree selectedId node fuel,
    NoDup (registeredIds sketchJson) ->
    parseLanhuTreeOwn sketchJson = Some tree ->
    lookup selectedId (nodesById tree) = Some node ->
    List.length (nodesById tree) <= fuel ->
    exists below nodes parents,
      getDescendantIdsOwn fuel tree selectedId true = Some (selectedId :: below) /\
      Permutation below (idsBelow node) /\
      exportNodesOwn tree (selectedId :: below) = Some (pickExportNode node :: nodes) /\
      List.length nodes = List.length (idsBelow node) /\
      (forall id,
          lookup id parents =
          if in_dec string_dec id (selectedId :: below)
          then Some (parentValueOwn tree id) else None) /\
      exportSelectedDescendantsOwn fuel (Some tree) (Some selectedId) false =
        ExportText
          (VObject [ ("selectedId", VString selectedId);
                     ("count", count_value (S (List.length (idsBelow node))));
                     ("parentById", VObject parents);
                     ("nodes", VArray (pickExportNode node :: nodes)) ]).
Proof.
  intros sketchJson tree selectedId node fuel Hnd Hparse Hnode Hfuel.
  destruct (getDescendantIdsOwn_parsed _ _ Hnd Hparse selectedId node fuel true Hnode Hfuel)
    as (below & Hrun & Hperm & Hdistinct).
  cbn [app] in Hrun.
  run_invariants Hparse as HB _ _.
  assert (Hne : nonEmpty selectedId = true).
  { apply (inv_truthy _ _ _ HB). now apply lookup_Some_key in Hnode. }
  destruct (exportNodesOwn_total tree below) as (nodes & Hnodes).
  { intros id Hin. apply (parseLanhuTreeOwn_keys _ _ Hparse).
    apply (Permutation_in _ Hperm) in Hin.
    pose proof (parsed_below_registered _ _ Hnd Hparse selectedId node Hnode) as Hsub.
    rewrite <- keys_nodesBelow in Hin. apply in_map_iff in Hin.
    destruct Hin as (kn & <- & Hin). rewrite <- keys_registeredNodes.
    apply in_map. now apply Hsub. }
  assert (Hlen : List.length nodes = List.length (idsBelow node)).
  { rewrite <- (Permutation_length Hperm). clear - Hnodes.
    revert nodes Hnodes. induction below as [|id below IH]; intros nodes H; simpl in H.
    - now injection H as <-.
    - destruct (lookup id (nodesById tree)) as [n|]; [|discriminate].
      destruct (exportNodesOwn tree below) as [ns|]; [|discriminate].
      injection H as <-. simpl. f_equal. now apply IH. }
  exists below, nodes.
  exists (fold_left (fun (acc : JsRecord value) id => assign id (parentValueOwn tree id) acc)
                    (selectedId :: below) []).
  split; [exact Hrun|]. split; [exact Hperm|].
  assert (Hall : exportNodesOwn tree (selectedId :: below) = Some (pickExportNode node :: nodes)).
  { simpl. now rewrite Hnode, Hnodes. }
  split; [exact Hall|]. split; [exact Hlen|]. split.
  - intros id. rewrite lookup_fold_assign.
    now destruct (in_dec string_dec id (selectedId :: below)).
  - unfold exportSelectedDescendantsOwn. rewrite Hne, Hrun. unfold exportIdsOwn.
    rewrite Hall. cbv zeta. cbn [List.length]. now rewrite Hlen.
Qed.

(** ** The compact export *)

Lemma compactJson_payload selectedId count parents nodes :
  exists out,
    compactJson (VObject [ ("selectedId", VString selectedId);
                           ("count", VNumber count);
                           ("parentById", parents);
                           ("nodes", nodes) ]) = VObject out /\
    lookup "selectedId" out = Some (VString selectedId) /\
    lookup "count" out = Some (VNumber count) /\
    lookup "parentById" out =
      (if isDefined (compactJson parents) then Some (compactJson parents) else None) /\
    lookup "nodes" out =
      (if isDefined (compactJson nodes) then Some (compactJson nodes) else None) /\
    keys out = filter (fun k => match lookup k out with Some _ => true | None => false end)
                      ["selectedId"; "count"; "parentById"; "nodes"].
Proof.
  rewrite compactJson_object. unfold compactFields. cbn [map fst snd].
  change (compactJson (VString selectedId)) with (VString selectedId).
  change (compactJson (VNumber count)) with (VNumber count).
  generalize (compactJson parents) as cp. generalize (compactJson nodes) as cn.
  intros cn cp. unfold Object_entries. simpl. unfold compactStep. simpl.
  destruct (isDefined cp), (isDefined cn); simpl; eexists; repeat split; reflexivity.
Qed.

Lemma fold_compactStep_keeps entries k v :
  ~ In k (keys entries) ->
  forall next,
    lookup k next = Some v -> lookup k (fold_left compactStep entries next) = Some v.
Proof.
  induction entries as [|[k' cv] entries IH]; intros Hout next Hk; [assumption|].
  simpl in Hout. simpl. apply IH; [tauto|]. unfold compactStep, write. simpl.
  destruct (isDefined cv); [|assumption].
  destruct (String.eqb k' "__proto__"); [assumption|].
  rewrite lookup_assign_neq; [assumption|]. intros ->. tauto.
Qed.

(** A field with a key of its own, other than [__proto__], whose compacted
    value is defined is a field of the compacted object. *)
Lemma compactJson_object_field fields k v :
  NoDup (keys fields) -> In (k, v) fields -> String.eqb k "__proto__" = false ->
  isDefined (compactJson v) = true ->
  exists out,
    compactJson (VObject fields) = VObject out /\ lookup k out = Some (compactJson v).
Proof.
  intros Hnd Hin Hk Hdef. rewrite compactJson_object.
  assert (Hnd' : NoDup (keys (Object_entries (compactFields fields)))).
  { apply (Permutation_NoDup (Permutation_sym (Object_entries_keys_perm _))).
    now rewrite keys_compactFields. }
  rewrite fold_compactStep_fresh; [|assumption | intros x []].
  cbn [app].
  set (out := filter keepsField (Object_entries (compactFields fields))).
  assert (Hout : In (k, compactJson v) out).
  { apply filter_In. split; [|unfold keepsField; simpl; now rewrite Hdef, Hk].
    apply Object_entries_In.
    unfold compactFields. apply in_map_iff. exists (k, v). auto. }
  assert (Hlookup : lookup k out = Some (compactJson v)).
  { apply NoDup_In_lookup; [|assumption]. unfold keys, out.
    now apply NoDup_map_filter. }
  destruct out as [|kv rest]; [contradiction|]. eauto.
Qed.

Lemma exportKeys_distinct : NoDup exportKeys.
Proof.
  unfold exportKeys.
  repeat (constructor; [simpl; intuition discriminate|]). constructor.
Qed.

(** The compacted export of a node that has an id is an object that has
    that id. *)
Lemma compactJson_pickExportNode node id :
  node_id node = Some id ->
  exists fields,
    compactJson (pickExportNode node) = VObject fields /\
    lookup "id" fields = Some (VString id).
Proof.
  intros Hid.
  apply (compactJson_object_field (fieldsOf (pickExportNode node)) "id" (VString id)).
  - exact exportKeys_distinct.
  - left. unfold id_value. now rewrite Hid.
  - reflexivity.
  - reflexivity.
Qed.

Lemma exportNodesOwn_compact sketchJson tree ids :
  parseLanhuTreeOwn sketchJson = Some tree ->
  forall nodes,
    exportNodesOwn tree ids = Some nodes ->
    exists compactNodes,
      filter isDefined (map compactJson nodes) = compactNodes /\
      Forall2 (fun id node => get node "id" = VString id) ids compactNodes.
Proof.
  intros Hparse. induction ids as [|id ids IH]; intros nodes Hnodes; simpl in Hnodes.
  - injection Hnodes as <-. exists []. split; [reflexivity | constructor].
  - destruct (lookup id (nodesById tree)) as [node|] eqn:Hnode; [|discriminate].
    destruct (exportNodesOwn tree ids) as [rest|]; [|discriminate].
    injection Hnodes as <-. destruct (IH rest eq_refl) as (compactRest & Hrest & Hall).
    pose proof (parseLanhuTreeOwn_node_ids _ _ Hparse id node Hnode) as Hid.
    destruct (compactJson_pickExportNode node id Hid) as (fields & Hfields & Hlookup).
    exists (VObject fields :: compactRest). cbn [map]. rewrite Hfields. cbn [filter isDefined].
    rewrite Hrest. split; [reflexivity|]. constructor; [|assumption].
    simpl. now rewrite Hlookup.
Qed.

(** On own properties. With [compactExport], on a parsed tree whose nodes
    are all there, the exported value is the compacted payload itself (the
    fallback to the uncompacted payload is never taken): an object without
    [null], [undefined] or empty containers at any depth that keeps
    [selectedId] and [count], and whose [nodes], when any id is exported,
    has one object for every exported id, with that id. *)
Lemma compact_export_own :
  forall sketchJson tree selectedId ids nodes,
    parseLanhuTreeOwn sketchJson = Some tree ->
    exportNodesOwn tree ids = Some nodes ->
    exists out,
      exportIdsOwn tree selectedId true ids = ExportText (VObject out) /\
      compacted (VObject out) = true /\
      lookup "selectedId" out = Some (VString selectedId) /\
      lookup "count" out = Some (count_value (List.length ids)) /\
      (ids <> [] ->
       exists compactNodes,
         lookup "nodes" out = Some (VArray compactNodes) /\
         Forall2 (fun id node => get node "id" = VString id) ids compactNodes) /\
      (forall k, In k (keys out) -> In k ["selectedId"; "count"; "parentById"; "nodes"]).
Proof.
  intros sketchJson tree selectedId ids nodes Hparse Hnodes.
  unfold exportIdsOwn. rewrite Hnodes. cbv zeta.
  set (parents := VObject (fold_left (fun (acc : JsRecord value) id =>
                                        assign id (parentValueOwn tree id) acc) ids [])).
  assert (Hlen : List.length nodes = List.length ids).
  { clear - Hnodes. revert nodes Hnodes.
    induction ids as [|id ids IH]; intros nodes H; simpl in H.
    - now injection H as <-.
    - destruct (lookup id (nodesById tree)) as [n|]; [|discriminate].
      destruct (exportNodesOwn tree ids) as [ns|]; [|discriminate].
      injection H as <-. simpl. f_equal. now apply IH. }
  rewrite Hlen. unfold count_value.
  destruct (compactJson_payload selectedId
              (PrimFloat.of_uint63 (Uint63.of_Z (Z.of_nat (List.length ids))))
              parents (VArray nodes))
    as (out & Hout & Hsel & Hcount & Hparents & Hn & Hkeys).
  exists out. rewrite Hout. split; [reflexivity|]. split; [|split; [|split; [|split]]].
  - destruct (compactJson_compacted
                (VObject [ ("selectedId", VString selectedId);
                           ("count", VNumber (PrimFloat.of_uint63
                                                (Uint63.of_Z (Z.of_nat (List.length ids)))));
                           ("parentById", parents);
                           ("nodes", VArray nodes) ])) as [H|H];
      rewrite Hout in H; [discriminate | exact H].
  - exact Hsel.
  - exact Hcount.
  - intros Hsome.
    destruct (exportNodesOwn_compact sketchJson tree ids Hparse nodes Hnodes)
      as (compactNodes & Hcompact & Hall).
    exists compactNodes. split; [|exact Hall].
    rewrite Hn, compactJson_array, Hcompact.
    destruct compactNodes as [|x rest]; [|reflexivity].
    inversion Hall. congruence.
  - intros k Hk. rewrite Hkeys in Hk. apply filter_In in Hk. tauto.
Qed.

(* ===================================================================== *)
(** * 26. Repeated ids *)
(* ===================================================================== *)

Lemma allChildren_assign_present children p l id :
  lookup p children = Some l ->
  Permutation (allChildren (assign p (l ++ [id]) children)) (id :: allChildren children).
Proof.
  unfold allChildren. induction children as [|[k v] children IH]; simpl; [discriminate|].
  destruct (String.eqb p k) eqn:E; simpl.
  - intros [= ->]. rewrite <- app_assoc. simpl.
    apply Permutation_sym, Permutation_middle.
  - intros H. rewrite (IH H). apply Permutation_sym, Permutation_middle.
Qed.

Lemma allChildren_pushChild parentId id children :
  Permutation (allChildren (pushChildOwn parentId id children)) (id :: allChildren children).
Proof.
  unfold pushChildOwn. destruct (lookup parentId children) as [l|] eqn:E.
  - now apply allChildren_assign_present.
  - rewrite assign_fresh by now apply lookup_None_iff.
    unfold allChildren. rewrite map_app, List.concat_app. simpl.
    apply Permutation_sym, Permutation_cons_append.
Qed.

Lemma buildLoopOwn_records_occurrences rootId registered fuel st st' :
  Permutation (rootId :: allChildren (b_childrenById st) ++ stackIds (b_stack st))
              registered ->
  buildLoopOwn fuel st = Some st' ->
  Permutation (rootId :: allChildren (b_childrenById st') ++ stackIds (b_stack st'))
              registered.
Proof.
  apply (buildLoopOwn_invariant
           (fun st => Permutation
                        (rootId :: allChildren (b_childrenById st) ++ stackIds (b_stack st))
                        registered)
           (fun (_ : string) st remaining =>
              Permutation
                (rootId :: allChildren (b_childrenById st)
                          ++ idsOfElems remaining ++ stackIds (b_stack st))
                registered)).
  - intros s parentId nodes rest Hstack H. rewrite Hstack in H. exact H.
  - intros parentId s elem remaining H.
    destruct (idsOfElem_cases elem) as [Hskip|(node & id & -> & Hid & Hne & Hids)].
    + rewrite (visitOwn_skip _ _ _ Hskip). now rewrite idsOfElems_cons, Hskip in H.
    + rewrite (visitOwn_registered _ _ _ _ Hid Hne). cbn [b_childrenById b_stack].
      rewrite stackIds_pushLayers. rewrite <- H, idsOfElems_cons, Hids.
      apply perm_skip. rewrite allChildren_pushChild. cbn [app].
      rewrite <- Permutation_middle. apply perm_skip.
      apply Permutation_app_head. rewrite !app_assoc. apply Permutation_app_tail.
      apply Permutation_app_comm.
  - intros parentId s H. exact H.
Qed.

(** On own properties. On every document, with repeated ids or without:
    every registered occurrence of an id in the document is recorded once,
    as the root or in the child list of a node; so an id that the document
    registers twice stands twice in the child lists, while [nodesById] has
    one node for it. *)
Lemma parseLanhuTreeOwn_records_every_occurrence :
  forall sketchJson,
    exists tree,
      parseLanhuTreeOwn sketchJson = Some tree /\
      Permutation (rootIds tree ++ allChildren (childrenById tree))
                  (registeredIds sketchJson) /\
      NoDup (keys (nodesById tree)) /\
      (forall id, In id (keys (nodesById tree)) <-> In id (registeredIds sketchJson)).
Proof.
  intros sketchJson.
  destruct (parseLanhuTreeOwn_invariants sketchJson) as (tree & Hparse & HB & _).
  exists tree. split; [exact Hparse|]. split; [|split].
  - destruct (parseLanhuTreeOwn_root sketchJson)
      as [[Hskip Hempty]|(tree' & rootId & root & Hroot & Hid & Hne & Hparse' & Hr & _)].
    + rewrite Hparse in Hempty. injection Hempty as ->.
      apply registeredIds_skipped in Hskip. rewrite Hskip. constructor.
    + rewrite Hparse in Hparse'. injection Hparse' as <-. rewrite Hr.
      unfold parseLanhuTreeOwn in Hparse. rewrite Hroot, Hid, Hne in Hparse.
      destruct (buildLoopOwn _ _) as [st|] eqn:Hrun; [|discriminate].
      injection Hparse as <-. cbn [childrenById].
      pose proof (fun H => buildLoopOwn_records_occurrences rootId
                             (registeredIds sketchJson) _ _ _ H Hrun) as Hperm.
      assert (Hempty : b_stack st = []).
      { match type of Hrun with
        | buildLoopOwn ?fuel ?st0 = _ =>
            assert (Hfuel : stackWork (b_stack st0) <= fuel)
        end.
        { cbn [b_stack]. rewrite stackWork_pushLayers. destruct root as [i l pr].
          cbn [node_layers]. rewrite (pushCount_props _ _ [] pr).
          simpl in Hid. subst i. change (stackWork []) with 0. lia. }
        destruct (buildLoopOwn_terminates _ _ Hfuel) as (st' & Hrun' & Hstack').
        congruence. }
      rewrite Hempty in Hperm. cbn [stackIds flat_map] in Hperm.
      rewrite app_nil_r in Hperm. apply Hperm.
      cbn [b_childrenById b_stack allChildren map List.concat app].
      rewrite stackIds_pushLayers, app_nil_r.
      unfold registeredIds, idsOfElem. now rewrite Hroot, Hid, Hne.
  - exact (inv_nodup _ _ _ HB).
  - intros id. rewrite <- (inv_ids _ _ _ HB id). simpl. tauto.
Qed.

(* ===================================================================== *)
(** * 27. Reads that stay with the own properties *)
(* ===================================================================== *)

Lemma read_Own {A : Type} (o : JsRecord A) k v : read k o = Own v <-> lookup k o = Some v.
Proof.
  unfold read. destruct (lookup k o) as [x|].
  - split; intros [= ->]; reflexivity.
  - destruct (protoName k); split; discriminate.
Qed.

Lemma read_lookup_Some {A : Type} (o : JsRecord A) k v : lookup k o = Some v -> read k o = Own v.
Proof. apply read_Own. Qed.

Lemma read_plain {A : Type} (o : JsRecord A) k :
  protoName k = false ->
  read k o = match lookup k o with Some v => Own v | None => Missing end.
Proof. intros H. unfold read. now rewrite H. Qed.

Lemma read_Inherited {A : Type} (o : JsRecord A) k :
  read k o = Inherited <-> lookup k o = None /\ protoName k = true.
Proof.
  unfold read. destruct (lookup k o) as [x|]; [split; [discriminate | intros [H _]; discriminate]|].
  destruct (protoName k); split; try discriminate; auto. intros [_ H]. discriminate.
Qed.

Lemma read_key {A : Type} (o : JsRecord A) k : In k (keys o) -> read k o <> Inherited.
Proof.
  intros Hin H. apply read_Inherited in H. destruct H as [H _].
  apply lookup_None_iff in H. contradiction.
Qed.

Lemma read_not_Inherited {A : Type} (o : JsRecord A) k :
  read k o <> Inherited ->
  read k o = match lookup k o with Some v => Own v | None => Missing end.
Proof.
  unfold read. destruct (lookup k o); [reflexivity|].
  destruct (protoName k); [congruence | reflexivity].
Qed.

Lemma plain_not_proto id : protoName id = false -> String.eqb id "__proto__" = false.
Proof.
  intros H. destruct (String.eqb id "__proto__") eqn:E; [|reflexivity].
  apply String.eqb_eq in E. subst. discriminate.
Qed.

Lemma plainIds_incl l l' : incl l l' -> plainIds l' = true -> plainIds l = true.
Proof.
  intros Hincl H. unfold plainIds in *. rewrite forallb_forall in *. auto.
Qed.

Lemma write_plain {A : Type} (o : JsRecord A) k v :
  String.eqb k "__proto__" = false -> write k v o = assign k v o.
Proof. intros H. unfold write. now rewrite H. Qed.

(* ===================================================================== *)
(** * 28. A run of [parseLanhuTree] that returns *)
(* ===================================================================== *)

Lemma pushChild_returns parentId id children children' :
  pushChild parentId id children = Returns children' ->
  children' = pushChildOwn parentId id children.
Proof.
  unfold pushChild, pushChildOwn, read.
  destruct (lookup parentId children) as [l|]; [now intros [= <-]|].
  destruct (protoName parentId); [discriminate | now intros [= <-]].
Qed.

Lemma pushChild_own parentId id children :
  read parentId children <> Inherited ->
  pushChild parentId id children = Returns (pushChildOwn parentId id children).
Proof.
  intros H. unfold pushChild, pushChildOwn. rewrite (read_not_Inherited _ _ H).
  now destruct (lookup parentId children).
Qed.

Lemma pushChild_throws parentId id children :
  read parentId children = Inherited -> pushChild parentId id children = Throws.
Proof. intros H. unfold pushChild. now rewrite H. Qed.

Lemma visit_skip parentId st elem :
  idsOfElem elem = [] -> visit parentId st elem = Returns st.
Proof.
  destruct elem as [node|]; simpl; [|reflexivity].
  destruct (node_id node) as [id|]; [|reflexivity].
  destruct (nonEmpty id); [discriminate | reflexivity].
Qed.

Lemma visit_returns parentId st elem st' :
  visit parentId st elem = Returns st' -> st' = visitOwn parentId st elem.
Proof.
  unfold visit, visitOwn. destruct elem as [node|]; [|now intros [= <-]].
  destruct (node_id node) as [id|]; [|now intros [= <-]].
  destruct (nonEmpty id); [|now intros [= <-]].
  destruct (pushChild parentId id (b_childrenById st)) as [children| | |] eqn:E;
    try discriminate.
  apply pushChild_returns in E. subst children.
  destruct (String.eqb id "__proto__"); [discriminate | now intros [= <-]].
Qed.

(** A visit that returns registers no id [__proto__]. *)
Lemma visit_returns_keys parentId st elem st' :
  visit parentId st elem = Returns st' ->
  forall k, In k (keys (b_nodesById st')) ->
            In k (keys (b_nodesById st)) \/ (In k (idsOfElem elem) /\ k <> "__proto__").
Proof.
  unfold visit, idsOfElem. destruct elem as [node|]; [|intros [= <-]; auto].
  destruct (node_id node) as [id|]; [|intros [= <-]; auto].
  destruct (nonEmpty id); [|intros [= <-]; auto].
  destruct (pushChild parentId id (b_childrenById st)) as [children| | |];
    try discriminate.
  destruct (String.eqb id "__proto__") eqn:E; [discriminate|].
  intros [= <-] k Hk. simpl in Hk. apply in_keys_assign in Hk.
  destruct Hk as [->|Hk]; [|now left].
  right. split; [now left|]. now apply String.eqb_neq.
Qed.

Lemma visit_own parentId st elem :
  read parentId (b_childrenById st) <> Inherited ->
  plainIds (idsOfElem elem) = true ->
  visit parentId st elem = Returns (visitOwn parentId st elem).
Proof.
  intros Hp Hplain.
  destruct (idsOfElem_cases elem) as [Hskip|(node & id & -> & Hid & Hne & Hids)].
  - now rewrite visit_skip, visitOwn_skip.
  - rewrite (visitOwn_registered _ _ _ _ Hid Hne). unfold visit.
    rewrite Hid, Hne, (pushChild_own _ _ _ Hp).
    rewrite Hids in Hplain. simpl in Hplain. apply andb_prop in Hplain.
    destruct Hplain as [Hplain _]. apply negb_true_iff in Hplain.
    now rewrite (plain_not_proto _ Hplain).
Qed.

Lemma visitAll_stuck parentId elems (o : Outcome BuildState) :
  (forall st, o <> Returns st) ->
  fold_left (fun acc elem => bind acc (fun st => visit parentId st elem)) elems o = o.
Proof.
  intros H. induction elems as [|elem elems IH]; [reflexivity|]. simpl.
  destruct o as [st| | |]; [now contradiction (H st)| | |]; exact IH.
Qed.

Lemma visitAll_cons parentId elem elems st :
  visitAll parentId (elem :: elems) st =
  bind (visit parentId st elem) (visitAll parentId elems).
Proof.
  unfold visitAll. simpl.
  destruct (visit parentId st elem) as [st'| | |]; simpl;
    [reflexivity| | |]; apply visitAll_stuck; discriminate.
Qed.

Lemma visitAll_app parentId before after st :
  visitAll parentId (before ++ after) st =
  bind (visitAll parentId before st) (visitAll parentId after).
Proof.
  revert st. induction before as [|elem before IH]; intros st; [reflexivity|].
  simpl. rewrite !visitAll_cons.
  destruct (visit parentId st elem) as [st'| | |]; simpl; auto.
Qed.

Lemma visitAll_returns parentId elems :
  forall st st',
    visitAll parentId elems st = Returns st' ->
    st' = fold_left (visitOwn parentId) elems st.
Proof.
  induction elems as [|elem elems IH]; intros st st' H.
  - now injection H as <-.
  - rewrite visitAll_cons in H.
    destruct (visit parentId st elem) as [st1| | |] eqn:E; try discriminate.
    apply visit_returns in E. subst st1. simpl. now apply IH.
Qed.

Lemma visit_fuel parentId st elem : visit parentId st elem <> OutOfFuel.
Proof.
  unfold visit. destruct elem as [node|]; [|discriminate].
  destruct (node_id node) as [id|]; [|discriminate].
  destruct (nonEmpty id); [|discriminate].
  unfold pushChild. destruct (read parentId (b_childrenById st)); try discriminate;
    destruct (String.eqb id "__proto__"); discriminate.
Qed.

Lemma visitAll_fuel parentId elems : forall st, visitAll parentId elems st <> OutOfFuel.
Proof.
  induction elems as [|elem elems IH]; intros st; [discriminate|].
  rewrite visitAll_cons.
  destruct (visit parentId st elem) as [st1| | |] eqn:E; simpl; try discriminate.
  - apply IH.
  - now apply visit_fuel in E.
Qed.

Lemma buildLoop_returns :
  forall fuel st st', buildLoop fuel st = Returns st' -> buildLoopOwn fuel st = Some st'.
Proof.
  induction fuel as [|fuel IH]; intros st st' H.
  - destruct st as [n c p [|[parentId nodes] rest]]; simpl in *; [|discriminate].
    now injection H as <-.
  - destruct st as [n c p [|[parentId nodes] rest]].
    { simpl in H. injection H as <-. reflexivity. }
    simpl buildLoop in H. simpl buildLoopOwn. revert H.
    destruct (visitAll parentId nodes _) as [st1| | |] eqn:E; try discriminate.
    apply visitAll_returns in E. subst st1. simpl. now apply IH.
Qed.

(** The loop stops within the fuel it is given by [parseLanhuTree], whatever
    the ids are. *)
Lemma buildLoop_fuel :
  forall fuel st st', buildLoopOwn fuel st = Some st' -> buildLoop fuel st <> OutOfFuel.
Proof.
  induction fuel as [|fuel IH]; intros st st' H.
  - destruct st as [n c p [|[parentId nodes] rest]]; simpl in *; discriminate.
  - destruct st as [n c p [|[parentId nodes] rest]]; [discriminate|].
    simpl buildLoop. simpl buildLoopOwn in H.
    destruct (visitAll parentId nodes _) as [st1| | |] eqn:E; simpl; try discriminate.
    + pose proof (visitAll_returns _ _ _ _ E) as ->. now apply (IH _ st').
    + now apply visitAll_fuel in E.
Qed.

(** What a run that returns keeps: the id [__proto__] is no key. *)
Lemma visitAll_no_proto parentId elems :
  forall st st',
    visitAll parentId elems st = Returns st' ->
    ~ In "__proto__" (keys (b_nodesById st)) ->
    ~ In "__proto__" (keys (b_nodesById st')).
Proof.
  induction elems as [|elem elems IH]; intros st st' H Hst.
  - now injection H as <-.
  - rewrite visitAll_cons in H.
    destruct (visit parentId st elem) as [st1| | |] eqn:E; try discriminate.
    apply (IH st1 st' H). intros Hin.
    destruct (visit_returns_keys _ _ _ _ E _ Hin) as [Hk|[_ Hk]]; auto.
Qed.

Lemma buildLoop_no_proto :
  forall fuel st st',
    buildLoop fuel st = Returns st' ->
    ~ In "__proto__" (keys (b_nodesById st)) ->
    ~ In "__proto__" (keys (b_nodesById st')).
Proof.
  induction fuel as [|fuel IH]; intros st st' H Hst.
  - destruct st as [n c p [|[parentId nodes] rest]]; simpl in *; [|discriminate].
    now injection H as <-.
  - destruct st as [n c p [|[parentId nodes] rest]].
    { simpl in H. now injection H as <-. }
    simpl buildLoop in H. revert H.
    destruct (visitAll parentId nodes _) as [st1| | |] eqn:E; try discriminate.
    simpl. intros H. apply (IH st1 st' H). exact (visitAll_no_proto _ _ _ _ E Hst).
Qed.

(** A call of [parseLanhuTree] that returns is a run on own properties. *)
Lemma parseLanhuTree_returns sketchJson tree :
  parseLanhuTree sketchJson = Returns tree -> parseLanhuTreeOwn sketchJson = Some tree.
Proof.
  unfold parseLanhuTree, parseLanhuTreeOwn.
  destruct (artboard sketchJson) as [root|]; [|now intros [= <-]].
  destruct (node_id root) as [rootId|]; [|now intros [= <-]].
  destruct (nonEmpty rootId); [|now intros [= <-]].
  destruct (String.eqb rootId "__proto__"); [discriminate|]. cbv zeta.
  destruct (buildLoop _ _) as [st| | |] eqn:E; try discriminate.
  apply buildLoop_returns in E. rewrite E. now intros [= <-].
Qed.

Lemma parseLanhuTree_no_proto sketchJson tree :
  parseLanhuTree sketchJson = Returns tree -> ~ In "__proto__" (keys (nodesById tree)).
Proof.
  unfold parseLanhuTree.
  destruct (artboard sketchJson) as [root|]; [|intros [= <-] []].
  destruct (node_id root) as [rootId|]; [|intros [= <-] []].
  destruct (nonEmpty rootId); [|intros [= <-] []].
  destruct (String.eqb rootId "__proto__") eqn:Er; [discriminate|]. cbv zeta.
  destruct (buildLoop _ _) as [st| | |] eqn:E; try discriminate.
  intros [= <-]. simpl. apply (buildLoop_no_proto _ _ _ E). simpl.
  intros [H|[]]. subst rootId. discriminate.
Qed.

Lemma parseLanhuTree_fuel sketchJson : parseLanhuTree sketchJson <> OutOfFuel.
Proof.
  destruct (parseLanhuTreeOwn_invariants sketchJson) as (tree & Hown & _).
  unfold parseLanhuTree, parseLanhuTreeOwn in *.
  destruct (artboard sketchJson) as [root|]; [|discriminate].
  destruct (node_id root) as [rootId|]; [|discriminate].
  destruct (nonEmpty rootId); [|discriminate].
  destruct (String.eqb rootId "__proto__"); [discriminate|]. cbv zeta in *.
  destruct (buildLoopOwn _ _) as [st'|] eqn:E; [|discriminate].
  apply buildLoop_fuel in E. destruct (buildLoop _ _); simpl; congruence.
Qed.

(** ** Documents whose ids name no member of [Object.prototype] *)

Section PlainRun.
Variable registered : list string.
Hypothesis registered_plain : plainIds registered = true.

Lemma visitAll_own parentId elems :
  forall st,
    In parentId (keys (b_nodesById st)) /\
    BuildInv registered st (idsOfElems elems ++ stackIds (b_stack st)) ->
    visitAll parentId elems st = Returns (fold_left (visitOwn parentId) elems st).
Proof.
  induction elems as [|elem elems IH]; intros st HK; [reflexivity|].
  rewrite visitAll_cons.
  assert (Hvisit : visit parentId st elem = Returns (visitOwn parentId st elem)).
  { destruct HK as [Hp HB]. apply visit_own.
    - rewrite read_plain; [now destruct (lookup parentId (b_childrenById st))|].
      apply (plainIds_In registered); [assumption|].
      apply (inv_ids _ _ _ HB). now left.
    - apply (plainIds_incl _ registered); [|assumption].
      intros id Hid. apply (inv_ids _ _ _ HB). right.
      rewrite idsOfElems_cons, !in_app_iff. auto. }
  rewrite Hvisit. simpl. apply IH. now apply (build_visit_elem registered).
Qed.

Lemma buildLoop_own :
  forall fuel st st',
    BuildInv registered st (stackIds (b_stack st)) ->
    buildLoopOwn fuel st = Some st' ->
    buildLoop fuel st = Returns st'.
Proof.
  induction fuel as [|fuel IH]; intros st st' HJ Hrun.
  - destruct st as [n c p [|[parentId nodes] rest]]; simpl in *; [|discriminate].
    now injection Hrun as <-.
  - destruct st as [n c p [|[parentId nodes] rest]].
    { simpl in *. now injection Hrun as <-. }
    simpl buildLoopOwn in Hrun.
    change (bind (visitAll parentId nodes
                    (popped (mkBuild n c p ((parentId, nodes) :: rest)) rest))
                 (buildLoop fuel) = Returns st').
    pose proof (build_pop_frame registered (mkBuild n c p ((parentId, nodes) :: rest))
                  parentId nodes rest eq_refl HJ) as HK.
    rewrite (visitAll_own _ _ _ HK). simpl. apply IH; [|exact Hrun].
    apply (build_frame_done registered parentId).
    apply (fold_visit_invariant
             (fun parentId st remaining =>
                In parentId (keys (b_nodesById st)) /\
                BuildInv registered st (idsOfElems remaining ++ stackIds (b_stack st))));
      [|exact HK].
    intros p0 s0 e0 r0. apply (build_visit_elem registered).
Qed.
End PlainRun.

Lemma registeredIds_root root rootId :
  node_id root = Some rootId -> nonEmpty rootId = true ->
  registeredIds (mkSketch (Some root)) = rootId :: idsBelow root.
Proof.
  intros Hid Hne. unfold registeredIds, idsOfElem. simpl. now rewrite Hid, Hne.
Qed.

(** The state before the loop satisfies the invariant. *)
Lemma BuildInv_initial root rootId :
  node_id root = Some rootId -> nonEmpty rootId = true ->
  let st0 := mkBuild (assign rootId root []) [] (assign rootId None [])
                     (pushLayers rootId (node_layers root) []) in
  BuildInv (rootId :: idsBelow root) st0 (stackIds (b_stack st0)).
Proof.
  intros Hid Hne st0.
  assert (Hstack0 : stackIds (b_stack st0) = idsBelow root).
  { unfold st0. simpl. rewrite stackIds_pushLayers. apply app_nil_r. }
  rewrite Hstack0. constructor; simpl.
  - reflexivity.
  - repeat constructor. simpl. tauto.
  - intros k [<-|[]]. assumption.
  - intros k n. destruct (String.eqb k rootId) eqn:E; [|discriminate].
    apply String.eqb_eq in E. subst. now intros [= <-].
  - discriminate.
  - intros c p. destruct (String.eqb c rootId); discriminate.
  - intros p ns Hin. destruct (node_layers root) as [[|x rest]|]; simpl in Hin;
      try contradiction.
    destruct Hin as [[= <- _]|[]]. now left.
  - intros x. simpl. tauto.
Qed.

(** On a document none of whose registered ids names a member of
    [Object.prototype], [parseLanhuTree] returns what the run on own
    properties returns. *)
Lemma parseLanhuTree_own sketchJson tree :
  safeIds sketchJson = true ->
  parseLanhuTreeOwn sketchJson = Some tree ->
  parseLanhuTree sketchJson = Returns tree.
Proof.
  unfold safeIds. destruct sketchJson as [[root|]]; [|now intros _ [= <-]].
  unfold parseLanhuTree, parseLanhuTreeOwn. cbn [artboard].
  destruct (node_id root) as [rootId|] eqn:Hid; [|now intros _ [= <-]].
  destruct (nonEmpty rootId) eqn:Hne; [|now intros _ [= <-]].
  rewrite (registeredIds_root _ _ Hid Hne). intros Hplain. cbv zeta.
  assert (Hroot : String.eqb rootId "__proto__" = false).
  { apply plain_not_proto. apply (plainIds_In _ _ Hplain). now left. }
  rewrite Hroot.
  destruct (buildLoopOwn _ _) as [st|] eqn:E; [|discriminate].
  intros [= <-].
  rewrite (buildLoop_own _ Hplain _ _ _ (BuildInv_initial root rootId Hid Hne) E).
  reflexivity.
Qed.

Lemma parseLanhuTree_total sketchJson :
  safeIds sketchJson = true -> exists tree, parseLanhuTree sketchJson = Returns tree.
Proof.
  intros Hsafe.
  destruct (parseLanhuTreeOwn_invariants sketchJson) as (tree & Hown & _).
  exists tree. now apply parseLanhuTree_own.
Qed.

(** The ids of a tree that [parseLanhuTree] has returned for such a
    document name no member of [Object.prototype]. *)
Lemma parsed_plain sketchJson tree :
  safeIds sketchJson = true ->
  parseLanhuTree sketchJson = Returns tree ->
  forall id, In id (keys (nodesById tree)) -> protoName id = false.
Proof.
  intros Hsafe Hparse id Hin. apply parseLanhuTree_returns in Hparse.
  apply (plainIds_In _ _ Hsafe). now apply (parseLanhuTreeOwn_keys _ _ Hparse).
Qed.

(* ===================================================================== *)
(** * 29. Walks of a tree that stay with the own properties *)
(* ===================================================================== *)

(** ** [getAncestorIds] *)

Lemma ancestorsLoop_own tree :
  plainParents tree ->
  forall fuel id result out,
    read id (parentById tree) <> Inherited ->
    ancestorsLoopOwn fuel tree id result = Some out ->
    ancestorsLoop fuel tree id result = Returns out.
Proof.
  intros Hplain. induction fuel as [|fuel IH]; intros id result out Hid Hrun;
    [discriminate|].
  simpl in *. rewrite (read_not_Inherited _ _ Hid).
  destruct (lookup id (parentById tree)) as [[parentId|]|] eqn:L;
    try (now injection Hrun as <-).
  destruct (nonEmpty parentId); [|now injection Hrun as <-].
  apply IH; [|assumption]. now apply (Hplain id parentId).
Qed.

Lemma ancestorsLoop_returns tree :
  forall fuel id result out,
    ancestorsLoop fuel tree id result = Returns out ->
    ancestorsLoopOwn fuel tree id result = Some out.
Proof.
  induction fuel as [|fuel IH]; intros id result out Hrun; [discriminate|].
  simpl in *. unfold read in Hrun.
  destruct (lookup id (parentById tree)) as [[parentId|]|] eqn:L.
  - destruct (nonEmpty parentId); [now apply IH | now injection Hrun as <-].
  - now injection Hrun as <-.
  - destruct (protoName id); [discriminate | now injection Hrun as <-].
Qed.

Lemma ancestorsLoop_inherited tree fuel id result :
  read id (parentById tree) = Inherited ->
  ancestorsLoop (S fuel) tree id result = ProtoAccess.
Proof. intros H. simpl. now rewrite H. Qed.

(** The parents a parsed tree stores are keys of [parentById]. *)
Lemma parsed_plainParents sketchJson tree :
  parseLanhuTree sketchJson = Returns tree -> plainParents tree.
Proof.
  intros Hparse child parent Hp. apply parseLanhuTree_returns in Hparse.
  run_invariants Hparse as HB _ _. apply read_key.
  pose proof (inv_keys _ _ _ HB) as E. simpl in E. rewrite E.
  exact (inv_parents _ _ _ HB child parent Hp).
Qed.

(** ** [getDescendantIds] *)

Lemma descendantsLoop_own tree :
  plainChildren tree ->
  forall fuel queue result out,
    Forall (fun id => read id (childrenById tree) <> Inherited) queue ->
    descendantsLoopOwn fuel tree queue result = Some out ->
    descendantsLoop fuel tree queue result = Returns out.
Proof.
  intros Hplain. induction fuel as [|fuel IH]; intros queue result out Hq Hrun.
  - destruct queue; [|discriminate]. now injection Hrun as <-.
  - destruct queue as [|id rest]; [now injection Hrun as <-|].
    rewrite descendantsLoopOwn_S in Hrun. inversion Hq as [|? ? Hid Hrest]; subst.
    cbn [descendantsLoop]. rewrite (read_not_Inherited _ _ Hid).
    unfold childrenOfOwn in Hrun.
    destruct (lookup id (childrenById tree)) as [childIds|] eqn:L.
    + rewrite fold_enqueueChild. apply IH; [|assumption].
      apply Forall_app. split; [assumption|].
      apply Forall_forall. intros c Hc. now apply (Hplain id childIds).
    + rewrite !app_nil_r in Hrun. now apply IH.
Qed.

Lemma descendantsLoop_inherited tree fuel id rest result :
  read id (childrenById tree) = Inherited ->
  descendantsLoop (S fuel) tree (id :: rest) result = Throws.
Proof. intros H. simpl. now rewrite H. Qed.

(** ** [getTreePreorderIds] *)

Lemma preorderStep_own tree included top rest result :
  read (fst top) (childrenById tree) <> Inherited ->
  preorderStep tree included top rest result =
  Returns (preorderStepOwn tree included top rest result).
Proof.
  destruct top as [id idx]. simpl. intros H.
  unfold preorderStep, preorderStepOwn. rewrite (read_not_Inherited _ _ H).
  now destruct (lookup id (childrenById tree)).
Qed.

Lemma read_empty_key {A : Type} (o : JsRecord A) : read "" o <> Inherited.
Proof. rewrite read_plain by reflexivity. now destruct (lookup "" o). Qed.

Lemma preorderStepOwn_stack tree included top rest result :
  plainChildren tree ->
  Forall (fun frame => read (fst frame) (childrenById tree) <> Inherited) (top :: rest) ->
  Forall (fun frame => read (fst frame) (childrenById tree) <> Inherited)
         (fst (preorderStepOwn tree included top rest result)).
Proof.
  intros Hplain Hstack. inversion Hstack as [|? ? Htop Hrest]; subst.
  destruct top as [id idx]. unfold preorderStepOwn.
  match goal with
  | |- context [if ?c then (rest, _) else _] => destruct c
  end; cbn [fst]; [assumption|].
  constructor; [|constructor; assumption]. cbn [fst]. unfold at_index.
  destruct (lookup id (childrenById tree)) as [children|] eqn:L.
  - match goal with
    | |- context [nth ?n children ""] =>
        destruct (nth_in_or_default n children "") as [Hin | ->]
    end; [exact (Hplain id children _ L Hin) | apply read_empty_key].
  - match goal with
    | |- context [nth ?n [] ""] => destruct n
    end; apply read_empty_key.
Qed.

Lemma preorderLoop_own tree included :
  plainChildren tree ->
  forall fuel stack result out,
    Forall (fun frame => read (fst frame) (childrenById tree) <> Inherited) stack ->
    preorderLoopOwn fuel tree included stack result = Some out ->
    preorderLoop fuel tree included stack result = Returns out.
Proof.
  intros Hplain. induction fuel as [|fuel IH]; intros stack result out Hstack Hrun.
  - destruct stack; [|discriminate]. now injection Hrun as <-.
  - destruct stack as [|top rest]; [now injection Hrun as <-|].
    cbn [preorderLoop]. inversion Hstack as [|? ? Htop Hrest]; subst.
    rewrite (preorderStep_own _ _ _ _ _ Htop). cbn [bind].
    pose proof (preorderStepOwn_stack tree included top rest result Hplain Hstack) as Hnext.
    cbn [preorderLoopOwn] in Hrun.
    destruct (preorderStepOwn tree included top rest result) as [stack' result'].
    now apply IH.
Qed.

(** ** The reads of the export *)

Lemma exportNodes_own tree ids nodes :
  exportNodes tree ids = Returns nodes <-> exportNodesOwn tree ids = Some nodes.
Proof.
  revert nodes. induction ids as [|id ids IH]; intros nodes; simpl.
  - split; intros [= <-]; reflexivity.
  - unfold read. destruct (lookup id (nodesById tree)) as [node|].
    + destruct (exportNodes tree ids) as [rest| | |] eqn:E1;
        destruct (exportNodesOwn tree ids) as [rest'|] eqn:E2; simpl;
        try (pose proof (proj1 (IH rest) eq_refl) as Hrest; try discriminate Hrest);
        try (pose proof (proj2 (IH rest') eq_refl) as Hrest'; try discriminate Hrest');
        try (split; discriminate).
      injection Hrest as ->. split; intros [= <-]; reflexivity.
    + destruct (protoName id); split; discriminate.
Qed.

Lemma parentValue_own tree id :
  read id (parentById tree) <> Inherited -> parentValue tree id = Returns (parentJson tree id).
Proof.
  intros H. unfold parentValue, parentJson. rewrite (read_not_Inherited _ _ H).
  now destruct (lookup id (parentById tree)) as [[p|]|].
Qed.

Lemma exportParents_own tree ids :
  forall acc,
    (forall id, In id ids ->
                read id (parentById tree) <> Inherited /\ id <> "__proto__") ->
    exportParents tree ids acc =
    Returns (fold_left (fun (acc : JsRecord value) id => assign id (parentJson tree id) acc)
                       ids acc).
Proof.
  induction ids as [|id ids IH]; intros acc H; [reflexivity|].
  destruct (H id (or_introl eq_refl)) as [Hread Hne].
  cbn [exportParents fold_left]. rewrite (parentValue_own _ _ Hread). cbn [bind].
  rewrite write_plain by now apply String.eqb_neq.
  apply IH. intros x Hx. apply H. now right.
Qed.

(** On ids that are keys of [nodesById] and of [parentById], and none of
    them [__proto__], the export is the one on own properties. *)
Lemma exportIds_own tree selectedId compactExport ids :
  (forall id, In id ids ->
              In id (keys (nodesById tree)) /\ In id (keys (parentById tree)) /\
              id <> "__proto__") ->
  exportIds tree selectedId compactExport ids =
  exportIdsOwn tree selectedId compactExport ids.
Proof.
  intros H. unfold exportIds, exportIdsOwn.
  destruct (exportNodesOwn_total tree ids) as (nodes & Hnodes).
  { intros id Hin. now apply H. }
  rewrite Hnodes, (proj2 (exportNodes_own tree ids nodes) Hnodes). cbn [bind].
  rewrite exportParents_own.
  - reflexivity.
  - intros id Hin. destruct (H id Hin) as (_ & Hp & Hne). split; [|assumption].
    now apply read_key.
Qed.

(** What a tree that [parseLanhuTree] has returned for a document without
    prototype names lets the walks read. *)
Lemma parsed_plainChildren sketchJson tree :
  safeIds sketchJson = true ->
  parseLanhuTree sketchJson = Returns tree ->
  plainChildren tree.
Proof.
  intros Hsafe Hparse parent l child Hl Hin.
  pose proof (parsed_plain _ _ Hsafe Hparse) as Hplain.
  apply parseLanhuTree_returns in Hparse. run_invariants Hparse as HB _ _.
  rewrite read_plain; [now destruct (lookup child (childrenById tree))|].
  apply Hplain. exact (proj2 (inv_children _ _ _ HB parent l Hl) child Hin).
Qed.

Lemma parsed_read_children sketchJson tree id :
  safeIds sketchJson = true ->
  parseLanhuTree sketchJson = Returns tree ->
  In id (keys (nodesById tree)) \/ protoName id = false ->
  read id (childrenById tree) <> Inherited.
Proof.
  intros Hsafe Hparse Hid.
  assert (Hplain : protoName id = false).
  { destruct Hid as [Hid|Hid]; [|assumption]. now apply (parsed_plain _ _ Hsafe Hparse). }
  rewrite read_plain by assumption. now destruct (lookup id (childrenById tree)).
Qed.

Lemma parsed_export_ids sketchJson tree ids :
  parseLanhuTree sketchJson = Returns tree ->
  (forall id, In id ids -> In id (keys (nodesById tree))) ->
  forall id, In id ids ->
             In id (keys (nodesById tree)) /\ In id (keys (parentById tree)) /\
             id <> "__proto__".
Proof.
  intros Hparse Hids id Hin. specialize (Hids id Hin).
  pose proof (parseLanhuTree_no_proto _ _ Hparse) as Hproto.
  apply parseLanhuTree_returns in Hparse. run_invariants Hparse as HB _ _.
  pose proof (inv_keys _ _ _ HB) as E. simpl in E.
  split; [assumption|]. split; [now rewrite E|]. intros ->. contradiction.
Qed.

(* ===================================================================== *)
(** * 30. The tree builder, with the prototype *)
(* ===================================================================== *)



(** C5. A queued element that is not an object or has no (non-empty) id
    leaves the four variables of the loop as they are, the work stack
    included, so that nothing below it is ever queued; its siblings are
    visited as if it were absent. Over a whole run that returns, the keys
    of [nodesById] are exactly the ids of the nodes reached through
    registered nodes only, and that list does not depend on what lies below
    a skipped element. *)
Theorem skipped_node_drops_subtree :
  (forall parentId st elem,
      skipped elem = true -> visit parentId st elem = Returns st) /\
  (forall parentId st before elem after,
      skipped elem = true ->
      visitAll parentId (before ++ elem :: after) st =
      visitAll parentId (before ++ after) st) /\
  (forall sketchJson tree,
      parseLanhuTree sketchJson = Returns tree ->
      forall id, In id (keys (nodesById tree)) <-> In id (registeredIds sketchJson)) /\
  (forall before elem after,
      skipped elem = true ->
      idsOfElems (before ++ elem :: after) = idsOfElems (before ++ after)).
Proof.
  split; [|split; [|split]].
  - intros parentId st elem H. apply visit_skip. now apply skipped_idsOfElem.
  - intros parentId st before elem after H. rewrite !visitAll_app.
    destruct (visitAll parentId before st) as [st1| | |]; try reflexivity.
    cbn [bind]. rewrite visitAll_cons.
    rewrite visit_skip by now apply skipped_idsOfElem. reflexivity.
  - intros sketchJson tree Hparse. apply parseLanhuTree_returns in Hparse.
    now apply parseLanhuTreeOwn_keys.
  - intros before elem after H.
    rewrite !idsOfElems_app, idsOfElems_cons, (skipped_idsOfElem _ H). reflexivity.
Qed.

(** C10. The empty id counts as no id. An artboard whose id is the empty
    string gives the empty tree, as an artboard without id does; a queued
    layer whose id is the empty string is skipped as one without id is: the
    loop state stays as it is and nothing below the layer is queued or
    registered. In a tree that [parseLanhuTree] returns the empty id occurs
    in none of the four mappings. *)
Theorem empty_id_is_no_id :
  (forall layers props,
      parseLanhuTree (mkSketch (Some (Layer (Some "") layers props))) = Returns emptyTree /\
      parseLanhuTree (mkSketch (Some (Layer None layers props))) = Returns emptyTree) /\
  (forall parentId st layers props,
      visit parentId st (Some (Layer (Some "") layers props)) = Returns st /\
      visit parentId st (Some (Layer None layers props)) = Returns st) /\
  (forall layers props,
      skipped (Some (Layer (Some "") layers props)) = true /\
      idsOfElem (Some (Layer (Some "") layers props)) = []) /\
  (forall sketchJson tree,
      parseLanhuTree sketchJson = Returns tree -> noEmptyId tree).
Proof.
  split; [|split; [|split]].
  - intros layers props. split; reflexivity.
  - intros parentId st layers props. split; reflexivity.
  - intros layers props. split; reflexivity.
  - intros sketchJson tree Hparse. apply parseLanhuTree_returns in Hparse.
    now apply (parseLanhuTreeOwn_noEmptyId sketchJson).
Qed.

(** C8, amended. For every node the exported record has exactly the
    nineteen allowlisted keys, in the same order; every field other than
    [id] is the node's value when the node has one and [null] when it is
    absent (or [null]) on the node; [id] is copied as it is, so that it is
    [undefined] on a node without [id]. On the nodes of a tree that
    [parseLanhuTree] returns the exported [id] is the key of the node. *)
Theorem pickExportNode_shape :
  (forall node,
    keys (fieldsOf (pickExportNode node)) = exportKeys /\
    pickExportNode node = VObject (fieldsOf (pickExportNode node)) /\
    get (pickExportNode node) "id" = id_value node /\
    (forall k, In k exportKeys -> k <> "id" ->
               get (pickExportNode node) k = prop node k ?? VNull) /\
    (forall k, In k exportKeys -> k <> "id" ->
               nullish (prop node k) = true -> get (pickExportNode node) k = VNull) /\
    (forall k, In k exportKeys -> k <> "id" ->
               nullish (prop node k) = false ->
               get (pickExportNode node) k = prop node k)) /\
  (forall sketchJson tree,
      parseLanhuTree sketchJson = Returns tree ->
      forall k node,
        lookup k (nodesById tree) = Some node ->
        get (pickExportNode node) "id" = VString k).
Proof.
  split; [exact (proj1 pickExportNode_fields)|].
  intros sketchJson tree Hparse k node Hk. apply parseLanhuTree_returns in Hparse.
  change (get (pickExportNode node) "id") with (id_value node).
  unfold id_value. now rewrite (parseLanhuTreeOwn_node_ids _ _ Hparse k node Hk).
Qed.

(* ===================================================================== *)
(** * 31. The walk to the root, with the prototype *)
(* ===================================================================== *)



(* ===================================================================== *)
(** * 32. Clicks on the wireframe of a parsed document *)
(* ===================================================================== *)

(** C4. Let the candidate list of a click hold pairwise different non-empty
    ids, as every candidate list of a tree that [parseLanhuTree] returns
    does. When the signature of the list equals the one of the previous
    click and the selected id is the candidate at an index [i] that is not
    the last, the next selection is the candidate at [i + 1] (at the last
    index the selection stays). When the signature differs from the
    previous one, or nothing is selected, or the selected id is not a
    candidate, the next selection is the candidate at index 0. The
    signature of the list is remembered; a click that meets no candidate
    changes nothing. *)
Theorem repeated_click_advances_or_resets :
  (forall candidateIds st i sel,
      NoDup candidateIds -> ~ In "" candidateIds ->
      lastSig st = Some (Array_join "|" candidateIds) ->
      selectedId st = Some sel ->
      nth_error candidateIds i = Some sel ->
      S i < List.length candidateIds ->
      selectedId (pickNext candidateIds st) = nth_error candidateIds (S i)) /\
  (forall candidateIds st i sel,
      NoDup candidateIds -> ~ In "" candidateIds ->
      lastSig st = Some (Array_join "|" candidateIds) ->
      selectedId st = Some sel ->
      nth_error candidateIds i = Some sel ->
      S i = List.length candidateIds ->
      selectedId (pickNext candidateIds st) = Some sel) /\
  (forall first rest st,
      lastSig st <> Some (Array_join "|" (first :: rest)) ->
      selectedId (pickNext (first :: rest) st) = Some first) /\
  (forall first rest st,
      (forall sel, selectedId st = Some sel -> ~ In sel (first :: rest)) ->
      selectedId (pickNext (first :: rest) st) = Some first) /\
  (forall first rest st,
      lastSig (pickNext (first :: rest) st) = Some (Array_join "|" (first :: rest))) /\
  (forall st, pickNext [] st = st) /\
  (forall sketchJson tree hiddenById x y,
      parseLanhuTree sketchJson = Returns tree ->
      let candidateIds :=
        pickCandidatesAtPoint (rectIndexVisible (rectIndexAll tree) hiddenById) x y in
      NoDup candidateIds /\ ~ In "" candidateIds).
Proof.
  destruct repeated_click_own as (H1 & H2 & H3 & H4 & H5 & H6 & _).
  repeat (split; [assumption|]).
  intros sketchJson tree hiddenById x y Hparse. apply parseLanhuTree_returns in Hparse.
  now apply (candidates_distinct sketchJson).
Qed.


(* ===================================================================== *)
(** * 33. The traversals of a parsed document, with the prototype *)
(* ===================================================================== *)

Section PlainDocument.
Variable sketchJson : LanhuSketchJson.
Variable tree : LanhuTree.
Hypothesis ids_distinct : NoDup (registeredIds sketchJson).
Hypothesis ids_plain : safeIds sketchJson = true.
Hypothesis parsed : parseLanhuTree sketchJson = Returns tree.

Lemma plain_parsedOwn : parseLanhuTreeOwn sketchJson = Some tree.
Proof. now apply parseLanhuTree_returns. Qed.

Lemma getTreePreorderIds_parsed included fuel :
  2 * List.length (nodesById tree) <= fuel ->
  getTreePreorderIds fuel tree included =
  Returns (filter (Set_has included) (registeredIds sketchJson)).
Proof.
  intros Hfuel. unfold getTreePreorderIds.
  apply preorderLoop_own.
  - now apply (parsed_plainChildren sketchJson).
  - apply Forall_forall. intros [id idx] Hin. cbn [fst].
    apply in_map_iff in Hin. destruct Hin as (r & [= <- _] & Hr).
    apply (parsed_read_children sketchJson); try assumption. left.
    pose proof plain_parsedOwn as Hown. run_invariants Hown as HB Hroots _.
    now apply Hroots.
  - apply (getTreePreorderIdsOwn_parsed sketchJson); try assumption.
    exact plain_parsedOwn.
Qed.

Lemma getDescendantIds_parsed k n fuel includeSelf :
  lookup k (nodesById tree) = Some n ->
  List.length (nodesById tree) <= fuel ->
  exists below,
    getDescendantIds fuel tree k includeSelf =
      Returns ((if includeSelf then [k] else []) ++ below) /\
    Permutation below (idsBelow n) /\
    NoDup (k :: below).
Proof.
  intros Hnode Hfuel.
  destruct (getDescendantIdsOwn_parsed sketchJson tree ids_distinct plain_parsedOwn
              k n fuel includeSelf Hnode Hfuel) as (below & Hrun & Hperm & Hnd).
  exists below. split; [|split; assumption].
  unfold getDescendantIds. apply descendantsLoop_own.
  - now apply (parsed_plainChildren sketchJson).
  - constructor; [|constructor].
    apply (parsed_read_children sketchJson); try assumption. left.
    now apply lookup_Some_key in Hnode.
  - exact Hrun.
Qed.

(** An id that is no node of the tree has no list of children; the read
    [childrenById[id]] finds nothing, or the member of [Object.prototype]
    that the id names. *)
Lemma parsed_unknown_children id :
  lookup id (nodesById tree) = None -> lookup id (childrenById tree) = None.
Proof.
  intros Hnone. destruct (lookup id (childrenById tree)) as [l|] eqn:E; [|reflexivity].
  exfalso. pose proof plain_parsedOwn as Hown. run_invariants Hown as HB _ _.
  pose proof (proj1 (inv_children _ _ _ HB id l E)) as Hin.
  apply lookup_None_iff in Hnone. contradiction.
Qed.

Lemma getAncestorIds_parsed id :
  In id (keys (nodesById tree)) \/ protoName id = false ->
  exists chain, getAncestorIds tree id = Returns chain /\ ancestorChain tree id chain.
Proof.
  intros Hid.
  destruct (getAncestorIdsOwn_parsed sketchJson tree id ids_distinct plain_parsedOwn)
    as (chain & Hrun & Hchain).
  exists chain. split; [|assumption]. apply ancestorsLoop_own.
  - now apply (parsed_plainParents sketchJson).
  - pose proof plain_parsedOwn as Hown. run_invariants Hown as HB _ _.
    pose proof (inv_keys _ _ _ HB) as E. simpl in E.
    destruct Hid as [Hid|Hid]; [apply read_key; now rewrite E|].
    rewrite read_plain by assumption. now destruct (lookup id (parentById tree)).
  - exact Hrun.
Qed.

(** The containment export is the export of the registered nodes whose id
    is in [included], in document order. *)
Lemma exportVisuallyContained_parsed selectedId container containerRect fuel compactExport :
  lookup selectedId (nodesById tree) = Some container ->
  getNodeRect container = Some containerRect ->
  2 * List.length (nodesById tree) <= fuel ->
  let included := containedIds (rectIndexAll tree) containerRect selectedId in
  let exported :=
    filter (fun kn => Set_has included (fst kn)) (registeredNodes sketchJson) in
  let nodes := map (fun kn => pickExportNode (snd kn)) exported in
  map fst exported = filter (Set_has included) (registeredIds sketchJson) /\
  Permutation (map fst exported) included /\
  List.length nodes = List.length included /\
  exportNodes tree (map fst exported) = Returns nodes /\
  exportParents tree (map fst exported) [] =
    Returns (fold_left (fun (acc : JsRecord value) id => assign id (parentJson tree id) acc)
                       (map fst exported) []) /\
  exportVisuallyContained fuel (Some tree) (Some selectedId) compactExport =
    exportIds tree selectedId compactExport (map fst exported) /\
  exportVisuallyContained fuel (Some tree) (Some selectedId) false =
    ExportText
      (VObject [ ("selectedId", VString selectedId);
                 ("count", count_value (List.length included));
                 ("parentById",
                  VObject (fold_left
                             (fun (acc : JsRecord value) id =>
                                assign id (parentJson tree id) acc)
                             (map fst exported) []));
                 ("nodes", VArray nodes) ]).
Proof.
  intros Hsel Hrect Hfuel included exported nodes.
  pose proof plain_parsedOwn as Hown.
  destruct (exportVisuallyContainedOwn_exports_contained_nodes
              sketchJson tree selectedId container containerRect fuel compactExport
              ids_distinct Hown Hsel Hrect Hfuel)
    as (Hperm & Hlen & Hnodes & _ & _).
  fold included in Hperm, Hlen, Hnodes. fold exported in Hperm, Hlen, Hnodes.
  fold nodes in Hlen, Hnodes.
  assert (Hids : map fst exported = filter (Set_has included) (registeredIds sketchJson)).
  { unfold exported. now rewrite <- filter_map_fst, keys_registeredNodes. }
  assert (Hkeys : forall id, In id (map fst exported) ->
                             In id (keys (nodesById tree)) /\
                             In id (keys (parentById tree)) /\ id <> "__proto__").
  { apply (parsed_export_ids sketchJson); [assumption|].
    intros id Hin. rewrite Hids in Hin. apply filter_In in Hin.
    now apply (parseLanhuTreeOwn_keys _ _ Hown). }
  assert (Hparents : exportParents tree (map fst exported) [] =
                     Returns (fold_left (fun (acc : JsRecord value) id =>
                                           assign id (parentJson tree id) acc)
                                        (map fst exported) [])).
  { apply exportParents_own. intros id Hin. destruct (Hkeys id Hin) as (_ & Hp & Hne).
    split; [now apply read_key | assumption]. }
  assert (Hne : nonEmpty selectedId = true).
  { run_invariants Hown as HB _ _. apply (inv_truthy _ _ _ HB).
    now apply lookup_Some_key in Hsel. }
  assert (Hexport : forall compact,
             exportVisuallyContained fuel (Some tree) (Some selectedId) compact =
             exportIds tree selectedId compact (map fst exported)).
  { intros compact. unfold exportVisuallyContained.
    rewrite Hne, (read_lookup_Some _ _ _ Hsel), Hrect. unfold exportIncluded.
    fold included. rewrite (getTreePreorderIds_parsed included fuel Hfuel).
    now rewrite Hids. }
  apply exportNodes_own in Hnodes.
  repeat (split; [assumption || apply Hexport|]).
  rewrite Hexport. unfold exportIds. rewrite Hnodes. cbn [bind]. rewrite Hparents.
  cbn [bind exportOf]. now rewrite Hlen.
Qed.
End PlainDocument.

(* ===================================================================== *)
(** * 34. Containment export, with the prototype *)
(* ===================================================================== *)



(** X4. The containment export of a document whose registered ids are
    pairwise different and name no member of [Object.prototype], for a
    selected node whose rectangle resolves: it returns within twice as
    many iterations of the traversal as the tree has nodes, and it exports
    the registered nodes of the document whose id is the selected one or
    that of an index entry inside the container, each once and in document
    order; [count] is the number of these ids, every exported id has its
    node, and nothing is thrown. *)
Theorem exportVisuallyContained_exports_contained_nodes :
  forall sketchJson tree selectedId container containerRect fuel compactExport,
    NoDup (registeredIds sketchJson) ->
    safeIds sketchJson = true ->
    parseLanhuTree sketchJson = Returns tree ->
    lookup selectedId (nodesById tree) = Some container ->
    getNodeRect container = Some containerRect ->
    2 * List.length (nodesById tree) <= fuel ->
    let included := containedIds (rectIndexAll tree) containerRect selectedId in
    let exported :=
      filter (fun kn => Set_has included (fst kn)) (registeredNodes sketchJson) in
    let nodes := map (fun kn => pickExportNode (snd kn)) exported in
    map fst exported = filter (Set_has included) (registeredIds sketchJson) /\
    Permutation (map fst exported) included /\
    List.length nodes = List.length included /\
    exportNodes tree (map fst exported) = Returns nodes /\
    exportVisuallyContained fuel (Some tree) (Some selectedId) compactExport =
      exportIds tree selectedId compactExport (map fst exported) /\
    exportVisuallyContained fuel (Some tree) (Some selectedId) false =
      ExportText
        (VObject [ ("selectedId", VString selectedId);
                   ("count", count_value (List.length included));
                   ("parentById",
                    VObject (fold_left
                               (fun (acc : JsRecord value) id =>
                                  assign id (parentJson tree id) acc)
                               (map fst exported) []));
                   ("nodes", VArray nodes) ]).
Proof.
  intros sketchJson tree selectedId container containerRect fuel compactExport
         Hnd Hsafe Hparse Hsel Hrect Hfuel included exported nodes.
  destruct (exportVisuallyContained_parsed sketchJson tree Hnd Hsafe Hparse
              selectedId container containerRect fuel compactExport Hsel Hrect Hfuel)
    as (Hids & Hperm & Hlen & Hnodes & _ & Hexport & Htext).
  repeat (split; [assumption|]). exact Htext.
Qed.

(* ===================================================================== *)
(** * 35. The tree of a document, with the prototype *)
(* ===================================================================== *)



(** X3. On the tree of a document whose registered ids are pairwise
    different and name no member of [Object.prototype],
    [getTreePreorderIds] returns within twice as many iterations as the
    tree has nodes, and what it returns is the list of the registered ids
    of the document, in document order, without those that are not in
    [included]: every included id that is a node of the tree is listed
    once, and nothing else is. On the tree of an artboard with the two
    layers [constructor] and ["B"] the loop reads the member [constructor]
    of [Object.prototype] where it looks for the children of the first
    layer. *)
Theorem getTreePreorderIds_document_order :
  (forall sketchJson tree included fuel,
    NoDup (registeredIds sketchJson) ->
    safeIds sketchJson = true ->
    parseLanhuTree sketchJson = Returns tree ->
    2 * List.length (nodesById tree) <= fuel ->
    exists ids,
      getTreePreorderIds fuel tree included = Returns ids /\
      ids = filter (Set_has included) (registeredIds sketchJson) /\
      NoDup ids /\
      (forall id, In id ids <-> In id included /\ In id (keys (nodesById tree)))) /\
  parseLanhuTree protoLeafSketch = Returns protoLeafTree /\
  getTreePreorderIds 6 protoLeafTree ["B"] = ProtoAccess.
Proof.
  split; [|split; reflexivity].
  intros sketchJson tree included fuel Hnd Hsafe Hparse Hfuel.
  exists (filter (Set_has included) (registeredIds sketchJson)).
  split; [now apply getTreePreorderIds_parsed|]. split; [reflexivity|]. split.
  - now apply NoDup_filter.
  - intros id. apply parseLanhuTree_returns in Hparse.
    rewrite filter_In, Set_has_In, (parseLanhuTreeOwn_keys _ _ Hparse). tauto.
Qed.

Lemma descendantsLoop_returns tree :
  forall fuel queue result out,
    descendantsLoop fuel tree queue result = Returns out ->
    descendantsLoopOwn fuel tree queue result = Some out.
Proof.
  induction fuel as [|fuel IH]; intros queue result out Hrun.
  - destruct queue; [|discriminate]. now injection Hrun as <-.
  - destruct queue as [|id rest]; [now injection Hrun as <-|].
    rewrite descendantsLoopOwn_S. cbn [descendantsLoop] in Hrun.
    unfold read in Hrun. unfold childrenOfOwn.
    destruct (lookup id (childrenById tree)) as [childIds|].
    + rewrite fold_enqueueChild in Hrun. now apply IH.
    + destruct (protoName id); [discriminate|]. rewrite !app_nil_r. now apply IH.
Qed.

(** X5. On the tree of a document whose registered ids are pairwise
    different and name no member of [Object.prototype], [getDescendantIds]
    of a node returns within as many iterations as the tree has nodes;
    without [includeSelf] the result holds exactly the ids registered below
    the node, each once; with [includeSelf] it is the same list behind the
    id of the node. For an id that is no node of the tree the result is
    empty, or the id alone with [includeSelf], unless the id names a
    member of [Object.prototype]: then the [for ... of] over that member
    throws. It throws as well on the tree of an artboard with the two
    layers [constructor] and ["B"], when it comes to the first layer. *)
Theorem getDescendantIds_lists_nodes_below :
  (forall sketchJson tree,
    NoDup (registeredIds sketchJson) ->
    safeIds sketchJson = true ->
    parseLanhuTree sketchJson = Returns tree ->
    (forall id node fuel,
        lookup id (nodesById tree) = Some node ->
        List.length (nodesById tree) <= fuel ->
        exists below,
          getDescendantIds fuel tree id false = Returns below /\
          getDescendantIds fuel tree id true = Returns (id :: below) /\
          Permutation below (idsBelow node) /\
          NoDup (id :: below)) /\
    (forall id fuel,
        lookup id (nodesById tree) = None ->
        getDescendantIds (S fuel) tree id false =
          (if protoName id then Throws else Returns []) /\
        getDescendantIds (S fuel) tree id true =
          (if protoName id then Throws else Returns [id]))) /\
  getDescendantIds 6 protoLeafTree "R" true = Throws.
Proof.
  split; [|reflexivity].
  intros sketchJson tree Hnd Hsafe Hparse. split.
  - intros id node fuel Hnode Hfuel.
    destruct (getDescendantIds_parsed sketchJson tree Hnd Hsafe Hparse
                id node fuel false Hnode Hfuel) as (below & Hrun & Hperm & Hdistinct).
    destruct (getDescendantIds_parsed sketchJson tree Hnd Hsafe Hparse
                id node fuel true Hnode Hfuel) as (below' & Hrun' & _ & _).
    exists below. split; [exact Hrun|]. split; [|split; assumption].
    cbn [app] in Hrun, Hrun'. rewrite Hrun'. f_equal.
    unfold getDescendantIds in Hrun, Hrun'.
    apply descendantsLoop_returns in Hrun. apply descendantsLoop_returns in Hrun'.
    pose proof (getDescendantIdsOwn_includeSelf fuel tree id) as E.
    unfold getDescendantIdsOwn in E. rewrite Hrun, Hrun' in E. now injection E as ->.
  - intros id fuel Hnone.
    pose proof (parsed_unknown_children sketchJson tree Hparse id Hnone) as Hleaf.
    unfold getDescendantIds. cbn [descendantsLoop]. unfold read. rewrite Hleaf.
    destruct (protoName id); [split; reflexivity|].
    split; now destruct fuel.
Qed.


(* ===================================================================== *)
(** * 36. Loading a document and exporting below a node, with the prototype *)
(* ===================================================================== *)

Lemma parseLanhuTree_skipped sketchJson :
  skipped (artboard sketchJson) = true -> parseLanhuTree sketchJson = Returns emptyTree.
Proof.
  unfold skipped, registrable, parseLanhuTree.
  destruct (artboard sketchJson) as [root|]; [|reflexivity].
  destruct (node_id root) as [rootId|]; [|reflexivity].
  now destruct (nonEmpty rootId).
Qed.


Lemma exportNodesOwn_keys tree ids :
  forall nodes,
    exportNodesOwn tree ids = Some nodes ->
    forall id, In id ids -> In id (keys (nodesById tree)).
Proof.
  induction ids as [|x ids IH]; intros nodes H id Hin; [contradiction|].
  simpl in H. destruct (lookup x (nodesById tree)) as [n|] eqn:E; [|discriminate].
  destruct (exportNodesOwn tree ids) as [ns|]; [|discriminate].
  destruct Hin as [<-|Hin]; [now apply lookup_Some_key in E|].
  now apply (IH ns).
Qed.

(** X11. The export of the descendants of a selected node, on the tree of
    a document whose registered ids are pairwise different and name no
    member of [Object.prototype]: it returns within as many iterations as
    the tree has nodes; the exported nodes are the selected node first and
    then the nodes registered below it, each once; [count] is their
    number; and [parentById] has the parent of exactly the exported ids. *)
Theorem exportSelectedDescendants_exports_subtree :
  forall sketchJson tree selectedId node fuel,
    NoDup (registeredIds sketchJson) ->
    safeIds sketchJson = true ->
    parseLanhuTree sketchJson = Returns tree ->
    lookup selectedId (nodesById tree) = Some node ->
    List.length (nodesById tree) <= fuel ->
    exists below nodes parents,
      getDescendantIds fuel tree selectedId true = Returns (selectedId :: below) /\
      Permutation below (idsBelow node) /\
      exportNodes tree (selectedId :: below) = Returns (pickExportNode node :: nodes) /\
      List.length nodes = List.length (idsBelow node) /\
      (forall id,
          lookup id parents =
          if in_dec string_dec id (selectedId :: below)
          then Some (parentJson tree id) else None) /\
      exportSelectedDescendants fuel (Some tree) (Some selectedId) false =
        ExportText
          (VObject [ ("selectedId", VString selectedId);
                     ("count", count_value (S (List.length (idsBelow node))));
                     ("parentById", VObject parents);
                     ("nodes", VArray (pickExportNode node :: nodes)) ]).
Proof.
  intros sketchJson tree selectedId node fuel Hnd Hsafe Hparse Hnode Hfuel.
  pose proof (parseLanhuTree_returns _ _ Hparse) as Hown.
  destruct (exportSelectedDescendantsOwn_exports_subtree
              sketchJson tree selectedId node fuel Hnd Hown Hnode Hfuel)
    as (below & nodes & parents & Hrun & Hperm & Hnodes & Hlen & Hparents & Htext).
  exists below, nodes, parents.
  assert (Hrun' : getDescendantIds fuel tree selectedId true = Returns (selectedId :: below)).
  { unfold getDescendantIds. apply descendantsLoop_own.
    - now apply (parsed_plainChildren sketchJson).
    - constructor; [|constructor].
      apply (parsed_read_children sketchJson); try assumption. left.
      now apply lookup_Some_key in Hnode.
    - exact Hrun. }
  split; [exact Hrun'|]. split; [exact Hperm|].
  split; [now apply exportNodes_own|]. split; [exact Hlen|]. split; [exact Hparents|].
  assert (Hne : nonEmpty selectedId = true).
  { run_invariants Hown as HB _ _. apply (inv_truthy _ _ _ HB).
    now apply lookup_Some_key in Hnode. }
  unfold exportSelectedDescendants. rewrite Hne, Hrun'.
  rewrite exportIds_own.
  - unfold exportSelectedDescendantsOwn in Htext. now rewrite Hne, Hrun in Htext.
  - apply (parsed_export_ids sketchJson); [assumption|].
    now apply (exportNodesOwn_keys _ _ _ Hnodes).
Qed.

(** X12. With [compactExport], on a tree that [parseLanhuTree] returns and
    for ids that all have their node, the exported value is the compacted
    payload itself (the fallback to the uncompacted payload is never
    taken): an object without [null], [undefined] or empty containers at
    any depth that keeps [selectedId] and [count], and whose [nodes], when
    any id is exported, has one object for every exported id, with that
    id. *)
Theorem compact_export_keeps_ids_and_count :
  forall sketchJson tree selectedId ids nodes,
    parseLanhuTree sketchJson = Returns tree ->
    exportNodes tree ids = Returns nodes ->
    exists out,
      exportIds tree selectedId true ids = ExportText (VObject out) /\
      compacted (VObject out) = true /\
      lookup "selectedId" out = Some (VString selectedId) /\
      lookup "count" out = Some (count_value (List.length ids)) /\
      (ids <> [] ->
       exists compactNodes,
         lookup "nodes" out = Some (VArray compactNodes) /\
         Forall2 (fun id node => get node "id" = VString id) ids compactNodes) /\
      (forall k, In k (keys out) -> In k ["selectedId"; "count"; "parentById"; "nodes"]).
Proof.
  intros sketchJson tree selectedId ids nodes Hparse Hnodes.
  pose proof (parseLanhuTree_returns _ _ Hparse) as Hown.
  apply exportNodes_own in Hnodes.
  destruct (compact_export_own sketchJson tree selectedId ids nodes Hown Hnodes)
    as (out & Hout & H).
  exists out. split; [|exact H]. rewrite exportIds_own; [exact Hout|].
  apply (parsed_export_ids sketchJson); [assumption|].
  now apply (exportNodesOwn_keys _ _ _ Hnodes).
Qed.

(* ===================================================================== *)
(** * 37. The properties on the sample document *)
(* ===================================================================== *)

Lemma sampleTree_returned : parseLanhuTree sampleSketch = Returns sampleTree.
Proof. reflexivity. Qed.

Lemma sampleSketch_plain : safeIds sampleSketch = true.
Proof. reflexivity. Qed.

Lemma sampleTree_C : lookup "C" (nodesById sampleTree) = Some sampleC.
Proof. reflexivity. Qed.

Lemma sampleTree_fuel : 2 * List.length (nodesById sampleTree) <= 10.
Proof. vm_compute. repeat constructor. Qed.

Lemma sampleTree_size : List.length (nodesById sampleTree) <= 5.
Proof. vm_compute. repeat constructor. Qed.


(** C5 at a layer without id that has a child with an id. *)
Lemma skipped_node_drops_subtree_witness :
  skipped anonymousLayer = true /\
  visit "A" sampleState anonymousLayer = Returns sampleState.
Proof.
  split; [reflexivity|].
  apply (proj1 skipped_node_drops_subtree). reflexivity.
Defined.

(** C8 at the artboard of the sample document: it has no [name], and the
    exported [name] is [null]. *)
Lemma pickExportNode_shape_witness :
  In "name" exportKeys /\ "name" <> "id" /\
  nullish (prop (Layer (Some "A") None []) "name") = true /\
  get (pickExportNode (Layer (Some "A") None [])) "name" = VNull.
Proof.
  assert (Hin : In "name" exportKeys) by (simpl; tauto).
  assert (Hne : "name" <> "id") by discriminate.
  split; [exact Hin|]. split; [exact Hne|]. split; [reflexivity|].
  exact (proj1 (proj2 (proj2 (proj2 (proj2 (proj1 pickExportNode_shape
           (Layer (Some "A") None []))))))
           "name" Hin Hne eq_refl).
Defined.


(** C4 at the example of the specification: after the inner id was
    selected, a second click at the same point selects the outer id. *)
Lemma repeated_click_advances_or_resets_witness :
  NoDup ["innerId"; "outerId"] /\ ~ In "" ["innerId"; "outerId"] /\
  selectedId (pickNext (pickCandidatesAtPoint (rectIndexAll nestedTree) 15 15)
                       (mkPick (Some "innerId|outerId") (Some "innerId")))
  = Some "outerId".
Proof.
  assert (Hnd : NoDup ["innerId"; "outerId"]).
  { repeat constructor; simpl; intuition discriminate. }
  assert (Hne : ~ In "" ["innerId"; "outerId"]).
  { simpl. intuition discriminate. }
  split; [exact Hnd|]. split; [exact Hne|].
  exact (proj1 repeated_click_advances_or_resets
           ["innerId"; "outerId"] (mkPick (Some "innerId|outerId") (Some "innerId"))
           0 "innerId" Hnd Hne eq_refl eq_refl eq_refl (le_n 2)).
Defined.


(** X1 on the sample document: of the four layers under the point [(2,
    2)], the hidden layer ["B"] is no candidate any more. *)
Lemma hide_then_unhide_in_wireframe_witness :
  nonEmpty "B" = true /\
  protoName "B" = false /\
  plainIds (map item_id (rectIndexAll sampleTree)) = true /\
  pickCandidatesAtPoint sampleIndex 2 2 = ["D"; "B"; "C"; "A"] /\
  pickCandidatesAtPoint
    (rectIndexVisible (rectIndexAll sampleTree) (hideSelectedInWireframe (Some "B") []))
    2 2 = ["D"; "C"; "A"].
Proof.
  split; [reflexivity|]. split; [reflexivity|]. split; [reflexivity|].
  split; [reflexivity|].
  destruct (proj1 (proj2 hide_then_unhide_in_wireframe) (rectIndexAll sampleTree) [] "B"
                  2%float 2%float eq_refl eq_refl eq_refl) as (_ & _ & H & _).
  rewrite H. reflexivity.
Defined.


(** X3 on the sample document: the included ids come out in document
    order. *)
Lemma getTreePreorderIds_document_order_witness :
  NoDup (registeredIds sampleSketch) /\
  safeIds sampleSketch = true /\
  parseLanhuTree sampleSketch = Returns sampleTree /\
  2 * List.length (nodesById sampleTree) <= 10 /\
  getTreePreorderIds 10 sampleTree ["D"; "A"; "C"] = Returns ["A"; "C"; "D"].
Proof.
  split; [exact sampleSketch_distinct|]. split; [exact sampleSketch_plain|].
  split; [exact sampleTree_returned|]. split; [exact sampleTree_fuel|].
  destruct (proj1 getTreePreorderIds_document_order
              sampleSketch sampleTree ["D"; "A"; "C"] 10
              sampleSketch_distinct sampleSketch_plain sampleTree_returned sampleTree_fuel)
    as (ids & Hrun & Hids & _).
  rewrite Hrun, Hids. reflexivity.
Defined.

(** X4 on the sample document: the layers inside ["C"] are ["B"], ["C"]
    itself and ["D"]. *)
Lemma exportVisuallyContained_exports_contained_nodes_witness :
  NoDup (registeredIds sampleSketch) /\
  safeIds sampleSketch = true /\
  parseLanhuTree sampleSketch = Returns sampleTree /\
  lookup "C" (nodesById sampleTree) = Some sampleC /\
  getNodeRect sampleC = Some sampleCRect /\
  2 * List.length (nodesById sampleTree) <= 10 /\
  exists nodes,
    exportVisuallyContained 10 (Some sampleTree) (Some "C") false =
    ExportText
      (VObject [ ("selectedId", VString "C");
                 ("count", count_value 3);
                 ("parentById",
                  VObject [("B", VString "A"); ("C", VString "A"); ("D", VString "C")]);
                 ("nodes", VArray nodes) ]).
Proof.
  split; [exact sampleSketch_distinct|]. split; [exact sampleSketch_plain|].
  split; [exact sampleTree_returned|].
  split; [exact sampleTree_C|]. split; [reflexivity|]. split; [exact sampleTree_fuel|].
  destruct (exportVisuallyContained_exports_contained_nodes
              sampleSketch sampleTree "C" sampleC sampleCRect 10 false
              sampleSketch_distinct sampleSketch_plain sampleTree_returned sampleTree_C
              eq_refl sampleTree_fuel) as (_ & _ & _ & _ & _ & H).
  eexists. rewrite H. vm_compute. reflexivity.
Defined.

(** X5 on the sample document: what is below ["C"]. *)
Lemma getDescendantIds_lists_nodes_below_witness :
  NoDup (registeredIds sampleSketch) /\
  safeIds sampleSketch = true /\
  parseLanhuTree sampleSketch = Returns sampleTree /\
  lookup "C" (nodesById sampleTree) = Some sampleC /\
  List.length (nodesById sampleTree) <= 5 /\
  getDescendantIds 5 sampleTree "C" true = Returns ["C"; "D"] /\
  getDescendantIds 1 sampleTree "nowhere" true = Returns ["nowhere"] /\
  getDescendantIds 1 sampleTree "toString" true = Throws.
Proof.
  split; [exact sampleSketch_distinct|]. split; [exact sampleSketch_plain|].
  split; [exact sampleTree_returned|].
  split; [exact sampleTree_C|]. split; [exact sampleTree_size|].
  destruct (proj1 getDescendantIds_lists_nodes_below sampleSketch sampleTree
              sampleSketch_distinct sampleSketch_plain sampleTree_returned)
    as [Hnode Hnone].
  split; [|split].
  - destruct (Hnode "C" sampleC 5 sampleTree_C sampleTree_size)
      as (below & _ & Hrun & _).
    rewrite Hrun. vm_compute in Hrun. exact (eq_sym Hrun).
  - exact (proj2 (Hnone "nowhere" 0 eq_refl)).
  - exact (proj2 (Hnone "toString" 0 eq_refl)).
Defined.




(** X11 on the sample document: the export of ["C"] and what is below
    it. *)
Lemma exportSelectedDescendants_exports_subtree_witness :
  NoDup (registeredIds sampleSketch) /\
  safeIds sampleSketch = true /\
  parseLanhuTree sampleSketch = Returns sampleTree /\
  lookup "C" (nodesById sampleTree) = Some sampleC /\
  List.length (nodesById sampleTree) <= 5 /\
  exists parents nodes,
    exportSelectedDescendants 5 (Some sampleTree) (Some "C") false =
    ExportText
      (VObject [ ("selectedId", VString "C");
                 ("count", count_value 2);
                 ("parentById", VObject parents);
                 ("nodes", VArray (pickExportNode sampleC :: nodes)) ]).
Proof.
  split; [exact sampleSketch_distinct|]. split; [exact sampleSketch_plain|].
  split; [exact sampleTree_returned|].
  split; [exact sampleTree_C|]. split; [exact sampleTree_size|].
  destruct (exportSelectedDescendants_exports_subtree sampleSketch sampleTree "C" sampleC 5
              sampleSketch_distinct sampleSketch_plain sampleTree_returned sampleTree_C
              sampleTree_size)
    as (below & nodes & parents & _ & _ & _ & _ & _ & H).
  exists parents, nodes. exact H.
Defined.

(** X12 on the sample document: the compact export of ["C"] and ["D"]. *)
Lemma compact_export_keeps_ids_and_count_witness :
  parseLanhuTree sampleSketch = Returns sampleTree /\
  exists nodes out,
    exportNodes sampleTree ["C"; "D"] = Returns nodes /\
    exportIds sampleTree "C" true ["C"; "D"] = ExportText (VObject out) /\
    lookup "count" out = Some (count_value 2).
Proof.
  split; [exact sampleTree_returned|].
  destruct (exportNodes sampleTree ["C"; "D"]) as [nodes| | |] eqn:Hnodes;
    try discriminate Hnodes.
  destruct (compact_export_keeps_ids_and_count sampleSketch sampleTree "C" ["C"; "D"] nodes
              sampleTree_returned Hnodes) as (out & Hout & _ & _ & Hcount & _).
  exists nodes, out. split; [reflexivity|]. split; [exact Hout | exact Hcount].
Defined.


(** X14 on the sample document: with ["D"] hidden, a first click at [(2,
    2)] selects a layer that is not hidden. *)
Lemma click_selects_visible_layer_under_point_witness :
  pickCandidatesAtPoint (rectIndexVisible (rectIndexAll sampleTree) [("D", true)]) 2 2
    <> [] /\
  exists item,
    selectedId (onClickSvg (rectIndexVisible (rectIndexAll sampleTree) [("D", true)])
                           2 2 (mkPick None None)) = Some (item_id item) /\
    isHidden [("D", true)] (item_id item) = false.
Proof.
  assert (Hsome : pickCandidatesAtPoint
                    (rectIndexVisible (rectIndexAll sampleTree) [("D", true)]) 2 2 <> [])
    by discriminate.
  split; [exact Hsome|].
  destruct (proj2 (click_selects_visible_layer_under_point sampleTree [("D", true)]
                     2%float 2%float (mkPick None None)) Hsome)
    as (item & Hsel & _ & _ & Hvisible & _).
  exists item. split; [exact Hsel|]. apply Hvisible. left. discriminate.
Defined.
